(** * rvref: instruction-encoding bitfield core

    A shallow embedding of the instruction loader of the RISC-V reference
    site (the [loadInstructions] module): match-pattern parsing,
    bit-location parsing, field resolution, format classification and the
    gap-filling bitfield layout, together with the properties the design
    document states about them.

    Conventions of the embedding.
    - JavaScript numbers that hold bit indices are modelled as [Z]; this is
      exact for every integer of magnitude below 2^53.
    - JavaScript strings are modelled as [string]; one [ascii] stands for
      one code unit below 256.
    - A property that may be missing from an object ([undefined]) is an
      [option].
    - [Array.prototype.sort] is stable; with a consistent comparator its
      result is the unique stable ordering, which [JS.sort] computes by
      insertion. *)

From Stdlib Require Import ZArith Ascii String DecimalString DecimalPos Sorting.Sorted.
From stdpp Require Import base list strings gmap sorting.

Local Open Scope string_scope.
Local Open Scope Z_scope.

(** ** JavaScript primitives used by the loader *)

Module JS.

(** [StrWhiteSpaceChar] restricted to code units below 256: TAB, LF, VT,
    FF, CR, SP and NBSP. *)
Definition isWhiteSpace (c : ascii) : bool :=
  let n := nat_of_ascii c in
  ((9 <=? n)%nat && (n <=? 13)%nat) || (n =? 32)%nat || (n =? 160)%nat.

Fixpoint trimStart (s : string) : string :=
  match s with
  | EmptyString => EmptyString
  | String c r => if isWhiteSpace c then trimStart r else s
  end.

Fixpoint trimEnd (s : string) : string :=
  match s with
  | EmptyString => EmptyString
  | String c r =>
      match trimEnd r with
      | EmptyString => if isWhiteSpace c then EmptyString else String c EmptyString
      | r' => String c r'
      end
  end.

(** [String.prototype.trim] *)
Definition trim (s : string) : string := trimEnd (trimStart s).

(** [String.prototype.split] with a one-character separator. *)
Fixpoint split (sep : ascii) (s : string) : list string :=
  match s with
  | EmptyString => [EmptyString]
  | String c r =>
      if Ascii.eqb c sep then EmptyString :: split sep r
      else match split sep r with
           | p :: ps => String c p :: ps
           | [] => [String c EmptyString]
           end
  end.

(** [s.split("")]: one single-character string per code unit. *)
Fixpoint explode (s : string) : list string :=
  match s with
  | EmptyString => []
  | String c r => String c EmptyString :: explode r
  end.

(** [Array.prototype.join("")] *)
Definition join (l : list string) : string :=
  fold_right String.append EmptyString l.

Definition digitValue (c : ascii) : option Z :=
  let n := nat_of_ascii c in
  if ((48 <=? n)%nat && (n <=? 57)%nat)%bool
  then Some (Z.of_nat n - 48) else None.

(** The longest prefix of decimal digits, as digit values. *)
Fixpoint digitPrefix (s : string) : list Z :=
  match s with
  | EmptyString => []
  | String c r =>
      match digitValue c with
      | Some d => d :: digitPrefix r
      | None => []
      end
  end.

Definition decimalValue (ds : list Z) : Z :=
  fold_left (fun acc d => 10 * acc + d) ds 0.

(** [parseInt(s, 10)]; [None] is [NaN]. Leading white space is skipped,
    one sign is accepted, and the longest digit prefix is read. The value
    is the exact integer, which is what [parseInt] returns as long as it
    is a safe integer. *)
Definition parseInt (s : string) : option Z :=
  let s1 := trimStart s in
  let '(sign, s2) :=
    match s1 with
    | String "-"%char r => (-1, r)
    | String "+"%char r => (1, r)
    | _ => (1, s1)
    end in
  match digitPrefix s2 with
  | [] => None
  | ds => Some (sign * decimalValue ds)
  end.

(** [Number.isSafeInteger]: the integers a Number holds exactly, up to
    2^53 - 1 in absolute value. *)
Definition isSafeInteger (n : Z) : bool := Z.abs n <=? 2 ^ 53 - 1.

(** An integer-valued Number of that range. Other Numbers are not
    modelled: a fraction, an integer above the range (which a Number
    rounds), or one from 1e21 on, which [String] prints in exponent
    notation ("1e+21"). *)
Record Integer : Type := mkInteger {
  int_value : Z;
  int_safe : isSafeInteger int_value = true
}.

(** [String(n)], [n + ""] and [`${n}`] for such an integer: its decimal
    numeral, with a minus sign when it is negative. *)
Definition numberToString (n : Integer) : string :=
  NilZero.string_of_int (Z.to_int (int_value n)).

(** [Array.prototype.sort(cmp)]: an element goes before its successors
    unless the comparator is positive, so ties keep their order. *)
Section Sort.
Context {A : Type} (cmp : A -> A -> Z).

Fixpoint insert (x : A) (l : list A) : list A :=
  match l with
  | [] => [x]
  | y :: r => if cmp x y <=? 0 then x :: l else y :: insert x r
  end.

Definition sort (l : list A) : list A := fold_right insert [] l.
End Sort.

(** [a[i]] for a numeric index; out of range is [undefined]. *)
Definition index {A : Type} (l : list A) (i : Z) : option A :=
  if i <? 0 then None else l !! Z.to_nat i.

(** [Array.prototype.slice(start, end)] *)
Definition slice {A : Type} (l : list A) (start stop : Z) : list A :=
  let len := Z.of_nat (length l) in
  let rel (k : Z) := if k <? 0 then Z.max (len + k) 0 else Z.min k len in
  let k := rel start in
  let final := rel stop in
  take (Z.to_nat (final - k)) (drop (Z.to_nat k) l).

(** [Math.max(...xs)] and [Math.min(...xs)] on a non-empty argument list
    (on the empty one JavaScript answers an infinity; the loader never
    calls them there). *)
Definition maxOf (x : Z) (xs : list Z) : Z := fold_left Z.max xs x.
Definition minOf (x : Z) (xs : list Z) : Z := fold_left Z.min xs x.

End JS.

(** A number written in the source, such as the 11 and the 7 of
    [eq("xd", 11, 7)]. *)
Abbreviation num n := (JS.mkInteger n eq_refl) (only parsing).

(** ** Data model *)

(** A contiguous bit span [{ from, to }], [from] being the high end. *)
Record Segment : Type := mkSegment { seg_from : Z; seg_to : Z }.

(** A field descriptor [{ label, from, to, width, kind, segments }]; the
    [kind] is one of the strings "var", "const" and "gap", and only
    variable fields carry [segments]. *)
Record Field : Type := mkField {
  label : string;
  from : Z;
  to : Z;
  width : Z;
  kind : string;
  segments : option (list Segment)
}.

(** The [location] of a variable as the YAML reader delivers it. *)
Inductive Location : Type :=
| LUndefined
| LNull
| LNumber (n : JS.Integer)
| LString (s : string).

Record VariableSpec : Type := mkVariable { name : string; location : Location }.

(** One encoding [{ match, variables }]. *)
Record Enc : Type := mkEnc {
  enc_match : option string;
  enc_variables : option (list VariableSpec)
}.

(** [doc.encoding]: either a flat encoding or a record of variants keyed
    by base ("RV32", "RV64"), in key order. *)
Inductive Encoding : Type :=
| Flat (e : Enc)
| Variants (vs : list (string * Enc)).

Record Doc : Type := mkDoc { encoding : option Encoding }.

(** ** The loader's functions *)

(** [String(loc)] *)
Definition locationToString (loc : Location) : string :=
  match loc with
  | LUndefined => "undefined"
  | LNull => "null"
  | LNumber n => JS.numberToString n
  | LString s => s
  end.

(** [parseMatchBits]: the pattern exploded into symbols, or [None] for
    [null]. *)
Definition parseMatchBits (matchStr : string) : option (list string) :=
  if String.eqb matchStr "" then None
  else if negb (String.length matchStr =? 32)%nat && negb (String.length matchStr =? 16)%nat
       then None
       else Some (JS.explode matchStr).

(** The two endpoints read from one trimmed piece ["hi-lo"] or ["n"], in
    the order written; [None] when either is [NaN]. *)
Definition pieceEndpoints (part : string) : option (Z * Z) :=
  let strs := map JS.trim (JS.split "-" part) in
  let hi := JS.parseInt (default "" (strs !! 0%nat)) in
  let lo :=
    match strs !! 1%nat with
    | Some loStr => if String.eqb loStr "" then hi else JS.parseInt loStr
    | None => hi
    end in
  match hi, lo with
  | Some h, Some l => Some (h, l)
  | _, _ => None
  end.

(** [{ from: Math.max(hi, lo), to: Math.min(hi, lo) }] *)
Definition normalize (e : Z * Z) : Segment :=
  mkSegment (Z.max e.1 e.2) (Z.min e.1 e.2).

(** The callback of the second [map] in [parseLocationSegments]: one
    trimmed piece to a normalised segment, [None] for [null]. *)
Definition parsePiece (part : string) : option Segment :=
  normalize <$> pieceEndpoints part.

(** The comparator [(a, b) => (b.from - a.from) || (b.to - a.to)]. *)
Definition cmpSegment (a b : Segment) : Z :=
  if seg_from b - seg_from a =? 0 then seg_to b - seg_to a
  else seg_from b - seg_from a.

(** The non-empty trimmed pieces of a location string. *)
Definition locationPieces (s : string) : list string :=
  filter (fun part => part <> "") (map JS.trim (JS.split "|" s)).

(** The pieces of a location; none when it is [undefined] or [null]. *)
Definition piecesOf (loc : Location) : list string :=
  match loc with
  | LUndefined | LNull => []
  | _ => locationPieces (locationToString loc)
  end.

Definition parseLocationSegments (loc : Location) : list Segment :=
  match loc with
  | LUndefined | LNull => []
  | _ =>
      JS.sort cmpSegment (omap parsePiece (locationPieces (locationToString loc)))
  end.

(** *** FieldResolver: [computeFields] *)

Definition emptyEnc : Enc := mkEnc None None.

(** Truthiness of [enc.match]: present and not the empty string. *)
Definition truthy (o : option string) : bool :=
  match o with
  | Some s => negb (String.eqb s "")
  | None => false
  end.

(** [enc[key]] on the record of variants. *)
Fixpoint getVariant (key : string) (vs : list (string * Enc)) : option Enc :=
  match vs with
  | [] => None
  | (k, e) :: r => if String.eqb k key then Some e else getVariant key r
  end.

(** The encoding [computeFields] works on. With neither a match string nor
    a variable list the keys of the object are taken as variants: "RV32"
    when it is among them, else the first one, and [{}] when the value
    there is falsy. On a flat encoding the only keys are [match] and
    [variables], whose values are falsy on that path. *)
Definition selectEncoding (e : Encoding) : Enc :=
  match e with
  | Flat enc =>
      if negb (truthy (enc_match enc)) && negb (bool_decide (is_Some (enc_variables enc)))
      then emptyEnc else enc
  | Variants vs =>
      let variants := map fst vs in
      let chosenKey :=
        if bool_decide ("RV32" ∈ variants) then Some "RV32" else head variants in
      match chosenKey with
      | Some k => default emptyEnc (getVariant k vs)
      | None => emptyEnc
      end
  end.

(** The body of the loop over the variables: no field when the location
    yields no segment, else one "var" field. *)
Definition varField (v : VariableSpec) : option Field :=
  match parseLocationSegments (location v) with
  | [] => None
  | s :: rest =>
      let segs := s :: rest in
      Some {| label := name v;
              from := JS.maxOf (seg_from s) (map seg_from rest);
              to := JS.minOf (seg_to s) (map seg_to rest);
              width := fold_left (fun sum s => sum + (seg_from s - seg_to s + 1)) segs 0;
              kind := "var";
              segments := Some segs |}
  end.

(** [x === "-"] for a possibly undefined [x]. *)
Definition isDontCare (x : option string) : bool :=
  match x with
  | Some s => String.eqb s "-"
  | None => false
  end.

(** [match[match.length - 1 - bit]] *)
Definition symbolAt (m : list string) (bit : Z) : option string :=
  JS.index m (Z.of_nat (length m) - 1 - bit).

(** The inner loop
    [while (bit >= 0 && match[match.length - 1 - bit] !== "-") bit--;]
    returning the final [bit]; [None] when the fuel runs out. *)
Fixpoint scanRun (fuel : nat) (m : list string) (bit : Z) : option Z :=
  match fuel with
  | O => None
  | S k =>
      if (0 <=? bit) && negb (isDontCare (symbolAt m bit))
      then scanRun k m (bit - 1)
      else Some bit
  end.

Definition constLabel (hi lo : Z) (bits : string) : string :=
  if (hi =? 31) && (lo =? 25) then "funct7=" ++ bits
  else if (hi =? 14) && (lo =? 12) then "funct3=" ++ bits
  else if (hi =? 6) && (lo =? 0) then "opcode=" ++ bits
  else "const=" ++ bits.

(** The literal bits of a run: [match.slice(len - 1 - hi, len - lo).join("")] *)
Definition runBits (m : list string) (hi lo : Z) : string :=
  let len := Z.of_nat (length m) in
  JS.join (JS.slice m (len - 1 - hi) (len - lo)).

Definition constField (m : list string) (hi lo : Z) : Field :=
  {| label := constLabel hi lo (runBits m hi lo);
     from := hi; to := lo; width := hi - lo + 1;
     kind := "const"; segments := None |}.

(** The outer loop [while (bit >= 0) { ... }] pushing onto [fields]. *)
Fixpoint constLoop (fuel : nat) (m : list string) (bit : Z) (fields : list Field)
  : option (list Field) :=
  match fuel with
  | O => None
  | S k =>
      if 0 <=? bit then
        let hi := bit in
        match scanRun (S (Z.to_nat (bit + 1))) m bit with
        | None => None
        | Some bit' =>
            let lo := bit' + 1 in
            let width := hi - lo + 1 in
            if width <=? 0 then constLoop k m (bit' - 1) fields
            else constLoop k m bit' (fields ++ [constField m hi lo])%list
        end
      else Some fields
  end.

(** The fields after the scan of a parsed pattern; the loop needs at most
    [match.length + 1] tests of its condition. *)
Definition pushConstFields (m : list string) (fields : list Field) : list Field :=
  default fields (constLoop (S (length m)) m (Z.of_nat (length m) - 1) fields).

(** The comparator [(a, b) => b.from - a.from]. *)
Definition cmpField (a b : Field) : Z := from b - from a.

Definition computeFields (doc : Doc) : list Field :=
  match encoding doc with
  | None => []
  | Some e =>
      let enc := selectEncoding e in
      let match_ := parseMatchBits (default "" (enc_match enc)) in
      let vars := default [] (enc_variables enc) in
      let fields := omap varField vars in
      let fields :=
        match match_ with
        | Some m => pushConstFields m fields
        | None => fields
        end in
      JS.sort cmpField fields
  end.

(** *** FormatClassifier: [detectEncodingType] *)

(** [Object.fromEntries]: a later entry replaces an earlier one. *)
Definition fromEntries (entries : list (string * string)) : gmap string string :=
  fold_left (fun o kv => <[kv.1 := kv.2]> o) entries ∅.

(** The object built from the variable list. *)
Definition varsOf (variables : list VariableSpec) : gmap string string :=
  fromEntries (map (fun v => (name v, locationToString (location v))) variables).

(** The chain of tests on that object, with the local helper
    [eq = (name, hi, lo) => vars[name] === hi + "-" + lo]. *)
Definition classify (vars : gmap string string) : option string :=
  let eq (name : string) (hi lo : JS.Integer) : bool :=
    bool_decide (vars !! name = Some (JS.numberToString hi ++ "-" ++ JS.numberToString lo)) in
  if eq "xd" (num 11) (num 7) && eq "xs1" (num 19) (num 15)
     && bool_decide (vars !! "imm" = Some "31-20")
  then Some "I"
  else if eq "xd" (num 11) (num 7) && eq "xs1" (num 19) (num 15)
          && eq "xs2" (num 24) (num 20) then Some "R"
  else if eq "xs2" (num 24) (num 20) && eq "xs1" (num 19) (num 15)
          && eq "imm" (num 11) (num 7) then Some "S"
  else if bool_decide (vars !! "imm" = Some "31-12") && eq "xd" (num 11) (num 7)
  then Some "U"
  else if eq "imm" (num 31) (num 12) && eq "xs1" (num 19) (num 15) then Some "J"
  else if eq "xs2" (num 24) (num 20) && eq "xs1" (num 19) (num 15)
          && eq "imm" (num 11) (num 7) then Some "B"
  else None.

(** [doc.encoding.variables] when it is an array. *)
Definition docVariables (doc : Doc) : option (list VariableSpec) :=
  match encoding doc with
  | Some (Flat enc) => enc_variables enc
  | _ => None
  end.

Definition detectEncodingType (doc : Doc) : option string :=
  match docVariables doc with
  | Some variables => classify (varsOf variables)
  | None => None
  end.

(** *** BitfieldLayoutBuilder: [standardizeBitfieldFields] *)

(** [Array.isArray(field.segments) && field.segments.length
     ? field.segments : [{ from: field.from, to: field.to }]] *)
Definition fieldSegments (field : Field) : list Segment :=
  match segments field with
  | Some (s :: r) => s :: r
  | _ => [mkSegment (from field) (to field)]
  end.

(** Step 1 for one field: an entry per segment of positive width. *)
Definition expandField (field : Field) : list Field :=
  omap (fun seg =>
          let hi := seg_from seg in
          let lo := seg_to seg in
          let width := hi - lo + 1 in
          if width <=? 0 then None
          else Some {| label := label field; from := hi; to := lo; width := width;
                       kind := kind field; segments := None |})
       (fieldSegments field).

Definition expandFields (fields : list Field) : list Field :=
  flat_map expandField fields.

Definition gapField (hi lo w : Z) : Field :=
  {| label := ""; from := hi; to := lo; width := w; kind := "gap"; segments := None |}.

(** One turn of the gap-filling loop on the state [(filled, nextBit)]. *)
Definition fillStep (st : list Field * Z) (seg : Field) : list Field * Z :=
  let '(filled, nextBit) := st in
  let filled :=
    if from seg <? nextBit
    then (filled ++ [gapField nextBit (from seg + 1) (nextBit - from seg)])%list
    else filled in
  ((filled ++ [seg])%list, to seg - 1).

(** [standardizeBitfieldFields(fields, totalBits)]; the caller always
    passes [totalBits]. *)
Definition standardizeBitfieldFields (fields : list Field) (totalBits : Z) : list Field :=
  let expanded := JS.sort cmpField (expandFields fields) in
  let '(filled, nextBit) := fold_left fillStep expanded ([], totalBits - 1) in
  let filled :=
    if 0 <=? nextBit then (filled ++ [gapField nextBit 0 (nextBit + 1)])%list else filled in
  JS.sort cmpField filled.

(** *** Derived literals in [loadInstructions] *)

Record Literals : Type := mkLiterals {
  opcode : option string;
  funct3 : option string;
  funct7 : option string
}.

(** [doc.encoding.match] *)
Definition docMatch (doc : Doc) : option string :=
  match encoding doc with
  | Some (Flat enc) => enc_match enc
  | _ => None
  end.

Definition isBit (c : ascii) : bool := Ascii.eqb c "0" || Ascii.eqb c "1".

Fixpoint allBits (s : string) : bool :=
  match s with
  | EmptyString => true
  | String c r => isBit c && allBits r
  end.

(** [/^[01]{7}$/.test(s)] *)
Definition isBinary7 (s : string) : bool :=
  (String.length s =? 7)%nat && allBits s.

(** [sliceBits = (hi, lo) => m.slice(31 - hi, 32 - lo).join("")] *)
Definition sliceBits (m : list string) (hi lo : Z) : string :=
  JS.join (JS.slice m (31 - hi) (32 - lo)).

Definition deriveLiterals (doc : Doc) : Literals :=
  if truthy (docMatch doc) then
    match parseMatchBits (default "" (docMatch doc)) with
    | Some m =>
        let f7 := sliceBits m 31 25 in
        {| opcode := Some (sliceBits m 6 0);
           funct3 := Some (sliceBits m 14 12);
           funct7 := if isBinary7 f7 then Some f7 else None |}
    | None => mkLiterals None None None
    end
  else mkLiterals None None None.

(** [doc.encoding?.match?.length === 16 ? 16 : 32] *)
Definition totalBitsOf (doc : Doc) : Z :=
  match docMatch doc with
  | Some s => if (String.length s =? 16)%nat then 16 else 32
  | None => 32
  end.

(** [filledFields] of one instruction record. *)
Definition filledFields (doc : Doc) : list Field :=
  standardizeBitfieldFields (computeFields doc) (totalBitsOf doc).

(** ** Notions of the design document *)

(** [x] may stand before [y] under a comparator. *)
Definition before {A : Type} (cmp : A -> A -> Z) (x y : A) : Prop := cmp x y <= 0.

(** *** Format predicates, in the order the classifier tries them *)

Definition located (vars : gmap string string) (name loc : string) : bool :=
  bool_decide (vars !! name = Some loc).

Definition predicateI (vars : gmap string string) : bool :=
  located vars "xd" "11-7" && located vars "xs1" "19-15" && located vars "imm" "31-20".
Definition predicateR (vars : gmap string string) : bool :=
  located vars "xd" "11-7" && located vars "xs1" "19-15" && located vars "xs2" "24-20".
Definition predicateS (vars : gmap string string) : bool :=
  located vars "xs2" "24-20" && located vars "xs1" "19-15" && located vars "imm" "11-7".
Definition predicateU (vars : gmap string string) : bool :=
  located vars "imm" "31-12" && located vars "xd" "11-7".
Definition predicateJ (vars : gmap string string) : bool :=
  located vars "imm" "31-12" && located vars "xs1" "19-15".
Definition predicateB (vars : gmap string string) : bool :=
  located vars "xs2" "24-20" && located vars "xs1" "19-15" && located vars "imm" "11-7".

Definition classifierOrder : list ((gmap string string -> bool) * string) :=
  [(predicateI, "I"); (predicateR, "R"); (predicateS, "S");
   (predicateU, "U"); (predicateJ, "J"); (predicateB, "B")].

(** The tag of the first predicate of the table that holds. *)
Fixpoint firstMatch (table : list ((gmap string string -> bool) * string))
    (vars : gmap string string) : option string :=
  match table with
  | [] => None
  | (p, tag) :: rest => if p vars then Some tag else firstMatch rest vars
  end.

(** Sample records: a store with its immediate declared at "11-7", and the
    same with a destination register declared on top of it. *)
Definition storeVariables : list VariableSpec :=
  [mkVariable "imm" (LString "11-7"); mkVariable "xs2" (LString "24-20");
   mkVariable "xs1" (LString "19-15")].
Definition storeDoc : Doc :=
  mkDoc (Some (Flat (mkEnc (Some "-----------------010-----0100011") (Some storeVariables)))).
Definition clashVariables : list VariableSpec :=
  mkVariable "xd" (LString "11-7") :: storeVariables.
Definition clashDoc : Doc :=
  mkDoc (Some (Flat (mkEnc (Some "-----------------010-----0100011") (Some clashVariables)))).

(** *** Bit ranges *)

(** Descending by [from], ties by descending [to]. *)
Definition segmentOrder (a b : Segment) : Prop :=
  seg_from b < seg_from a \/ (seg_from b = seg_from a /\ seg_to b <= seg_to a).

Definition segmentWidth (s : Segment) : Z := seg_from s - seg_to s + 1.

(** [parts.join(sep)] *)
Fixpoint joinWith (sep : string) (parts : list string) : string :=
  match parts with
  | [] => ""
  | [p] => p
  | p :: rest => p ++ sep ++ joinWith sep rest
  end.

Fixpoint hasChar (c : ascii) (s : string) : bool :=
  match s with
  | EmptyString => false
  | String a r => Ascii.eqb a c || hasChar c r
  end.

(** *** Constant runs of a match pattern *)

(** The bits [lo..hi] are a maximal run of symbols other than "-". *)
Definition maximalRun (m : list string) (hi lo : Z) : Prop :=
  0 <= lo <= hi /\ hi < Z.of_nat (length m)
  /\ (forall b, lo <= b <= hi -> isDontCare (symbolAt m b) = false)
  /\ (hi = Z.of_nat (length m) - 1 \/ isDontCare (symbolAt m (hi + 1)) = true)
  /\ (lo = 0 \/ isDontCare (symbolAt m (lo - 1)) = true).

(** At the head of each turn of the loop the bit above [bit] does not
    continue a run into [bit]. *)
Definition runBoundary (m : list string) (bit : Z) : Prop :=
  bit = Z.of_nat (length m) - 1
  \/ isDontCare (symbolAt m (bit + 1)) = true
  \/ isDontCare (symbolAt m bit) = true
  \/ bit = -1.

(** The symbols of the bits [hi] down to [lo], most significant first. *)
Definition runSymbols (m : list string) (hi lo : Z) : list string :=
  JS.slice m (Z.of_nat (length m) - 1 - hi) (Z.of_nat (length m) - lo).

(** The role of a constant run, by its exact span. *)
Definition role (hi lo : Z) : string :=
  if decide (hi = 31 /\ lo = 25) then "funct7"
  else if decide (hi = 14 /\ lo = 12) then "funct3"
  else if decide (hi = 6 /\ lo = 0) then "opcode"
  else "const".

(** [b] lies entirely below [a]. *)
Definition below (a b : Field) : Prop := from b < to a.

(** The constant fields of a pattern, scanned on their own. *)
Definition constRuns (m : list string) : list Field := pushConstFields m [].

Definition addDoc : Doc :=
  mkDoc (Some (Flat (mkEnc (Some "0000000----------000-----0110011")
    (Some [mkVariable "xs2" (LString "24-20"); mkVariable "xs1" (LString "19-15");
           mkVariable "xd" (LString "11-7")])))).

Definition sumZ (l : list Z) : Z := foldr Z.add 0 l.

Definition isConst (f : Field) : Prop := kind f = "const".
Definition isVar (f : Field) : Prop := kind f = "var".

#[global] Instance isConst_dec (f : Field) : Decision (isConst f).
Proof. unfold isConst. apply _. Defined.
#[global] Instance isVar_dec (f : Field) : Decision (isVar f).
Proof. unfold isVar. apply _. Defined.

(** The variables [computeFields] reads, and the constant runs of the
    pattern it parses. *)
Definition resolvedVariables (e : Encoding) : list VariableSpec :=
  default [] (enc_variables (selectEncoding e)).
Definition resolvedPattern (e : Encoding) : option (list string) :=
  parseMatchBits (default "" (enc_match (selectEncoding e))).

(** The fields a pattern contributes: its constant runs, or nothing when
    the match string was rejected. *)
Definition patternFields (pattern : option (list string)) : list Field :=
  match pattern with
  | Some m => constRuns m
  | None => []
  end.


(** *** Layouts *)

(** The ranges of two entries share no bit. *)
Definition disjointRange (a b : Field) : Prop := from a < to b \/ from b < to a.

Definition nonOverlapping (l : list Field) : Prop := ForallOrdPairs disjointRange l.

(** The range of an entry lies in the word [0 .. W-1]. *)
Definition withinWord (W : Z) (f : Field) : Prop := 0 <= to f /\ from f < W.

(** An entry whose width is that of its range, and positive. *)
Definition wellSized (f : Field) : Prop := width f = from f - to f + 1 /\ 0 < width f.

(** [chain hi l lo]: read in order, the entries of [l] cover [hi] down to
    [lo] with neither hole nor overlap. *)
Inductive chain : Z -> list Field -> Z -> Prop :=
| chain_nil (hi lo : Z) : hi = lo - 1 -> chain hi [] lo
| chain_cons (hi lo : Z) (f : Field) (r : list Field) :
    from f = hi -> to f <= from f -> chain (to f - 1) r lo -> chain hi (f :: r) lo.

(** The ranges of [out] partition [0 .. W-1]: in descending order of
    [from], starting at [W-1], each [to] one above the next [from], ending
    at 0, pairwise disjoint and covering exactly the bits of the word. *)
Definition partitions (W : Z) (out : list Field) : Prop :=
  StronglySorted (fun a b => from b < from a) out
  /\ from <$> head out = Some (W - 1)
  /\ (forall (i : nat) a b, out !! i = Some a -> out !! S i = Some b -> to a = from b + 1)
  /\ to <$> last out = Some 0
  /\ nonOverlapping out
  /\ (forall b, 0 <= b <= W - 1 <-> exists f, f ∈ out /\ to f <= b <= from f).

(** Sample lists: a field above the word, and two fields on the same bits. *)
Definition wideFields : list Field :=
  [mkField "imm" 40 35 6 "var" None].
Definition overlapFields : list Field :=
  [mkField "a" 31 0 32 "var" None; mkField "b" 31 0 32 "var" None].

(** *** Derived literals *)

(** The characters of a 32-character pattern on the bits [hi] down to [lo]. *)
Definition patternSpan (s : string) (hi lo : nat) : string :=
  substring (31 - hi) (hi - lo + 1) s.

(** Every literal that is reported consists of 0 and 1 only. *)
Definition validated (l : Literals) : Prop :=
  forall s, opcode l = Some s \/ funct3 l = Some s \/ funct7 l = Some s -> allBits s = true.

(** A flat record with the given match string. *)
Definition patternDoc (s : string) (vars : option (list VariableSpec)) : Doc :=
  mkDoc (Some (Flat (mkEnc (Some s) vars))).

(** An upper-immediate instruction: bits 31..7 are left to the operands. *)
Definition luiDoc : Doc :=
  patternDoc "-------------------------0110111"
    (Some [mkVariable "imm" (LString "31-12"); mkVariable "xd" (LString "11-7")]).

(** ** The earlier revision kept in [src/lib/loadInstructions.js]

    That copy of the loader predates 16-bit patterns, multi-segment
    locations and the run scan; the two functions below are the ones that
    differ in what they accept or emit for a match pattern. *)

Module Legacy.

(** [if (!matchStr || matchStr.length !== 32) return null;] *)
Definition parseMatchBits (matchStr : string) : option (list string) :=
  if String.eqb matchStr "" || negb (String.length matchStr =? 32)%nat then None
  else Some (JS.explode matchStr).

(** [/^[01]{n}$/.test(s)] *)
Definition isBinary (n : nat) (s : string) : bool :=
  (String.length s =? n)%nat && allBits s.

Fixpoint allDontCare (s : string) : bool :=
  match s with
  | EmptyString => true
  | String c r => Ascii.eqb c "-" && allDontCare r
  end.

(** The constant fields its [computeFields] pushes for a parsed pattern:
    the three fixed slices, each only when it is all 0 and 1. *)
Definition constFields (m : list string) : list Field :=
  let opcode := sliceBits m 6 0 in
  let funct3 := sliceBits m 14 12 in
  let funct7 := sliceBits m 31 25 in
  ((if isBinary 7 opcode
    then [mkField ("opcode=" ++ opcode) 6 0 7 "const" None] else [])
   ++ (if isBinary 3 funct3
       then [mkField ("funct3=" ++ funct3) 14 12 3 "const" None] else [])
   ++ (if isBinary 7 funct7 && negb ((String.length funct7 =? 7)%nat && allDontCare funct7)
       then [mkField ("funct7=" ++ funct7) 31 25 7 "const" None] else []))%list.

End Legacy.

(** ** The rest of the loader *)

(** [expandBitfieldFields(fields, totalBits)], the variant of the layout
    builder without gap filling; [totalBits] is not used. *)
Definition expandBitfieldFields (fields : list Field) (totalBits : Z) : list Field :=
  JS.sort cmpField (expandFields fields).

Definition isGap (f : Field) : Prop := kind f = "gap".

#[global] Instance isGap_dec (f : Field) : Decision (isGap f).
Proof. unfold isGap. apply _. Defined.

(** [a] stands before [b] under the comparator, and where the comparator
    ties them [Q a b] holds. *)
Definition tieOrdered {A : Type} (cmp : A -> A -> Z) (Q : A -> A -> Prop) (a b : A) : Prop :=
  cmp a b <= 0 /\ (cmp b a <= 0 -> Q a b).

(** A constant field is not listed before a variable field. *)
Definition varFirst (a b : Field) : Prop := ~ (isConst a /\ isVar b).

(** The layout entry of one parsed range of a variable. *)
Definition segmentEntry (v : VariableSpec) (s : Segment) : Field :=
  {| label := name v; from := seg_from s; to := seg_to s;
     width := seg_from s - seg_to s + 1; kind := "var"; segments := None |}.

(** All the parsed ranges of a variable list. *)
Definition variableSegments (vars : list VariableSpec) : list Segment :=
  flat_map (fun v => parseLocationSegments (location v)) vars.

Definition disjointSegments (a b : Segment) : Prop :=
  seg_from a < seg_to b \/ seg_from b < seg_to a.

(** Every bit of the range is a don't-care position of the pattern. *)
Definition onDontCares (m : list string) (s : Segment) : Prop :=
  forall b, seg_to s <= b <= seg_from s -> isDontCare (symbolAt m b) = true.

(** The variant [computeFields] resolves: "RV32" wherever it stands, else
    the first one, else the empty encoding. *)
Definition chosenVariant (vs : list (string * Enc)) : Enc :=
  match getVariant "RV32" vs with
  | Some e => e
  | None => match vs with
            | (_, e) :: _ => e
            | [] => emptyEnc
            end
  end.

(** A record with two variants, both with 16-character patterns. *)
Definition compressedVariantsDoc : Doc :=
  mkDoc (Some (Variants
    [("RV64", mkEnc (Some "011-----------00") (Some [mkVariable "xd" (LString "4-2")]));
     ("RV32", mkEnc (Some "011-----------01") (Some [mkVariable "fd" (LString "4-2")]))])).

(** An entry as the gap filler makes it. *)
Definition madeGap (f : Field) : Prop :=
  label f = "" /\ kind f = "gap" /\ segments f = None /\ width f = from f - to f + 1.

(** The range of a field, as a segment. *)
Definition rangeOf (f : Field) : Segment := mkSegment (from f) (to f).

(** The test of [onDontCares], bit by bit. *)
Definition coversDontCares (m : list string) (s : Segment) : bool :=
  forallb (fun b => isDontCare (symbolAt m b))
          (seqZ (seg_to s) (seg_from s - seg_to s + 1)).

(** A store whose immediate is kept in two ranges. *)
Definition swVariables : list VariableSpec :=
  [mkVariable "imm" (LString "31-25|11-7"); mkVariable "xs2" (LString "24-20");
   mkVariable "xs1" (LString "19-15")].
Definition swPattern : string := "-----------------010-----0100011".

(** *** The compact description handed to the renderer *)

(** [s.indexOf(c)] for a one-character [c]; -1 when [c] does not occur. *)
Fixpoint stringIndexOf (c : ascii) (s : string) : Z :=
  match s with
  | EmptyString => -1
  | String a r =>
      if Ascii.eqb a c then 0
      else let i := stringIndexOf c r in if i =? -1 then -1 else i + 1
  end.

Fixpoint dropChars (n : nat) (s : string) : string :=
  match n, s with
  | O, _ => s
  | S k, String _ r => dropChars k r
  | S _, EmptyString => EmptyString
  end.

(** [s.slice(start)] *)
Definition stringSliceFrom (s : string) (start : Z) : string :=
  let len := Z.of_nat (String.length s) in
  let k := if start <? 0 then Z.max (len + start) 0 else Z.min start len in
  dropChars (Z.to_nat k) s.

(** An entry [{ name, bits }] of [bitfieldJSON.reg]. *)
Record Reg : Type := mkReg { reg_name : string; bits : Z }.

(** The callback of [filledFields.map]: the label of a constant field
    loses its part up to the first "=", unless nothing follows it. *)
Definition regOf (f : Field) : Reg :=
  let name := label f in
  let name :=
    if String.eqb (kind f) "const" then
      let idx := stringIndexOf "=" name in
      if negb (idx =? -1) && (idx + 1 <? Z.of_nat (String.length name))
      then stringSliceFrom name (idx + 1) else name
    else name in
  {| reg_name := name; bits := width f |}.

(** [bitfieldJSON.reg] of one instruction record. *)
Definition bitfieldJSON (doc : Doc) : list Reg := map regOf (filledFields doc).

(** [bitfieldJSON.reg.slice().reverse()], the list given to the renderer. *)
Definition renderSegments (doc : Doc) : list Reg := rev (bitfieldJSON doc).

(** *** The [bitRange] template filter *)

(** The values the filter tells apart: nothing, a string, an array of
    numbers, a number. *)
Inductive RangeValue : Type :=
| RUndefined
| RString (s : string)
| RArray (l : list JS.Integer)
| RNumber (n : JS.Integer).

(** [`${x}`] for an array element that may be missing. *)
Definition elementToString (x : option JS.Integer) : string :=
  match x with
  | Some n => JS.numberToString n
  | None => "undefined"
  end.

(** [bitRange(range)]; the empty string and the number 0 are falsy. *)
Definition bitRange (range : RangeValue) : string :=
  match range with
  | RUndefined => ""
  | RString s => s
  | RArray l => elementToString (l !! 0%nat) ++ "-" ++ elementToString (l !! 1%nat)
  | RNumber n => if JS.int_value n =? 0 then "" else JS.numberToString n
  end.

(** A string of decimal digits. *)
Fixpoint allDigits (s : string) : bool :=
  match s with
  | EmptyString => true
  | String c r => bool_decide (is_Some (JS.digitValue c)) && allDigits r
  end.

(** A string without white space. *)
Fixpoint noWhiteSpace (s : string) : bool :=
  match s with
  | EmptyString => true
  | String c r => negb (JS.isWhiteSpace c) && noWhiteSpace r
  end.

(** The names the classifier looks up. *)
Definition classifierName (n : string) : Prop :=
  n = "xd" \/ n = "xs1" \/ n = "xs2" \/ n = "imm".

#[global] Instance classifierName_dec (n : string) : Decision (classifierName n).
Proof. unfold classifierName. apply _. Defined.

(** A flat record with the given variable list. *)
Definition variablesDoc (m : option string) (variables : list VariableSpec) : Doc :=
  mkDoc (Some (Flat (mkEnc m (Some variables)))).

(** *** [slugifyExtension] *)

(** [toLowerCase] on one code unit below 256: A-Z and the capital letters
    of Latin-1 move 32 places up. *)
Definition toLowerChar (c : ascii) : ascii :=
  let n := nat_of_ascii c in
  if ((65 <=? n)%nat && (n <=? 90)%nat) || ((192 <=? n)%nat && (n <=? 214)%nat)
     || ((216 <=? n)%nat && (n <=? 222)%nat)
  then ascii_of_nat (n + 32) else c.

Fixpoint toLowerCase (s : string) : string :=
  match s with
  | EmptyString => EmptyString
  | String c r => String (toLowerChar c) (toLowerCase r)
  end.

(** The class [[a-z0-9]]. *)
Definition isSlugChar (c : ascii) : bool :=
  let n := nat_of_ascii c in
  ((97 <=? n)%nat && (n <=? 122)%nat) || ((48 <=? n)%nat && (n <=? 57)%nat).

Definition isDash (c : ascii) : bool := Ascii.eqb c "-".

(** [s.replace(/[^a-z0-9]+/g, "-")]: every maximal run of other characters
    becomes one dash; [inRun] tells that the run has begun. *)
Fixpoint replaceRuns (inRun : bool) (s : string) : string :=
  match s with
  | EmptyString => EmptyString
  | String c r =>
      if isSlugChar c then String c (replaceRuns false r)
      else if inRun then replaceRuns true r
      else String "-" (replaceRuns true r)
  end.

(** The alternative [^-+] of [s.replace(/^-+|-+$/g, "")]. *)
Fixpoint dropLeadingDashes (s : string) : string :=
  match s with
  | EmptyString => EmptyString
  | String c r => if isDash c then dropLeadingDashes r else s
  end.

(** The alternative [-+$]. *)
Fixpoint dropTrailingDashes (s : string) : string :=
  match s with
  | EmptyString => EmptyString
  | String c r =>
      match dropTrailingDashes r with
      | EmptyString => if isDash c then EmptyString else String c EmptyString
      | r' => String c r'
      end
  end.

Definition slugifyExtension (ext : string) : string :=
  let s :=
    dropTrailingDashes
      (dropLeadingDashes (replaceRuns false (toLowerCase (JS.trim ext)))) in
  if String.eqb s "" then "unknown" else s.

(** Well-formed slugs: not empty, made of a-z, 0-9 and single dashes, with
    no dash at either end. *)
Fixpoint allSlugOrDash (s : string) : bool :=
  match s with
  | EmptyString => true
  | String c r => (isSlugChar c || isDash c) && allSlugOrDash r
  end.

Definition startsWithDash (s : string) : bool :=
  match s with
  | String c _ => isDash c
  | EmptyString => false
  end.

Fixpoint endsWithDash (s : string) : bool :=
  match s with
  | EmptyString => false
  | String c EmptyString => isDash c
  | String _ r => endsWithDash r
  end.

Fixpoint noDoubleDash (s : string) : bool :=
  match s with
  | EmptyString => true
  | String c r => (negb (isDash c) || negb (startsWithDash r)) && noDoubleDash r
  end.

Definition validSlug (s : string) : bool :=
  negb (String.eqb s "") && allSlugOrDash s && noDoubleDash s
  && negb (startsWithDash s) && negb (endsWithDash s).

(** *** The index of extensions (the data file built on [loadInstructions]) *)

(** What the index reads of an instruction record. *)
Record Instruction : Type := mkInstruction {
  inst_name : string;
  extension : string;
  extensionSlug : string
}.

(** An entry [{ name, slug, description, instructions, count }]; [count]
    is set when the list is finished. *)
Record ExtensionEntry : Type := mkEntry {
  ext_name : string;
  ext_slug : string;
  ext_description : option string;
  ext_instructions : list Instruction;
  ext_count : option Z
}.

(** [s || "unknown"] *)
Definition orUnknown (s : string) : string :=
  if String.eqb s "" then "unknown" else s.

(** [byExtension.has(name)], the map being kept as its entries in
    insertion order. *)
Definition hasEntry (name : string) (m : list ExtensionEntry) : bool :=
  existsb (fun e => String.eqb (ext_name e) name) m.

(** [byExtension.get(name).instructions.push(inst)] *)
Fixpoint pushTo (name : string) (inst : Instruction) (m : list ExtensionEntry)
  : list ExtensionEntry :=
  match m with
  | [] => []
  | e :: r =>
      if String.eqb (ext_name e) name
      then mkEntry (ext_name e) (ext_slug e) (ext_description e)
             (ext_instructions e ++ [inst]) (ext_count e) :: r
      else e :: pushTo name inst r
  end.

Section Extensions.
(** The table [descriptions], read as [descriptions[name] || null], and
    [String.prototype.localeCompare]. *)
Context (describe : string -> option string) (localeCompare : string -> string -> Z).

(** The body of the loop over the instructions. *)
Definition groupStep (m : list ExtensionEntry) (inst : Instruction) : list ExtensionEntry :=
  let name := orUnknown (extension inst) in
  let slug := orUnknown (extensionSlug inst) in
  let m :=
    if hasEntry name m then m
    else (m ++ [mkEntry name slug (describe name) [] None])%list in
  pushTo name inst m.

(** The loop over the finished entries: sort the instructions by name and
    set the count. *)
Definition finishEntry (e : ExtensionEntry) : ExtensionEntry :=
  let sorted :=
    JS.sort (fun a b => localeCompare (inst_name a) (inst_name b)) (ext_instructions e) in
  mkEntry (ext_name e) (ext_slug e) (ext_description e) sorted
    (Some (Z.of_nat (length sorted))).

(** The exported function, given the list [loadInstructions] returns. *)
Definition extensionsList (instructions : list Instruction) : list ExtensionEntry :=
  JS.sort (fun a b => localeCompare (ext_name a) (ext_name b))
    (map finishEntry (fold_left groupStep instructions [])).

End Extensions.

(** What the grouping keeps true of the entries built from the
    instructions [seen] so far. *)
Definition grouped (m : list ExtensionEntry) (seen : list Instruction) : Prop :=
  NoDup (ext_name <$> m)
  /\ Forall (fun e => ext_instructions e <> []
                      /\ Forall (fun i => orUnknown (extension i) = ext_name e)
                                (ext_instructions e)) m
  /\ concat (ext_instructions <$> m) ≡ₚ seen.

(** A pattern written with the symbols 0, 1 and "-" only. *)
Fixpoint patternChars (s : string) : bool :=
  match s with
  | EmptyString => true
  | String c r => (isBit c || Ascii.eqb c "-") && patternChars r
  end.

(** A string of white space only. *)
Fixpoint allWhiteSpace (s : string) : bool :=
  match s with
  | EmptyString => true
  | String c r => JS.isWhiteSpace c && allWhiteSpace r
  end.

(** [q] is [p] with white space added before and after it. *)
Definition padding (p q : string) : Prop :=
  exists w1 w2, allWhiteSpace w1 = true /\ allWhiteSpace w2 = true
                /\ q = (w1 ++ p ++ w2)%string.



(** ** What a location says, stated apart from the parser

    The reading of a location text is described here on the text itself,
    without [split], [trim] or [parseInt]; the parser is compared with
    it. *)

(** White space, by code unit: TAB, LF, VT, FF, CR, SP and NBSP. *)
Definition blank (c : ascii) : Prop :=
  nat_of_ascii c ∈ [9; 10; 11; 12; 13; 32; 160]%nat.

Definition blankText (s : string) : Prop := Forall blank (list_ascii_of_string s).

(** The decimal digits, in the order of their values. *)
Definition decimalDigits : list ascii :=
  ["0"; "1"; "2"; "3"; "4"; "5"; "6"; "7"; "8"; "9"]%char.

Fixpoint placeOf (c : ascii) (l : list ascii) : option Z :=
  match l with
  | [] => None
  | x :: r => if Ascii.eqb x c then Some 0 else Z.succ <$> placeOf c r
  end.

(** The value of a decimal digit: its place among the digits. *)
Definition digitOf (c : ascii) : option Z := placeOf c decimalDigits.

(** A numeral: one decimal digit or more. *)
Definition numeral (s : string) : Prop :=
  s <> "" /\ Forall (fun c => is_Some (digitOf c)) (list_ascii_of_string s).

(** The number a numeral denotes, its first digit weighing most. *)
Fixpoint numeralValue (s : string) : Z :=
  match s with
  | EmptyString => 0
  | String c r => default 0 (digitOf c) * 10 ^ Z.of_nat (String.length r) + numeralValue r
  end.

(** What follows a numeral does not go on with a digit. *)
Definition endsNumeral (rest : string) : Prop :=
  match rest with
  | EmptyString => True
  | String c _ => digitOf c = None
  end.

(** A text without dash reads as the integer [n]: after white space, if
    any, and a plus sign, if any, it starts with the numeral of [n];
    whatever follows the numeral is ignored. A text that does not start
    in this way reads as no integer. *)
Definition readsInteger (s : string) (n : Z) : Prop :=
  exists ws sign digits rest,
    s = (ws ++ sign ++ digits ++ rest)%string
    /\ blankText ws
    /\ (sign = "" \/ sign = "+")
    /\ numeral digits /\ endsNumeral rest
    /\ n = numeralValue digits.

(** Nothing, or a dash and what follows it. *)
Definition dashTail (rest : string) : Prop :=
  rest = "" \/ exists r, rest = String "-" r.

(** The two endpoints written in a piece, in the order written. The text
    before the first dash reads as [hi]. Without a dash, [lo] is [hi];
    otherwise [lo] is read from the text between the first dash and the
    second, and is [hi] again when that text is blank. Whatever follows a
    second dash is ignored. *)
Definition endpoints (piece : string) (hi lo : Z) : Prop :=
  exists a,
    hasChar "-" a = false /\ readsInteger a hi
    /\ (piece = a /\ lo = hi
        \/ exists b rest,
             hasChar "-" b = false /\ dashTail rest
             /\ piece = (a ++ "-" ++ b ++ rest)%string
             /\ (blankText b /\ lo = hi \/ readsInteger b lo)).

(** A piece that does not parse to two integers. *)
Definition unreadable (piece : string) : Prop :=
  forall hi lo, ~ endpoints piece hi lo.

(** The endpoints of the pieces that parse, piece by piece, the other
    pieces being passed over. *)
Inductive readings : list string -> list (Z * Z) -> Prop :=
| readings_nil : readings [] []
| readings_keep (p : string) (hi lo : Z) (ps : list string) (es : list (Z * Z)) :
    endpoints p hi lo -> readings ps es -> readings (p :: ps) ((hi, lo) :: es)
| readings_drop (p : string) (ps : list string) (es : list (Z * Z)) :
    unreadable p -> readings ps es -> readings (p :: ps) es.

(** The range between two endpoints. *)
Definition rangeBetween (e : Z * Z) : Segment :=
  mkSegment (Z.max e.1 e.2) (Z.min e.1 e.2).

(** Both endpoints are integers a Number holds exactly. *)
Definition safeEndpoints (e : Z * Z) : Prop :=
  JS.isSafeInteger e.1 = true /\ JS.isSafeInteger e.2 = true.

(** ** [parseInt], after the sign *)

(** The last step of [JS.parseInt], once white space and sign are passed:
    the longest digit prefix of [s], with the sign, or [NaN]. *)
Definition readFrom (sign : Z) (s : string) : option Z :=
  match JS.digitPrefix s with
  | [] => None
  | ds => Some (sign * JS.decimalValue ds)
  end.

(** ** Facts about the stable sort *)

Section SortFacts.
Context {A : Type} (cmp : A -> A -> Z).

Lemma insert_perm (x : A) (l : list A) : JS.insert cmp x l ≡ₚ x :: l.
Proof.
  induction l as [|y r IH]; simpl; [done|].
  destruct (cmp x y <=? 0); [done|].
  rewrite IH. apply Permutation_swap.
Qed.

Lemma sort_perm (l : list A) : JS.sort cmp l ≡ₚ l.
Proof.
  induction l as [|x r IH]; simpl; [done|].
  rewrite insert_perm. by rewrite IH.
Qed.

Lemma sort_length (l : list A) : length (JS.sort cmp l) = length l.
Proof. apply Permutation_length, sort_perm. Qed.

Lemma sort_elem_of (l : list A) (x : A) : x ∈ JS.sort cmp l ↔ x ∈ l.
Proof. by rewrite sort_perm. Qed.

Lemma insert_head_sorted (x : A) (l : list A) :
  Forall (before cmp x) l -> JS.insert cmp x l = x :: l.
Proof.
  destruct 1 as [|y r Hy _]; simpl; [done|].
  unfold before in Hy. by destruct (Z.leb_spec (cmp x y) 0); [|lia].
Qed.

(** An array already in order is left as it is. *)
Lemma sort_sorted_id (l : list A) :
  StronglySorted (before cmp) l -> JS.sort cmp l = l.
Proof.
  induction 1 as [|x r Hs IH Hx]; simpl; [done|].
  rewrite IH. by apply insert_head_sorted.
Qed.

Section Ordered.
Hypothesis cmp_total : forall x y, cmp x y <= 0 \/ cmp y x <= 0.
Hypothesis cmp_trans : forall x y z, cmp x y <= 0 -> cmp y z <= 0 -> cmp x z <= 0.

Lemma insert_sorted (x : A) (l : list A) :
  StronglySorted (before cmp) l -> StronglySorted (before cmp) (JS.insert cmp x l).
Proof.
  induction 1 as [|y r Hs IH Hy]; simpl.
  - repeat constructor.
  - destruct (Z.leb_spec (cmp x y) 0) as [Hle|Hgt].
    + constructor; [by constructor|].
      constructor; [done|].
      eapply Forall_impl; [exact Hy|]. intros z Hz. by eapply cmp_trans.
    + constructor; [done|].
      rewrite insert_perm. constructor; [|done].
      destruct (cmp_total x y); [lia|done].
Qed.

Lemma sort_sorted (l : list A) : StronglySorted (before cmp) (JS.sort cmp l).
Proof.
  induction l as [|x r IH]; simpl; [constructor|]. by apply insert_sorted.
Qed.

(** Stability: the entries that satisfy [P] come out as if they had
    been sorted alone. *)
Lemma filter_insert (P : A -> Prop) `{!forall x, Decision (P x)} (x : A) (l : list A) :
  StronglySorted (before cmp) l ->
  filter P (JS.insert cmp x l) =
  if decide (P x) then JS.insert cmp x (filter P l) else filter P l.
Proof.
  induction 1 as [|y r Hs IH Hy]; simpl.
  - rewrite filter_cons, filter_nil. by destruct (decide (P x)).
  - destruct (Z.leb_spec (cmp x y) 0) as [Hle|Hgt].
    + rewrite filter_cons. destruct (decide (P x)) as [Hx|Hx]; [|done].
      symmetry. apply insert_head_sorted.
      apply Forall_forall. intros z Hz.
      apply list_elem_of_filter in Hz as [_ Hz].
      apply elem_of_cons in Hz as [->|Hz]; [done|].
      rewrite Forall_forall in Hy. eapply cmp_trans; [exact Hle|]. by apply Hy.
    + rewrite !(filter_cons _ y), IH.
      destruct (decide (P y)) as [Py|Py]; [|done].
      destruct (decide (P x)) as [Px|Px]; [|done].
      simpl. by destruct (Z.leb_spec (cmp x y) 0); [lia|].
Qed.

Lemma filter_sort (P : A -> Prop) `{!forall x, Decision (P x)} (l : list A) :
  filter P (JS.sort cmp l) = JS.sort cmp (filter P l).
Proof.
  induction l as [|x r IH]; simpl; [done|].
  rewrite filter_insert by apply sort_sorted.
  rewrite filter_cons, IH. by destruct (decide (P x)).
Qed.
End Ordered.

(** A symmetric relation between all pairs survives the sort. *)
Lemma insert_pairs (R : A -> A -> Prop) (x : A) (l : list A) :
  (forall a b, R a b -> R b a) ->
  ForallOrdPairs R (x :: l) -> ForallOrdPairs R (JS.insert cmp x l).
Proof.
  intros Hsym. revert x. induction l as [|y r IH]; intros x H; simpl; [done|].
  destruct (cmp x y <=? 0); [done|].
  inversion H as [|? ? Hx Hrest]; subst.
  inversion Hrest as [|? ? Hy Hr]; subst.
  inversion Hx as [|? ? Hxy Hxr]; subst.
  constructor.
  - rewrite insert_perm. constructor; [by apply Hsym|done].
  - apply IH. by constructor.
Qed.

Lemma sort_pairs (R : A -> A -> Prop) (l : list A) :
  (forall a b, R a b -> R b a) ->
  ForallOrdPairs R l -> ForallOrdPairs R (JS.sort cmp l).
Proof.
  intros Hsym. induction 1 as [|x r Hx Hr IH]; simpl; [constructor|].
  apply insert_pairs; [done|]. constructor; [|done].
  by rewrite sort_perm.
Qed.
End SortFacts.

Lemma StronglySorted_weaken {A : Type} (R1 R2 : A -> A -> Prop) (l : list A) :
  (forall a b, R1 a b -> R2 a b) -> StronglySorted R1 l -> StronglySorted R2 l.
Proof.
  intros HR. induction 1 as [|x r Hs IH Hx]; constructor; [done|].
  eapply Forall_impl; [exact Hx|]. intros y. apply HR.
Qed.

(** ** MatchPatternParser *)

Lemma explode_chars (s : string) :
  JS.explode s = map (fun c => String c EmptyString) (list_ascii_of_string s).
Proof. induction s as [|c r IH]; simpl; [done|]. by rewrite IH. Qed.

Lemma explode_length (s : string) : length (JS.explode s) = String.length s.
Proof. induction s as [|c r IH]; simpl; [done|]. by rewrite IH. Qed.

Lemma join_explode (s : string) : JS.join (JS.explode s) = s.
Proof. induction s as [|c r IH]; simpl; [done|]. by rewrite IH. Qed.

(** C6: [parseMatchBits] answers the string exploded into one
    single-character symbol per position, in order, exactly when the string
    has 16 or 32 characters, and [null] for every other length; the empty
    string and a 33-character string are among the rejected ones. *)
Theorem parseMatchBits_width (s : string) :
  parseMatchBits s =
    (if bool_decide (String.length s = 16 \/ String.length s = 32)%nat
     then Some (map (fun c => String c EmptyString) (list_ascii_of_string s))
     else None)
  /\ parseMatchBits "" = None
  /\ parseMatchBits "0000000----------000------0110011" = None.
Proof.
  split; [|done].
  unfold parseMatchBits. rewrite <- explode_chars.
  destruct (String.eqb_spec s "") as [->|Hne]; [done|].
  destruct (Nat.eqb_spec (String.length s) 32) as [H32|H32];
    destruct (Nat.eqb_spec (String.length s) 16) as [H16|H16]; simpl;
    case_bool_decide; try done; lia.
Qed.

(** The sample pattern of the design document has 32 characters and is
    accepted. *)
Lemma parseMatchBits_sample_pattern :
  String.length "0000000----------000-----0110011" = 32%nat
  /\ parseMatchBits "0000000----------000-----0110011"
     = Some (JS.explode "0000000----------000-----0110011").
Proof. done. Qed.

(** ** FormatClassifier *)

(** The location strings the helper [eq] builds. *)
Lemma span_strings :
  (JS.numberToString (num 11) ++ "-" ++ JS.numberToString (num 7))%string = "11-7"
  /\ (JS.numberToString (num 19) ++ "-" ++ JS.numberToString (num 15))%string = "19-15"
  /\ (JS.numberToString (num 24) ++ "-" ++ JS.numberToString (num 20))%string = "24-20"
  /\ (JS.numberToString (num 31) ++ "-" ++ JS.numberToString (num 12))%string = "31-12".
Proof. done. Qed.

Lemma classify_firstMatch (vars : gmap string string) :
  classify vars = firstMatch classifierOrder vars.
Proof.
  unfold classify. cbv zeta.
  destruct span_strings as (-> & -> & -> & ->).
  reflexivity.
Qed.

Lemma firstMatch_never_B (vars : gmap string string) :
  firstMatch classifierOrder vars <> Some "B".
Proof.
  simpl. unfold predicateB.
  destruct (predicateI vars); [done|].
  destruct (predicateR vars); [done|].
  unfold predicateS.
  destruct (located vars "xs2" "24-20" && located vars "xs1" "19-15" && located vars "imm" "11-7");
    [done|].
  destruct (predicateU vars); [done|].
  by destruct (predicateJ vars).
Qed.

Lemma firstMatch_B_holds (vars : gmap string string) :
  predicateB vars = true ->
  firstMatch classifierOrder vars = Some (if predicateR vars then "R" else "S").
Proof.
  intros HB. simpl.
  assert (predicateI vars = false) as ->.
  { unfold predicateB, predicateI, located in *.
    repeat case_bool_decide; simpl in *; try done; congruence. }
  destruct (predicateR vars); [done|].
  unfold predicateS. unfold predicateB in HB. by rewrite HB.
Qed.

(** C3, as the code has it: [detectEncodingType] answers the tag of the
    first predicate that holds in the order I, R, S, U, J, B, and never "B";
    when the B predicate holds (xs2 at "24-20", xs1 at "19-15", imm at
    "11-7") the answer is "S", unless xd is also declared at "11-7", in
    which case the R predicate, tried before S, holds and the answer is
    "R". *)
Theorem detectEncodingType_B_unreachable (doc : Doc) :
  detectEncodingType doc <> Some "B"
  /\ forall variables, docVariables doc = Some variables ->
       detectEncodingType doc = firstMatch classifierOrder (varsOf variables)
       /\ (predicateB (varsOf variables) = true ->
           detectEncodingType doc =
             Some (if predicateR (varsOf variables) then "R" else "S")).
Proof.
  unfold detectEncodingType. split.
  - destruct (docVariables doc); [|done].
    rewrite classify_firstMatch. apply firstMatch_never_B.
  - intros variables ->. rewrite classify_firstMatch. split; [done|].
    apply firstMatch_B_holds.
Qed.

Lemma detectEncodingType_B_unreachable_witness :
  docVariables storeDoc = Some storeVariables
  /\ predicateB (varsOf storeVariables) = true
  /\ detectEncodingType storeDoc = Some "S".
Proof.
  split; [reflexivity|]. split; [vm_compute; reflexivity|].
  apply (proj2 (detectEncodingType_B_unreachable storeDoc) storeVariables).
  - reflexivity.
  - vm_compute. reflexivity.
Defined.

(** Without that exception the statement fails: on a record where the B
    predicate holds and xd sits at "11-7" the answer is "R", not "S". *)
Lemma detectEncodingType_B_predicate_not_S :
  ~ (predicateB (varsOf clashVariables) = true ->
     detectEncodingType clashDoc = Some "S").
Proof.
  intros H.
  assert (detectEncodingType clashDoc = Some "R") as HR by (vm_compute; reflexivity).
  rewrite H in HR; [discriminate|]. vm_compute. reflexivity.
Qed.

(** ** BitLocationParser *)

Lemma cmpSegment_before (a b : Segment) :
  before cmpSegment a b <-> segmentOrder a b.
Proof.
  unfold before, cmpSegment, segmentOrder.
  destruct (Z.eqb_spec (seg_from b - seg_from a) 0); lia.
Qed.

Lemma cmpSegment_total (a b : Segment) : cmpSegment a b <= 0 \/ cmpSegment b a <= 0.
Proof.
  unfold cmpSegment.
  destruct (Z.eqb_spec (seg_from b - seg_from a) 0);
    destruct (Z.eqb_spec (seg_from a - seg_from b) 0); lia.
Qed.

Lemma cmpSegment_trans (a b c : Segment) :
  cmpSegment a b <= 0 -> cmpSegment b c <= 0 -> cmpSegment a c <= 0.
Proof.
  unfold cmpSegment.
  destruct (Z.eqb_spec (seg_from b - seg_from a) 0);
    destruct (Z.eqb_spec (seg_from c - seg_from b) 0);
    destruct (Z.eqb_spec (seg_from c - seg_from a) 0); lia.
Qed.

Lemma parsePiece_ordered (part : string) (r : Segment) :
  parsePiece part = Some r -> seg_to r <= seg_from r.
Proof.
  unfold parsePiece. destruct (pieceEndpoints part) as [[h l]|]; simpl; [|done].
  intros [= <-]. simpl. lia.
Qed.

Lemma parseLocationSegments_pieces (loc : Location) :
  parseLocationSegments loc = JS.sort cmpSegment (omap parsePiece (piecesOf loc)).
Proof. by destruct loc. Qed.

(** Splitting what [join] glued gives the pieces back. *)
Lemma split_no_separator (c : ascii) (p : string) :
  hasChar c p = false -> JS.split c p = [p].
Proof.
  induction p as [|a p IH]; simpl; [done|].
  destruct (Ascii.eqb a c); simpl; [done|].
  intros H. by rewrite IH.
Qed.

Lemma split_append (c : ascii) (p rest : string) :
  hasChar c p = false ->
  JS.split c (p ++ String c rest) = p :: JS.split c rest.
Proof.
  induction p as [|a p IH]; simpl.
  - by rewrite Ascii.eqb_refl.
  - destruct (Ascii.eqb a c); simpl; [done|].
    intros H. by rewrite IH.
Qed.

Lemma split_joinWith (c : ascii) (parts : list string) :
  parts <> [] -> Forall (fun p => hasChar c p = false) parts ->
  JS.split c (joinWith (String c EmptyString) parts) = parts.
Proof.
  intros Hne Hall. induction Hall as [|p rest Hp Hrest IH]; [done|].
  destruct rest as [|q rest].
  - simpl. by apply split_no_separator.
  - change (joinWith (String c "") (p :: q :: rest))
      with (p ++ String c (joinWith (String c "") (q :: rest)))%string.
    rewrite split_append by done. by rewrite IH.
Qed.

Lemma parsePiece_empty : parsePiece "" = None.
Proof. done. Qed.

Lemma omap_parsePiece_nonempty (parts : list string) :
  omap parsePiece (filter (fun part => part <> "") (map JS.trim parts))
  = omap (fun p => parsePiece (JS.trim p)) parts.
Proof.
  induction parts as [|p parts IH]; [done|].
  change (map JS.trim (p :: parts)) with (JS.trim p :: map JS.trim parts).
  rewrite filter_cons. destruct (decide (JS.trim p <> "")) as [Hp|Hp]; csimpl.
  - by rewrite IH.
  - apply dec_stable in Hp. by rewrite Hp, parsePiece_empty.
Qed.

(** ** FieldResolver: the scan for constant runs *)

Lemma scanRun_spec (m : list string) (fuel : nat) (bit : Z) :
  -1 <= bit -> (Z.to_nat (bit + 1) < fuel)%nat ->
  exists b', scanRun fuel m bit = Some b'
    /\ -1 <= b' <= bit
    /\ (forall b, b' < b <= bit -> isDontCare (symbolAt m b) = false)
    /\ (b' = -1 \/ isDontCare (symbolAt m b') = true).
Proof.
  revert bit. induction fuel as [|k IH]; intros bit Hlo Hfuel; [lia|].
  simpl. destruct (Z.leb_spec 0 bit) as [Hge|Hlt]; simpl.
  - destruct (isDontCare (symbolAt m bit)) eqn:Hdc; simpl.
    + exists bit. repeat split; try lia. by right.
    + destruct (IH (bit - 1)) as (b' & Hrun & Hb & Hall & Hstop); [lia|lia|].
      exists b'. rewrite Hrun. repeat split; try lia; [|done].
      intros b Hb'. destruct (decide (b = bit)) as [->|Hne]; [done|].
      apply Hall. lia.
  - exists bit. repeat split; try lia; left; lia.
Qed.

Lemma constLoop_S (m : list string) (k : nat) (bit : Z) (fields : list Field) :
  constLoop (S k) m bit fields =
    if 0 <=? bit then
      match scanRun (S (Z.to_nat (bit + 1))) m bit with
      | None => None
      | Some bit' =>
          if bit - (bit' + 1) + 1 <=? 0 then constLoop k m (bit' - 1) fields
          else constLoop k m bit' (fields ++ [constField m bit (bit' + 1)])%list
      end
    else Some fields.
Proof. done. Qed.

(** What the loop pushes does not depend on what the array already holds. *)
Lemma constLoop_acc (m : list string) (fuel : nat) (bit : Z) (acc0 r : list Field) :
  constLoop fuel m bit acc0 = Some r ->
  exists new, r = (acc0 ++ new)%list
    /\ forall acc, constLoop fuel m bit acc = Some (acc ++ new)%list.
Proof.
  revert bit acc0 r. induction fuel as [|k IH]; intros bit acc0 r; [done|].
  rewrite constLoop_S. setoid_rewrite constLoop_S. destruct (0 <=? bit).
  - destruct (scanRun (S (Z.to_nat (bit + 1))) m bit) as [b'|]; [|done].
    destruct (bit - (b' + 1) + 1 <=? 0).
    + apply IH.
    + intros H. apply IH in H as (new & -> & Hnew).
      exists (constField m bit (b' + 1) :: new). split.
      * by rewrite <- app_assoc.
      * intros acc. rewrite Hnew. by rewrite <- app_assoc.
  - intros [= <-]. exists []. split; [by rewrite app_nil_r|].
    intros acc. by rewrite app_nil_r.
Qed.

Lemma constLoop_fuel_mono (m : list string) (fuel fuel' : nat) (bit : Z) (acc r : list Field) :
  (fuel <= fuel')%nat ->
  constLoop fuel m bit acc = Some r -> constLoop fuel' m bit acc = Some r.
Proof.
  revert fuel' bit acc. induction fuel as [|k IH]; intros fuel' bit acc Hle; [done|].
  destruct fuel' as [|k']; [lia|]. rewrite !constLoop_S.
  destruct (0 <=? bit); [|done].
  destruct (scanRun (S (Z.to_nat (bit + 1))) m bit) as [b'|]; [|done].
  destruct (bit - (b' + 1) + 1 <=? 0); apply IH; lia.
Qed.

Lemma constLoop_runs (m : list string) (fuel : nat) (bit : Z) :
  -1 <= bit < Z.of_nat (length m) -> (Z.to_nat (bit + 1) < fuel)%nat ->
  runBoundary m bit ->
  exists new, constLoop fuel m bit [] = Some new
    /\ (forall f, f ∈ new <->
          exists hi lo, maximalRun m hi lo /\ hi <= bit /\ f = constField m hi lo)
    /\ StronglySorted below new.
Proof.
  revert bit. induction fuel as [|k IH]; intros bit Hbit Hfuel Hbd; [lia|].
  rewrite constLoop_S. destruct (Z.leb_spec 0 bit) as [Hge|Hlt].
  - destruct (scanRun_spec m (S (Z.to_nat (bit + 1))) bit)
      as (b' & -> & Hb' & Hall & Hstop); [lia|lia|].
    destruct (Z.leb_spec (bit - (b' + 1) + 1) 0) as [Hw|Hw].
    + (* [bit] is a don't-care position *)
      assert (b' = bit) as -> by lia.
      assert (isDontCare (symbolAt m bit) = true) as Hdc by (destruct Hstop; [lia|done]).
      destruct (IH (bit - 1)) as (new & Hrun & Hin & Hsorted); [lia|lia| |].
      { right. left. by replace (bit - 1 + 1) with bit by lia. }
      exists new. split; [done|]. split; [|done].
      intros f. rewrite Hin. split.
      * intros (hi & lo & Hmax & Hhi & ->). exists hi, lo. split; [done|]. split; [lia|done].
      * intros (hi & lo & Hmax & Hhi & ->). exists hi, lo. split; [done|]. split; [|done].
        destruct (decide (hi = bit)) as [->|]; [|lia].
        destruct Hmax as (? & ? & Hfix & _). rewrite Hfix in Hdc by lia. done.
    + (* a run [b'+1 .. bit] *)
      destruct (IH b') as (new & Hrun & Hin & Hsorted); [lia|lia| |].
      { destruct Hstop as [->|Hdc]; [by do 3 right|]. by do 2 right; left. }
      apply constLoop_acc in Hrun as (new' & Hnew' & Hacc). simpl in Hnew'. subst new'.
      exists (constField m bit (b' + 1) :: new). split; [by rewrite app_nil_l, (Hacc [_])|].
      assert (maximalRun m bit (b' + 1)) as Hthis.
      { split; [lia|]. split; [lia|]. split; [|split].
        - intros b Hb. apply Hall. lia.
        - destruct Hbd as [Hbd|[Hbd|[Hbd|Hbd]]]; [by left|by right| |lia].
          rewrite Hall in Hbd by lia. done.
        - destruct Hstop as [->|Hdc]; [by left|].
          right. by replace (b' + 1 - 1) with b' by lia. }
      split.
      * intros f. rewrite elem_of_cons, Hin. split.
        -- intros [->|(hi & lo & Hmax & Hhi & ->)].
           ++ exists bit, (b' + 1). split; [done|]. split; [lia|done].
           ++ exists hi, lo. split; [done|]. split; [lia|done].
        -- intros (hi & lo & Hmax & Hhi & ->).
           destruct (decide (hi <= b')) as [Hle|Hgt].
           { right. by exists hi, lo. }
           left. destruct Hmax as (Hlohi & Hlen & Hfix & Htop & Hbot).
           assert (hi = bit) as ->.
           { destruct Htop as [Htop|Htop]; [lia|].
             destruct (decide (hi = bit)) as [|Hne]; [done|].
             rewrite Hall in Htop by lia. done. }
           assert (lo = b' + 1) as ->; [|done].
           assert (b' < lo).
           { destruct (decide (b' < lo)) as [|Hnlt]; [done|].
             destruct Hstop as [->|Hdc]; [lia|].
             rewrite Hfix in Hdc by lia. done. }
           destruct Hbot as [Hbot|Hbot]; [lia|].
           destruct (decide (lo = b' + 1)) as [|Hne]; [done|].
           rewrite Hall in Hbot by lia. done.
      * constructor; [done|].
        apply Forall_forall. intros f Hf. apply Hin in Hf as (hi & lo & _ & Hhi & ->).
        unfold below. simpl. lia.
  - exists []. split; [done|]. split; [|constructor].
    intros f. split; [by intros ?%elem_of_nil|].
    intros (hi & lo & Hmax & Hhi & _). destruct Hmax as (? & _). lia.
Qed.

(** The scan of a whole pattern ends within [length + 1] turns and pushes
    [constRuns] behind what the array holds. *)
Lemma pushConstFields_runs (m : list string) (fields : list Field) (fuel : nat) :
  (S (length m) <= fuel)%nat ->
  constLoop fuel m (Z.of_nat (length m) - 1) fields = Some (fields ++ constRuns m)%list
  /\ pushConstFields m fields = (fields ++ constRuns m)%list.
Proof.
  intros Hfuel.
  destruct (constLoop_runs m (S (length m)) (Z.of_nat (length m) - 1))
    as (new & Hrun & _); [lia|lia|by left|].
  assert (constRuns m = new) as ->.
  { unfold constRuns, pushConstFields. by rewrite Hrun. }
  apply constLoop_acc in Hrun as (new' & Hnew' & Hacc). simpl in Hnew'. subst new'.
  split.
  - eapply constLoop_fuel_mono; [exact Hfuel|]. apply Hacc.
  - unfold pushConstFields. by rewrite Hacc.
Qed.

Lemma constRuns_spec (m : list string) :
  (forall f, f ∈ constRuns m <-> exists hi lo, maximalRun m hi lo /\ f = constField m hi lo)
  /\ StronglySorted below (constRuns m).
Proof.
  destruct (constLoop_runs m (S (length m)) (Z.of_nat (length m) - 1))
    as (new & Hrun & Hin & Hsorted); [lia|lia|by left|].
  assert (constRuns m = new) as ->.
  { unfold constRuns, pushConstFields. by rewrite Hrun. }
  split; [|done]. intros f. rewrite Hin. split.
  - intros (hi & lo & Hmax & _ & ->). by exists hi, lo.
  - intros (hi & lo & Hmax & ->). exists hi, lo. split; [done|]. split; [|done].
    destruct Hmax as (? & ? & _). lia.
Qed.

(** ** FieldResolver: [computeFields] *)

Lemma cmpField_total (a b : Field) : cmpField a b <= 0 \/ cmpField b a <= 0.
Proof. unfold cmpField. lia. Qed.

Lemma cmpField_trans (a b c : Field) :
  cmpField a b <= 0 -> cmpField b c <= 0 -> cmpField a c <= 0.
Proof. unfold cmpField. lia. Qed.

Lemma filter_all {A : Type} (P : A -> Prop) `{!forall x, Decision (P x)} (l : list A) :
  Forall P l -> filter P l = l.
Proof.
  induction 1 as [|x r Hx _ IH]; [done|]. by rewrite filter_cons_True, IH.
Qed.

Lemma filter_none {A : Type} (P : A -> Prop) `{!forall x, Decision (P x)} (l : list A) :
  Forall (fun x => ~ P x) l -> filter P l = [].
Proof.
  induction 1 as [|x r Hx _ IH]; [done|]. by rewrite filter_cons_False, IH.
Qed.

Lemma constLabel_role (hi lo : Z) (bits : string) :
  constLabel hi lo bits = (role hi lo ++ "=" ++ bits)%string.
Proof.
  unfold constLabel, role.
  destruct (Z.eqb_spec hi 31), (Z.eqb_spec lo 25); simpl;
    repeat case_decide; try lia; try done;
    destruct (Z.eqb_spec hi 14), (Z.eqb_spec lo 12); simpl; try lia; try done;
    destruct (Z.eqb_spec hi 6), (Z.eqb_spec lo 0); simpl; try lia; done.
Qed.

Lemma runSymbols_lookup (m : list string) (hi lo : Z) :
  0 <= lo <= hi -> hi < Z.of_nat (length m) ->
  length (runSymbols m hi lo) = Z.to_nat (hi - lo + 1)
  /\ forall i : nat, Z.of_nat i <= hi - lo ->
       runSymbols m hi lo !! i = symbolAt m (hi - Z.of_nat i).
Proof.
  intros Hlohi Hlen. unfold runSymbols, JS.slice, symbolAt, JS.index.
  set (len := Z.of_nat (length m)) in *.
  destruct (Z.ltb_spec (len - 1 - hi) 0); [lia|].
  destruct (Z.ltb_spec (len - lo) 0); [lia|].
  rewrite !Z.min_l by lia.
  replace (len - lo - (len - 1 - hi)) with (hi - lo + 1) by lia.
  split.
  - rewrite length_take, length_drop. lia.
  - intros i Hi. destruct (Z.ltb_spec (len - 1 - (hi - Z.of_nat i)) 0); [lia|].
    rewrite lookup_take_lt by lia. rewrite lookup_drop. f_equal. lia.
Qed.

Lemma varField_kind (v : VariableSpec) (f : Field) : varField v = Some f -> isVar f.
Proof.
  unfold varField. destruct (parseLocationSegments (location v)); [done|].
  by intros [= <-].
Qed.

Lemma varFields_isVar (vars : list VariableSpec) : Forall isVar (omap varField vars).
Proof.
  apply Forall_forall. intros f (v & _ & Hv)%list_elem_of_omap. by eapply varField_kind.
Qed.

Lemma constRuns_isConst (m : list string) : Forall isConst (constRuns m).
Proof.
  apply Forall_forall. intros f Hf.
  apply (proj1 (constRuns_spec m)) in Hf as (hi & lo & _ & ->). done.
Qed.

Lemma below_ordered (l : list Field) :
  StronglySorted below l -> Forall (fun f => to f <= from f) l ->
  StronglySorted (before cmpField) l.
Proof.
  induction 1 as [|x r Hs IH Hx]; intros Hwf; constructor.
  - apply IH. by inversion Hwf.
  - inversion Hwf as [|? ? Hxw Hrw]; subst.
    rewrite Forall_forall in Hx, Hrw. apply Forall_forall. intros y Hy.
    specialize (Hx y Hy). specialize (Hrw y Hy).
    unfold below in Hx. unfold before, cmpField. lia.
Qed.

Lemma constRuns_ordered (m : list string) : StronglySorted (before cmpField) (constRuns m).
Proof.
  destruct (constRuns_spec m) as [Hin Hsorted].
  apply below_ordered; [done|].
  apply Forall_forall. intros f (hi & lo & Hmax & ->)%Hin.
  destruct Hmax as (? & _). simpl. lia.
Qed.

Lemma computeFields_parts (doc : Doc) (e : Encoding) :
  encoding doc = Some e ->
  computeFields doc =
    JS.sort cmpField
      (omap varField (resolvedVariables e) ++ patternFields (resolvedPattern e))%list.
Proof.
  intros He. unfold computeFields, resolvedVariables, resolvedPattern. rewrite He.
  destruct (parseMatchBits _) as [m|]; simpl.
  - by rewrite (proj2 (pushConstFields_runs m _ _ (le_n _))).
  - by rewrite app_nil_r.
Qed.

Lemma computeFields_consts (doc : Doc) (e : Encoding) :
  encoding doc = Some e ->
  filter isConst (computeFields doc) = patternFields (resolvedPattern e).
Proof.
  intros He. rewrite (computeFields_parts doc e He).
  rewrite filter_sort by (apply cmpField_total || apply cmpField_trans).
  rewrite filter_app, filter_none.
  - destruct (resolvedPattern e) as [m|]; simpl; [|done].
    rewrite filter_all by apply constRuns_isConst.
    apply sort_sorted_id, constRuns_ordered.
  - eapply Forall_impl; [apply varFields_isVar|].
    unfold isVar, isConst. intros f ->. done.
Qed.

Lemma computeFields_vars (doc : Doc) (e : Encoding) :
  encoding doc = Some e ->
  filter isVar (computeFields doc) = JS.sort cmpField (omap varField (resolvedVariables e)).
Proof.
  intros He. rewrite (computeFields_parts doc e He).
  rewrite filter_sort by (apply cmpField_total || apply cmpField_trans).
  rewrite filter_app, filter_all by apply varFields_isVar.
  rewrite filter_none, app_nil_r; [done|].
  destruct (resolvedPattern e) as [m|]; simpl; [|constructor].
  eapply Forall_impl; [apply constRuns_isConst|].
  unfold isVar, isConst. intros f ->. done.
Qed.

Lemma below_NoDup (l : list Field) :
  StronglySorted below l -> Forall (fun f => to f <= from f) l -> NoDup l.
Proof.
  induction 1 as [|x r Hs IH Hx]; intros Hwf; constructor.
  - inversion Hwf as [|? ? Hxw _]; subst. intros Hin.
    rewrite Forall_forall in Hx. specialize (Hx x Hin). unfold below in Hx. lia.
  - apply IH. by inversion Hwf.
Qed.

(** C7: from a parsed match pattern [computeFields] makes one "const"
    field per maximal run of symbols other than "-", and no other: the
    field spans the run's [hi..lo] with width [hi - lo + 1] (at least 1, so
    no empty run gives a field), and is labelled role=bits, where bits are
    the run's symbols from [hi] down to [lo] and the role is funct7 exactly
    for the span [31,25], funct3 for [14,12], opcode for [6,0] and const
    for any other span. The scan ends within [match.length + 1] turns. *)
Theorem computeFields_constant_runs (doc : Doc) (e : Encoding) (m : list string) :
  encoding doc = Some e ->
  resolvedPattern e = Some m ->
  let consts := filter isConst (computeFields doc) in
  (forall f, f ∈ consts <-> exists hi lo, maximalRun m hi lo /\ f = constField m hi lo)
  /\ StronglySorted below consts /\ NoDup consts
  /\ (forall hi lo, maximalRun m hi lo ->
        let f := constField m hi lo in
        from f = hi /\ to f = lo /\ width f = hi - lo + 1 /\ 0 < width f
        /\ kind f = "const"
        /\ label f = (role hi lo ++ "=" ++ JS.join (runSymbols m hi lo))%string
        /\ length (runSymbols m hi lo) = Z.to_nat (hi - lo + 1)
        /\ forall i : nat, Z.of_nat i <= hi - lo ->
             runSymbols m hi lo !! i = symbolAt m (hi - Z.of_nat i))
  /\ (forall fuel fields, (S (length m) <= fuel)%nat ->
        constLoop fuel m (Z.of_nat (length m) - 1) fields
          = Some (fields ++ consts)%list).
Proof.
  intros He Hm consts. subst consts.
  rewrite (computeFields_consts doc e He), Hm. simpl.
  destruct (constRuns_spec m) as [Hin Hsorted].
  split; [done|]. split; [done|]. split.
  { apply below_NoDup; [done|].
    apply Forall_forall. intros f (hi & lo & Hmax & ->)%Hin.
    destruct Hmax as (? & _). simpl. lia. }
  split.
  - intros hi lo (Hlohi & Hlen & _). cbv zeta. simpl.
    destruct (runSymbols_lookup m hi lo Hlohi Hlen) as [Hl Hi].
    repeat split; try done; try lia.
    apply constLabel_role.
  - intros fuel fields Hfuel. by apply pushConstFields_runs.
Qed.

Lemma computeFields_constant_runs_witness :
  encoding addDoc = Some (Flat (mkEnc (Some "0000000----------000-----0110011")
      (Some [mkVariable "xs2" (LString "24-20"); mkVariable "xs1" (LString "19-15");
             mkVariable "xd" (LString "11-7")])))
  /\ label <$> filter isConst (computeFields addDoc)
     = ["funct7=0000000"; "funct3=000"; "opcode=0110011"]
  /\ StronglySorted below (filter isConst (computeFields addDoc)).
Proof.
  split; [reflexivity|]. split; [vm_compute; reflexivity|].
  eapply (computeFields_constant_runs addDoc); [reflexivity|vm_compute; reflexivity].
Defined.

Lemma maxOf_spec (x : Z) (xs : list Z) :
  JS.maxOf x xs ∈ x :: xs /\ Forall (fun y => y <= JS.maxOf x xs) (x :: xs).
Proof.
  unfold JS.maxOf. revert x. induction xs as [|y r IH]; intros x; simpl.
  - split; [apply list_elem_of_here|]. repeat constructor. lia.
  - destruct (IH (Z.max x y)) as [Hin Hall]. split.
    + apply elem_of_cons in Hin as [Heq|Hin].
      * rewrite Heq. destruct (Z.max_spec x y) as [[_ ->]|[_ ->]];
          [apply list_elem_of_further|]; apply list_elem_of_here.
      * by do 2 apply list_elem_of_further.
    + inversion Hall as [|? ? Hm Hr]; subst.
      constructor; [lia|]. constructor; [lia|done].
Qed.

Lemma minOf_spec (x : Z) (xs : list Z) :
  JS.minOf x xs ∈ x :: xs /\ Forall (fun y => JS.minOf x xs <= y) (x :: xs).
Proof.
  unfold JS.minOf. revert x. induction xs as [|y r IH]; intros x; simpl.
  - split; [apply list_elem_of_here|]. repeat constructor. lia.
  - destruct (IH (Z.min x y)) as [Hin Hall]. split.
    + apply elem_of_cons in Hin as [Heq|Hin].
      * rewrite Heq. destruct (Z.min_spec x y) as [[_ ->]|[_ ->]];
          [|apply list_elem_of_further]; apply list_elem_of_here.
      * by do 2 apply list_elem_of_further.
    + inversion Hall as [|? ? Hm Hr]; subst.
      constructor; [lia|]. constructor; [lia|done].
Qed.

Lemma map_fmap {A B : Type} (f : A -> B) (l : list A) : map f l = f <$> l.
Proof. induction l as [|x r IH]; simpl; [done|]. by rewrite IH. Qed.

Lemma fold_left_widths (segs : list Segment) (a : Z) :
  fold_left (fun sum s => sum + (seg_from s - seg_to s + 1)) segs a
  = a + sumZ (segmentWidth <$> segs).
Proof.
  revert a. induction segs as [|s r IH]; intros a.
  - unfold sumZ. simpl. lia.
  - cbn [fold_left]. rewrite IH, fmap_cons. unfold sumZ, segmentWidth at 2.
    cbn [foldr]. lia.
Qed.

Lemma maxOf_segments (s : Segment) (rest : list Segment) :
  JS.maxOf (seg_from s) (map seg_from rest) ∈ seg_from <$> (s :: rest)
  /\ Forall (fun s0 => seg_from s0 <= JS.maxOf (seg_from s) (map seg_from rest)) (s :: rest).
Proof.
  destruct (maxOf_spec (seg_from s) (map seg_from rest)) as [Hin Hall].
  rewrite map_fmap in Hin, Hall. rewrite map_fmap. split; [done|].
  apply Forall_forall. intros s0 Hs0. rewrite Forall_forall in Hall. apply Hall.
  by apply (list_elem_of_fmap_2 seg_from (s :: rest)).
Qed.

Lemma minOf_segments (s : Segment) (rest : list Segment) :
  JS.minOf (seg_to s) (map seg_to rest) ∈ seg_to <$> (s :: rest)
  /\ Forall (fun s0 => JS.minOf (seg_to s) (map seg_to rest) <= seg_to s0) (s :: rest).
Proof.
  destruct (minOf_spec (seg_to s) (map seg_to rest)) as [Hin Hall].
  rewrite map_fmap in Hin, Hall. rewrite map_fmap. split; [done|].
  apply Forall_forall. intros s0 Hs0. rewrite Forall_forall in Hall. apply Hall.
  by apply (list_elem_of_fmap_2 seg_to (s :: rest)).
Qed.

(** C8: a variable whose location parses to no range gives no field;
    any other variable gives exactly one "var" field, named after it,
    whose [from] is the largest [from] and whose [to] is the smallest [to]
    among the parsed ranges, whose width is the sum of the widths of the
    ranges (for "31-25|11-7": 12, where [from - to + 1] is 25), and which
    carries all the parsed ranges as its segments. The "var" fields of
    [computeFields] are these, ordered by descending [from]. *)
Theorem computeFields_variable_fields (doc : Doc) (e : Encoding) :
  encoding doc = Some e ->
  filter isVar (computeFields doc)
    = JS.sort cmpField (omap varField (resolvedVariables e))
  /\ (forall v, parseLocationSegments (location v) = [] -> varField v = None)
  /\ (forall v, parseLocationSegments (location v) <> [] ->
        let segs := parseLocationSegments (location v) in
        exists f, varField v = Some f
          /\ label f = name v /\ kind f = "var" /\ segments f = Some segs
          /\ from f ∈ seg_from <$> segs /\ Forall (fun s => seg_from s <= from f) segs
          /\ to f ∈ seg_to <$> segs /\ Forall (fun s => to f <= seg_to s) segs
          /\ width f = sumZ (segmentWidth <$> segs))
  /\ (width <$> varField (mkVariable "imm" (LString "31-25|11-7")) = Some 12
      /\ (fun f => from f - to f + 1) <$> varField (mkVariable "imm" (LString "31-25|11-7"))
         = Some 25).
Proof.
  intros He. split; [by apply computeFields_vars|]. split; [|split; [|done]].
  - intros v Hv. unfold varField. by rewrite Hv.
  - intros v Hne segs. subst segs. unfold varField.
    destruct (parseLocationSegments (location v)) as [|s rest]; [done|].
    eexists. split; [done|]. cbn [label kind segments from to width].
    destruct (maxOf_segments s rest) as [Hmax1 Hmax2].
    destruct (minOf_segments s rest) as [Hmin1 Hmin2].
    repeat split; try done.
    rewrite fold_left_widths. lia.
Qed.

Lemma computeFields_variable_fields_witness :
  encoding storeDoc = Some (Flat (mkEnc (Some "-----------------010-----0100011")
                                        (Some storeVariables)))
  /\ label <$> filter isVar (computeFields storeDoc) = ["xs2"; "xs1"; "imm"].
Proof.
  split; [reflexivity|].
  rewrite (proj1 (computeFields_variable_fields storeDoc _ eq_refl)).
  vm_compute. reflexivity.
Defined.

(** ** BitfieldLayoutBuilder *)

Lemma expandFields_wellSized (fields : list Field) : Forall wellSized (expandFields fields).
Proof.
  apply Forall_forall. intros f Hf. unfold expandFields in Hf.
  apply list_elem_of_In, in_flat_map in Hf as (field & _ & Hf).
  apply list_elem_of_In in Hf. unfold expandField in Hf.
  apply list_elem_of_omap in Hf as (seg & _ & Hseg).
  destruct (Z.leb_spec (seg_from seg - seg_to seg + 1) 0); [done|].
  injection Hseg as <-. split; simpl; [done|lia].
Qed.

Lemma fillStep_wellSized (l : list Field) (filled : list Field) (nextBit : Z) :
  Forall wellSized filled -> Forall wellSized l ->
  Forall wellSized (fold_left fillStep l (filled, nextBit)).1.
Proof.
  revert filled nextBit. induction l as [|seg r IH]; intros filled nextBit Hf Hl; [done|].
  inversion Hl as [|? ? Hseg Hr]; subst. cbn [fold_left]. unfold fillStep at 2.
  apply IH; [|done].
  apply Forall_app. split; [|by constructor].
  destruct (Z.ltb_spec (from seg) nextBit); [|done].
  apply Forall_app. split; [done|]. constructor; [|done].
  split; simpl; lia.
Qed.

Lemma standardizeBitfieldFields_wellSized (fields : list Field) (W : Z) :
  Forall wellSized (standardizeBitfieldFields fields W).
Proof.
  unfold standardizeBitfieldFields.
  pose proof (fillStep_wellSized (JS.sort cmpField (expandFields fields)) [] (W - 1)) as H.
  destruct (fold_left fillStep _ _) as [filled nextBit]. simpl in H.
  rewrite sort_perm.
  assert (Forall wellSized filled) as Hfilled.
  { apply H; [constructor|]. rewrite sort_perm. apply expandFields_wellSized. }
  destruct (Z.leb_spec 0 nextBit); [|done].
  apply Forall_app. split; [done|]. constructor; [|done]. split; simpl; lia.
Qed.

(** C10: whatever the field list and the width, overlapping segments
    included, [standardizeBitfieldFields] returns a list in which every
    entry, gaps included, has a positive width equal to the size of its
    range; where a segment starts at or above the cursor no gap is
    inserted before it, as on two fields that both cover bits 31..0. *)
Theorem standardizeBitfieldFields_positive_widths (fields : list Field) (W : Z) :
  Forall wellSized (standardizeBitfieldFields fields W)
  /\ (forall filled nextBit seg, nextBit <= from seg ->
        fillStep (filled, nextBit) seg = ((filled ++ [seg])%list, to seg - 1))
  /\ (fun f => (label f, from f, to f)) <$> standardizeBitfieldFields overlapFields 32
     = [("a", 31, 0); ("b", 31, 0)].
Proof.
  split; [apply standardizeBitfieldFields_wellSized|]. split; [|done].
  intros filled nextBit seg Hle. unfold fillStep.
  by destruct (Z.ltb_spec (from seg) nextBit); [lia|].
Qed.

(** *** Chains *)

Lemma chain_app (hi mid lo : Z) (l1 l2 : list Field) :
  chain hi l1 mid -> chain (mid - 1) l2 lo -> chain hi (l1 ++ l2) lo.
Proof.
  induction 1 as [hi mid Hhi|hi mid f r Hf Hw Hr IH]; intros H2; simpl.
  - by subst hi.
  - constructor; [done|done|]. by apply IH.
Qed.

Lemma chain_bounds (hi lo : Z) (l : list Field) : chain hi l lo -> lo - 1 <= hi.
Proof. induction 1; lia. Qed.

Lemma chain_entries (hi lo : Z) (l : list Field) :
  chain hi l lo -> Forall (fun f => lo <= to f /\ to f <= from f /\ from f <= hi) l.
Proof.
  induction 1 as [|hi lo f r Hf Hw Hr IH]; constructor.
  - apply chain_bounds in Hr. lia.
  - eapply Forall_impl; [exact IH|]. simpl. intros g. lia.
Qed.

Lemma chain_sum (hi lo : Z) (l : list Field) :
  chain hi l lo -> Forall wellSized l -> sumZ (width <$> l) = hi - lo + 1.
Proof.
  induction 1 as [|hi lo f r Hf Hw Hr IH]; intros Hsz.
  - unfold sumZ. simpl. lia.
  - inversion Hsz as [|? ? [Hwf _] Hrest]; subst.
    rewrite fmap_cons. unfold sumZ in *. cbn [foldr]. rewrite IH by done. lia.
Qed.

Lemma chain_below (hi lo : Z) (l : list Field) : chain hi l lo -> StronglySorted below l.
Proof.
  induction 1 as [|hi lo f r Hf Hw Hr IH]; constructor; [done|].
  eapply Forall_impl; [apply (chain_entries _ _ _ Hr)|]. unfold below. simpl. intros g. lia.
Qed.

Lemma chain_consecutive (hi lo : Z) (l : list Field) (i : nat) (a b : Field) :
  chain hi l lo -> l !! i = Some a -> l !! S i = Some b -> to a = from b + 1.
Proof.
  intros H. revert i. induction H as [|hi lo f r Hf Hw Hr IH]; intros i Ha Hb; [done|].
  destruct i as [|i].
  - injection Ha as <-. inversion Hr as [|? ? g r' Hg Hgw Hr']; subst; [done|].
    simpl in Hb. injection Hb as <-. lia.
  - by apply (IH i).
Qed.

Lemma chain_head (hi lo : Z) (l : list Field) :
  chain hi l lo -> lo <= hi -> from <$> head l = Some hi.
Proof. destruct 1 as [|hi lo f r Hf]; intros Hle; [lia|]. simpl. by rewrite Hf. Qed.

Lemma chain_last (hi lo : Z) (l : list Field) :
  chain hi l lo -> lo <= hi -> to <$> last l = Some lo.
Proof.
  induction 1 as [|hi lo f r Hf Hw Hr IH]; intros Hle; [lia|].
  inversion Hr as [hi' lo' Hnil|hi' lo' g r' Hg Hgw Hr']; subst.
  - simpl. f_equal. lia.
  - rewrite last_cons_cons. apply IH. apply chain_bounds in Hr'. lia.
Qed.

Lemma chain_cover (hi lo : Z) (l : list Field) (b : Z) :
  chain hi l lo -> lo <= b <= hi <-> exists f, f ∈ l /\ to f <= b <= from f.
Proof.
  induction 1 as [hi lo Hnil|hi lo f r Hf Hw Hr IH].
  - split; [lia|]. by intros (f & ?%elem_of_nil & _).
  - split.
    + intros Hb. destruct (decide (to f <= b)) as [Hin|Hout].
      * exists f. split; [apply list_elem_of_here|lia].
      * destruct (proj1 IH) as (g & Hg & Hgb); [lia|].
        exists g. split; [by apply list_elem_of_further|done].
    + intros (g & Hg & Hgb). apply elem_of_cons in Hg as [->|Hg].
      * apply chain_bounds in Hr. lia.
      * destruct (proj2 IH) as [? ?]; [by exists g|]. lia.
Qed.

Lemma below_nonOverlapping (l : list Field) : StronglySorted below l -> nonOverlapping l.
Proof.
  induction 1 as [|x r Hs IH Hx]; constructor; [|done].
  eapply Forall_impl; [exact Hx|]. unfold below, disjointRange. intros y. lia.
Qed.

Lemma chain_partitions (W : Z) (l : list Field) :
  0 < W -> chain (W - 1) l 0 -> partitions W l.
Proof.
  intros HW H. unfold partitions.
  pose proof (chain_below _ _ _ H) as Hbelow.
  pose proof (chain_entries _ _ _ H) as Hent.
  split; [|split; [|split; [|split; [|split]]]].
  - clear H. induction Hbelow as [|x r Hs IH Hx]; constructor.
    + apply IH. by inversion Hent.
    + inversion Hent as [|? ? Hxe Hr]; subst.
      rewrite Forall_forall in Hx, Hr. apply Forall_forall. intros y Hy.
      specialize (Hx y Hy). specialize (Hr y Hy). unfold below in Hx. lia.
  - apply (chain_head _ _ _ H). lia.
  - intros i a b. by apply (chain_consecutive _ _ _ _ _ _ H).
  - apply (chain_last _ _ _ H). lia.
  - by apply below_nonOverlapping.
  - intros b. by apply chain_cover.
Qed.

(** *** The gap-filling loop on disjoint segments *)

Lemma disjointRange_sym (a b : Field) : disjointRange a b -> disjointRange b a.
Proof. unfold disjointRange. lia. Qed.

Lemma sorted_disjoint_below (l : list Field) :
  StronglySorted (before cmpField) l -> nonOverlapping l -> Forall wellSized l ->
  StronglySorted below l.
Proof.
  induction 1 as [|x r Hs IH Hx]; intros Hno Hsz; constructor.
  - apply IH; [by inversion Hno|by inversion Hsz].
  - inversion Hno as [|? ? Hdx _]; subst. inversion Hsz as [|? ? Hxs Hrs]; subst.
    rewrite Forall_forall in Hx, Hdx, Hrs. apply Forall_forall. intros y Hy.
    specialize (Hx y Hy). specialize (Hdx y Hy). specialize (Hrs y Hy).
    unfold before, cmpField in Hx. unfold disjointRange in Hdx.
    unfold wellSized in Hxs, Hrs. unfold below. lia.
Qed.

Lemma fill_chain (l : list Field) :
  StronglySorted below l -> Forall wellSized l ->
  forall filled nextBit,
    Forall (fun f => from f <= nextBit) l -> Forall (fun f => 0 <= to f) l ->
    -1 <= nextBit ->
    exists new nextBit',
      fold_left fillStep l (filled, nextBit) = ((filled ++ new)%list, nextBit')
      /\ chain nextBit new (nextBit' + 1) /\ -1 <= nextBit'.
Proof.
  induction 1 as [|x r Hs IH Hx]; intros Hsz filled nextBit Hle Hpos Hnb.
  - exists [], nextBit. rewrite app_nil_r. split; [done|]. split; [|done].
    constructor. lia.
  - inversion Hsz as [|? ? [Hxw Hxp] Hrs]; subst.
    inversion Hle as [|? ? Hxle _]; subst.
    inversion Hpos as [|? ? Hxpos Hrpos]; subst.
    cbn [fold_left]. unfold fillStep at 2.
    set (filled' := ((if from x <? nextBit then _ else _) ++ [x])%list).
    destruct (IH Hrs filled' (to x - 1)) as (new & nextBit' & Hrun & Hchain & Hnb');
      [|done|lia|].
    { eapply Forall_impl; [exact Hx|]. unfold below. intros y. lia. }
    rewrite Hrun. subst filled'.
    destruct (Z.ltb_spec (from x) nextBit) as [Hgap|Hnogap].
    + exists (gapField nextBit (from x + 1) (nextBit - from x) :: x :: new), nextBit'.
      split; [by rewrite <- !app_assoc|]. split; [|done].
      constructor; simpl; [done|lia|]. constructor; [lia|lia|done].
    + exists (x :: new), nextBit'.
      split; [by rewrite <- !app_assoc|]. split; [|done].
      constructor; [lia|lia|done].
Qed.

(** On disjoint segments that lie in the word the result is a chain from
    [W-1] down to 0. *)
Lemma standardizeBitfieldFields_chain (fields : list Field) (W : Z) :
  0 <= W ->
  nonOverlapping (expandFields fields) ->
  Forall (withinWord W) (expandFields fields) ->
  chain (W - 1) (standardizeBitfieldFields fields W) 0.
Proof.
  intros HW Hno Hin. unfold standardizeBitfieldFields.
  set (expanded := JS.sort cmpField (expandFields fields)).
  assert (Forall wellSized expanded) as Hsz.
  { unfold expanded. rewrite sort_perm. apply expandFields_wellSized. }
  assert (Forall (withinWord W) expanded) as Hin'.
  { unfold expanded. by rewrite sort_perm. }
  assert (StronglySorted below expanded) as Hbelow.
  { apply sorted_disjoint_below; [|by apply sort_pairs; [apply disjointRange_sym|]|done].
    apply sort_sorted; [apply cmpField_total|apply cmpField_trans]. }
  destruct (fill_chain expanded Hbelow Hsz [] (W - 1)) as (new & nextBit & -> & Hchain & Hnb).
  { eapply Forall_impl; [exact Hin'|]. unfold withinWord. intros f. lia. }
  { eapply Forall_impl; [exact Hin'|]. unfold withinWord. intros f. lia. }
  { lia. }
  rewrite app_nil_l.
  assert (chain (W - 1)
            (if 0 <=? nextBit then (new ++ [gapField nextBit 0 (nextBit + 1)])%list else new) 0)
    as Hfilled.
  { destruct (Z.leb_spec 0 nextBit).
    - eapply chain_app; [exact Hchain|].
      constructor; simpl; [lia|lia|]. constructor. lia.
    - by replace 0 with (nextBit + 1) by lia. }
  rewrite sort_sorted_id; [done|].
  apply below_ordered; [by eapply chain_below|].
  eapply Forall_impl; [by eapply chain_entries|]. simpl. intros f. lia.
Qed.

(** C1, as the code has it: when the expanded segments of the input are
    pairwise non-overlapping and all lie in [0 .. W-1], for W = 16 or 32,
    the ranges of the list [standardizeBitfieldFields] returns partition
    [0 .. W-1]: descending by [from], the first [from] is W-1, each [to] is
    the next [from] plus 1, the last [to] is 0, and the ranges are pairwise
    disjoint and cover exactly the bits 0 .. W-1. *)
Theorem standardizeBitfieldFields_partition (fields : list Field) (W : Z) :
  W = 16 \/ W = 32 ->
  nonOverlapping (expandFields fields) ->
  Forall (withinWord W) (expandFields fields) ->
  partitions W (standardizeBitfieldFields fields W).
Proof.
  intros HW Hno Hin. apply chain_partitions; [lia|].
  apply standardizeBitfieldFields_chain; [lia|done|done].
Qed.

Lemma storeDoc_fields_disjoint :
  nonOverlapping (expandFields (computeFields storeDoc))
  /\ Forall (withinWord 32) (expandFields (computeFields storeDoc)).
Proof.
  vm_compute expandFields. split.
  - repeat (constructor; [repeat (constructor; [unfold disjointRange; simpl; lia|]);
                           constructor|]).
    constructor.
  - repeat (constructor; [unfold withinWord; simpl; lia|]). constructor.
Defined.

Lemma standardizeBitfieldFields_partition_witness :
  (32 = 16 \/ 32 = 32)
  /\ nonOverlapping (expandFields (computeFields storeDoc))
  /\ Forall (withinWord 32) (expandFields (computeFields storeDoc))
  /\ partitions 32 (filledFields storeDoc).
Proof.
  split; [right; reflexivity|].
  split; [exact (proj1 storeDoc_fields_disjoint)|].
  split; [exact (proj2 storeDoc_fields_disjoint)|].
  apply (standardizeBitfieldFields_partition (computeFields storeDoc) 32);
    [right; reflexivity|exact (proj1 storeDoc_fields_disjoint)
    |exact (proj2 storeDoc_fields_disjoint)].
Defined.

(** Without the bound on the segments the statement fails: a single field
    above the word is trivially non-overlapping, and the result starts at
    bit 40. *)
Lemma standardizeBitfieldFields_partition_fails :
  nonOverlapping (expandFields wideFields)
  /\ ~ partitions 32 (standardizeBitfieldFields wideFields 32).
Proof.
  split.
  - repeat constructor.
  - intros (_ & Hhead & _). vm_compute in Hhead. discriminate.
Qed.

(** C2, as the code has it: when the expanded segments of the input are
    pairwise non-overlapping and all lie in [0 .. W-1], for W = 16 or 32,
    the widths of all the entries [standardizeBitfieldFields] returns
    (constants, variables and gaps) add up to W. *)
Theorem standardizeBitfieldFields_width_sum (fields : list Field) (W : Z) :
  W = 16 \/ W = 32 ->
  nonOverlapping (expandFields fields) ->
  Forall (withinWord W) (expandFields fields) ->
  sumZ (width <$> standardizeBitfieldFields fields W) = W.
Proof.
  intros HW Hno Hin.
  rewrite (chain_sum (W - 1) 0).
  - lia.
  - apply standardizeBitfieldFields_chain; [lia|done|done].
  - apply standardizeBitfieldFields_wellSized.
Qed.

Lemma standardizeBitfieldFields_width_sum_witness :
  (32 = 16 \/ 32 = 32)
  /\ nonOverlapping (expandFields (computeFields storeDoc))
  /\ Forall (withinWord 32) (expandFields (computeFields storeDoc))
  /\ sumZ (width <$> filledFields storeDoc) = 32.
Proof.
  split; [right; reflexivity|].
  split; [exact (proj1 storeDoc_fields_disjoint)|].
  split; [exact (proj2 storeDoc_fields_disjoint)|].
  apply (standardizeBitfieldFields_width_sum (computeFields storeDoc) 32);
    [right; reflexivity|exact (proj1 storeDoc_fields_disjoint)
    |exact (proj2 storeDoc_fields_disjoint)].
Defined.

(** For arbitrary field lists the statement fails: on two fields that
    both cover bits 31..0 the widths add up to 64. *)
Lemma standardizeBitfieldFields_width_sum_fails :
  sumZ (width <$> standardizeBitfieldFields overlapFields 32) <> 32.
Proof. vm_compute. discriminate. Qed.

(** Both bounds on the segments are needed: a segment that reaches below
    bit 0 ends the result below 0, and the field above the word adds its 6
    bits to the 35 of the gap under it. *)
Lemma standardizeBitfieldFields_outside_word :
  to <$> last (standardizeBitfieldFields [mkField "x" 5 (-3) 9 "var" None] 32) = Some (-3)
  /\ sumZ (width <$> standardizeBitfieldFields wideFields 32) = 41.
Proof. vm_compute. done. Qed.

(** ** Derived literals *)

Lemma join_take_drop_explode (s : string) (k n : nat) :
  JS.join (take n (drop k (JS.explode s))) = substring k n s.
Proof.
  revert k n. induction s as [|c r IH]; intros k n.
  - by destruct k, n.
  - destruct k as [|k]; simpl.
    + destruct n as [|n]; simpl; [done|]. f_equal. apply (IH 0%nat).
    + apply IH.
Qed.

Lemma sliceBits_span (s : string) (hi lo : nat) :
  String.length s = 32%nat -> (lo <= hi <= 31)%nat ->
  sliceBits (JS.explode s) (Z.of_nat hi) (Z.of_nat lo) = patternSpan s hi lo.
Proof.
  intros Hlen Hspan. unfold sliceBits, JS.slice, patternSpan.
  rewrite explode_length, Hlen.
  destruct (Z.ltb_spec (31 - Z.of_nat hi) 0); [lia|].
  destruct (Z.ltb_spec (32 - Z.of_nat lo) 0); [lia|].
  rewrite !Z.min_l by lia.
  rewrite join_take_drop_explode. f_equal; lia.
Qed.

Lemma substring_length (s : string) (k n : nat) :
  (k + n <= String.length s)%nat -> String.length (substring k n s) = n.
Proof.
  revert k n. induction s as [|c r IH]; intros k n Hle; simpl in Hle.
  - by destruct k, n; try lia.
  - destruct k as [|k]; simpl.
    + destruct n as [|n]; simpl; [done|]. rewrite (IH 0%nat); [done|lia].
    + apply IH. lia.
Qed.

Lemma hasChar_dontCare_not_bits (s : string) :
  hasChar "-" s = true -> allBits s = false.
Proof.
  induction s as [|c r IH]; simpl; [done|].
  destruct (Ascii.eqb_spec c "-") as [->|Hne]; simpl; [done|].
  intros H. rewrite IH by done. apply andb_false_r.
Qed.

(** C9, as the code has it: for a record whose match string has 32
    characters, [opcode] and [funct3] are the characters of the pattern on
    the spans [6,0] and [14,12], reported as they are (not validated), and
    [funct7] is the characters on the span [31,25] when these are all 0 or
    1 and absent otherwise, hence absent whenever one of them is "-". *)
Theorem deriveLiterals_slices (s : string) (vars : option (list VariableSpec)) :
  String.length s = 32%nat ->
  let lit := deriveLiterals (patternDoc s vars) in
  opcode lit = Some (patternSpan s 6 0)
  /\ funct3 lit = Some (patternSpan s 14 12)
  /\ funct7 lit =
       (if allBits (patternSpan s 31 25) then Some (patternSpan s 31 25) else None)
  /\ (hasChar "-" (patternSpan s 31 25) = true -> funct7 lit = None).
Proof.
  intros Hlen lit. subst lit. unfold deriveLiterals, patternDoc, docMatch. simpl.
  assert (s <> "") as Hne by (intros ->; done).
  destruct (String.eqb_spec s "") as [|_]; [done|]. simpl.
  unfold parseMatchBits.
  destruct (String.eqb_spec s "") as [|_]; [done|].
  rewrite Hlen. simpl.
  assert (sliceBits (JS.explode s) 6 0 = patternSpan s 6 0) as ->
    by (apply (sliceBits_span s 6 0 Hlen); lia).
  assert (sliceBits (JS.explode s) 14 12 = patternSpan s 14 12) as ->
    by (apply (sliceBits_span s 14 12 Hlen); lia).
  assert (sliceBits (JS.explode s) 31 25 = patternSpan s 31 25) as ->
    by (apply (sliceBits_span s 31 25 Hlen); lia).
  assert (isBinary7 (patternSpan s 31 25) = allBits (patternSpan s 31 25)) as ->.
  { unfold isBinary7, patternSpan. rewrite substring_length by (rewrite Hlen; simpl; lia).
    done. }
  repeat split. intros Hdc. by rewrite hasChar_dontCare_not_bits.
Qed.

Lemma deriveLiterals_slices_witness :
  String.length "-----------------010-----0100011" = 32%nat
  /\ deriveLiterals storeDoc = mkLiterals (Some "0100011") (Some "010") None.
Proof.
  split; [reflexivity|].
  destruct (deriveLiterals_slices "-----------------010-----0100011" (Some storeVariables)
              eq_refl) as (Ho & Hf3 & Hf7 & _).
  change (patternDoc "-----------------010-----0100011" (Some storeVariables))
    with storeDoc in Ho, Hf3, Hf7.
  destruct (deriveLiterals storeDoc) as [o f3 f7]. simpl in Ho, Hf3, Hf7.
  rewrite Ho, Hf3, Hf7. reflexivity.
Defined.

(** Read as a validation of all three literals the statement fails: for
    an upper-immediate instruction [funct3] is reported as "---". *)
Lemma deriveLiterals_not_validated : ~ validated (deriveLiterals luiDoc).
Proof.
  intros H. specialize (H "---"). discriminate H. right. left. reflexivity.
Qed.

(** ** The earlier revision *)

(** The earlier [parseMatchBits] agrees with the current one except on
    16-character strings, which it rejects. *)
Lemma legacy_parseMatchBits_32_only (s : string) :
  Legacy.parseMatchBits s =
    (if bool_decide (String.length s = 32%nat) then parseMatchBits s else None)
  /\ Legacy.parseMatchBits "0000000000000001" = None
  /\ parseMatchBits "0000000000000001" <> None.
Proof.
  split; [|done].
  unfold Legacy.parseMatchBits, parseMatchBits.
  destruct (String.eqb_spec s "") as [->|Hne]; simpl; [done|].
  destruct (Nat.eqb_spec (String.length s) 32) as [H32|H32]; simpl;
    case_bool_decide; done.
Qed.

(** On a pattern whose fixed bits run from 31 down to 20 the earlier
    revision emits a funct7 field for bits 31..25, where the run scan emits
    one const field for the whole run. *)
Lemma legacy_constFields_fixed_spans :
  let m := JS.explode "000000000000-----000-----1110011" in
  (fun f => (label f, from f, to f)) <$> Legacy.constFields m
    = [("opcode=1110011", 6, 0); ("funct3=000", 14, 12); ("funct7=0000000", 31, 25)]
  /\ (fun f => (label f, from f, to f)) <$> constRuns m
    = [("const=000000000000", 31, 20); ("funct3=000", 14, 12); ("opcode=1110011", 6, 0)].
Proof. vm_compute. done. Qed.

(** ** Further properties of the field resolver *)

Section StableSort.
Context {A : Type} (cmp : A -> A -> Z) (Q : A -> A -> Prop).
Hypothesis cmp_total : forall x y, cmp x y <= 0 \/ cmp y x <= 0.
Hypothesis cmp_trans : forall x y z, cmp x y <= 0 -> cmp y z <= 0 -> cmp x z <= 0.

Lemma insert_stable (x : A) (l : list A) :
  StronglySorted (tieOrdered cmp Q) l -> Forall (Q x) l ->
  StronglySorted (tieOrdered cmp Q) (JS.insert cmp x l).
Proof.
  induction 1 as [|y r Hs IH Hy]; intros HQ; simpl.
  - repeat constructor.
  - inversion HQ as [|? ? HQy HQr]; subst.
    destruct (Z.leb_spec (cmp x y) 0) as [Hle|Hgt].
    + constructor; [by constructor|].
      constructor; [by split|].
      rewrite Forall_forall in Hy, HQr. apply Forall_forall. intros w Hw. split.
      * eapply cmp_trans; [exact Hle|]. apply (Hy w Hw).
      * intros _. by apply HQr.
    + constructor; [by apply IH|].
      rewrite insert_perm. constructor; [|done]. split.
      * destruct (cmp_total x y); [lia|done].
      * intros Hxy. lia.
Qed.

(** Entries related by [Q] in the array keep that relation wherever the
    comparator ties them. *)
Lemma sort_stable (l : list A) :
  ForallOrdPairs Q l -> StronglySorted (tieOrdered cmp Q) (JS.sort cmp l).
Proof.
  induction 1 as [|x r Hx Hr IH]; simpl; [constructor|].
  apply insert_stable; [done|]. by rewrite sort_perm.
Qed.
End StableSort.

Lemma pairs_app {A : Type} (R : A -> A -> Prop) (l1 l2 : list A) :
  ForallOrdPairs R l1 -> ForallOrdPairs R l2 ->
  (forall a b, a ∈ l1 -> b ∈ l2 -> R a b) ->
  ForallOrdPairs R (l1 ++ l2).
Proof.
  induction 1 as [|x r Hx Hr IH]; intros H2 Hcross; simpl; [done|].
  constructor.
  - apply Forall_app. split; [done|].
    apply Forall_forall. intros b Hb. apply Hcross; [apply list_elem_of_here|done].
  - apply IH; [done|]. intros a b Ha Hb. apply Hcross; [by apply list_elem_of_further|done].
Qed.

Lemma pairs_perm {A : Type} (R : A -> A -> Prop) (l1 l2 : list A) :
  (forall a b, R a b -> R b a) ->
  l1 ≡ₚ l2 -> ForallOrdPairs R l1 -> ForallOrdPairs R l2.
Proof.
  intros Hsym Hp. induction Hp as [|x l l' Hp IH|x y l|l l' l'' Hp1 IH1 Hp2 IH2]; intros H.
  - done.
  - inversion H as [|? ? Hx Hl]; subst. constructor; [by rewrite <- Hp|by apply IH].
  - inversion H as [|? ? Hy Hrest]; subst. inversion Hrest as [|? ? Hx Hl]; subst.
    inversion Hy as [|? ? Hyx Hyl]; subst.
    constructor; [constructor; [by apply Hsym|done]|]. by constructor.
  - by apply IH2, IH1.
Qed.

(** X1: [computeFields] lists its fields by descending [from]; where two
    fields start at the same bit a variable is listed before a constant;
    every field is a variable or a constant; a record without encoding has
    no field. *)
Theorem computeFields_ordered (doc : Doc) :
  StronglySorted (tieOrdered cmpField varFirst) (computeFields doc)
  /\ StronglySorted (fun a b => from b <= from a) (computeFields doc)
  /\ Forall (fun f => isVar f \/ isConst f) (computeFields doc)
  /\ computeFields (mkDoc None) = [].
Proof.
  assert (StronglySorted (tieOrdered cmpField varFirst) (computeFields doc)
          /\ Forall (fun f => isVar f \/ isConst f) (computeFields doc)) as [Hs Hk].
  { destruct (encoding doc) as [e|] eqn:He.
    - rewrite (computeFields_parts doc e He). split.
      + apply sort_stable; [apply cmpField_total|apply cmpField_trans|].
        apply pairs_app.
        * pose proof (varFields_isVar (resolvedVariables e)) as Hv.
          induction Hv as [|x r Hx Hr IH]; constructor; [|done].
          eapply Forall_impl; [exact Hr|].
          unfold varFirst, isConst, isVar in *. intros y Hy [Hc _]. congruence.
        * assert (Forall isConst (patternFields (resolvedPattern e))) as Hc.
          { destruct (resolvedPattern e); [apply constRuns_isConst|constructor]. }
          induction Hc as [|x r Hx Hr IH]; constructor; [|done].
          eapply Forall_impl; [exact Hr|].
          unfold varFirst, isConst, isVar in *. intros y Hy [_ Hv]. congruence.
        * intros a b Ha _ [Hc _].
          pose proof (varFields_isVar (resolvedVariables e)) as Hv.
          rewrite Forall_forall in Hv. specialize (Hv a Ha).
          unfold isConst, isVar in *. congruence.
      + rewrite sort_perm. apply Forall_app. split.
        * eapply Forall_impl; [apply varFields_isVar|]. by left.
        * destruct (resolvedPattern e); [|constructor].
          eapply Forall_impl; [apply constRuns_isConst|]. by right.
    - unfold computeFields. rewrite He. split; constructor. }
  split; [done|]. split; [|done].
  eapply StronglySorted_weaken; [|exact Hs].
  unfold tieOrdered, cmpField. intros a b [Hle _]. lia.
Qed.

Lemma getVariant_keys (key : string) (vs : list (string * Enc)) :
  key ∈ map fst vs <-> is_Some (getVariant key vs).
Proof.
  induction vs as [|[k e] r IH]; simpl.
  - split; [by intros ?%elem_of_nil|by intros [? ?]].
  - rewrite elem_of_cons. destruct (String.eqb_spec k key) as [->|Hne].
    + split; [eauto|by left].
    + rewrite <- IH. split; [intros [?|?]; [congruence|done]|by right].
Qed.

Lemma selectEncoding_variants (vs : list (string * Enc)) :
  selectEncoding (Variants vs) = chosenVariant vs.
Proof.
  unfold selectEncoding, chosenVariant. case_bool_decide as Hin.
  - apply getVariant_keys in Hin as [e He]. by rewrite He.
  - destruct (getVariant "RV32" vs) as [e|] eqn:He.
    { exfalso. apply Hin, getVariant_keys. eauto. }
    destruct vs as [|[k e] r]; simpl; [done|]. by rewrite String.eqb_refl.
Qed.

Lemma resolved_flat (e : Enc) :
  resolvedPattern (Flat e) = parseMatchBits (default "" (enc_match e))
  /\ resolvedVariables (Flat e) = default [] (enc_variables e).
Proof.
  unfold resolvedPattern, resolvedVariables, selectEncoding.
  destruct e as [[s|] [l|]]; simpl; try done.
  - by destruct (String.eqb_spec s "").
  - destruct (String.eqb_spec s "") as [->|]; simpl; done.
Qed.

(** X2: A multi-variant encoding is resolved as the flat encoding of its "RV32"
    variant, wherever that variant stands, and of its first variant when
    there is no "RV32"; no format tag and no literal is derived for it, and
    its layout is built for 32 bits whatever the length of the pattern of
    the chosen variant. *)
Theorem computeFields_variants (vs : list (string * Enc)) :
  computeFields (mkDoc (Some (Variants vs)))
    = computeFields (mkDoc (Some (Flat (chosenVariant vs))))
  /\ detectEncodingType (mkDoc (Some (Variants vs))) = None
  /\ deriveLiterals (mkDoc (Some (Variants vs))) = mkLiterals None None None
  /\ filledFields (mkDoc (Some (Variants vs)))
     = standardizeBitfieldFields (computeFields (mkDoc (Some (Flat (chosenVariant vs))))) 32
  /\ (fun f => (label f, from f, to f)) <$> filledFields compressedVariantsDoc
     = [("", 31, 16); ("const=011", 15, 13); ("", 12, 5); ("fd", 4, 2); ("const=01", 1, 0)].
Proof.
  assert (computeFields (mkDoc (Some (Variants vs)))
          = computeFields (mkDoc (Some (Flat (chosenVariant vs))))) as Heq.
  { rewrite (computeFields_parts (mkDoc (Some (Variants vs))) (Variants vs) eq_refl).
    rewrite (computeFields_parts (mkDoc (Some (Flat (chosenVariant vs)))) (Flat (chosenVariant vs)) eq_refl).
    destruct (resolved_flat (chosenVariant vs)) as [-> ->].
    unfold resolvedPattern, resolvedVariables. by rewrite selectEncoding_variants. }
  split; [done|]. split; [done|]. split; [done|]. split; [|by vm_compute].
  unfold filledFields. by rewrite Heq.
Qed.

(** X3: With a match string of any length other than 16 and 32, the empty one
    included, [computeFields] returns the variable fields alone and no
    literal is derived. *)
Theorem computeFields_unsupported_width (s : string) (vars : option (list VariableSpec)) :
  String.length s <> 16%nat -> String.length s <> 32%nat ->
  computeFields (patternDoc s vars) = JS.sort cmpField (omap varField (default [] vars))
  /\ deriveLiterals (patternDoc s vars) = mkLiterals None None None.
Proof.
  intros H16 H32.
  assert (parseMatchBits s = None) as Hp.
  { unfold parseMatchBits. destruct (String.eqb_spec s ""); [done|].
    destruct (Nat.eqb_spec (String.length s) 32); [done|].
    by destruct (Nat.eqb_spec (String.length s) 16). }
  split.
  - rewrite (computeFields_parts (patternDoc s vars) (Flat (mkEnc (Some s) vars)) eq_refl).
    destruct (resolved_flat (mkEnc (Some s) vars)) as [-> ->]. simpl.
    by rewrite Hp, app_nil_r.
  - unfold deriveLiterals, patternDoc, docMatch. simpl.
    destruct (String.eqb_spec s ""); simpl; [done|]. by rewrite Hp.
Qed.

Lemma computeFields_unsupported_width_witness :
  String.length "0000000-----000" <> 16%nat
  /\ String.length "0000000-----000" <> 32%nat
  /\ label <$> computeFields (patternDoc "0000000-----000" (Some storeVariables))
     = ["xs2"; "xs1"; "imm"].
Proof.
  assert (String.length "0000000-----000" <> 16%nat) as H16 by (simpl; lia).
  assert (String.length "0000000-----000" <> 32%nat) as H32 by (simpl; lia).
  split; [exact H16|]. split; [exact H32|].
  rewrite (proj1 (computeFields_unsupported_width _ (Some storeVariables) H16 H32)).
  vm_compute. reflexivity.
Defined.

(** ** Further properties of the layout builder *)

Lemma fillStep_nongap (l filled : list Field) (nextBit : Z) :
  Forall (fun f => ~ isGap f) l ->
  filter (fun f => ~ isGap f) (fold_left fillStep l (filled, nextBit)).1
  = (filter (fun f => ~ isGap f) filled ++ l)%list.
Proof.
  revert filled nextBit. induction l as [|seg r IH]; intros filled nextBit Hl.
  - by rewrite app_nil_r.
  - inversion Hl as [|? ? Hseg Hr]; subst. cbn [fold_left]. unfold fillStep at 2.
    rewrite IH by done. rewrite filter_app, filter_cons_True, filter_nil by done.
    rewrite <- app_assoc. f_equal.
    destruct (Z.ltb_spec (from seg) nextBit); [|done].
    rewrite filter_app, filter_cons_False, filter_nil, app_nil_r; [done|].
    intros Hn. by apply Hn.
Qed.


Lemma fillStep_entries (P : Field -> Prop) (l filled : list Field) (nextBit : Z) :
  Forall (fun f => P f \/ madeGap f) filled -> Forall P l ->
  Forall (fun f => P f \/ madeGap f) (fold_left fillStep l (filled, nextBit)).1.
Proof.
  revert filled nextBit. induction l as [|seg r IH]; intros filled nextBit Hf Hl; [done|].
  inversion Hl as [|? ? Hseg Hr]; subst. cbn [fold_left]. unfold fillStep at 2.
  apply IH; [|done].
  apply Forall_app. split; [|constructor; [by left|done]].
  destruct (Z.ltb_spec (from seg) nextBit); [|done].
  apply Forall_app. split; [done|]. constructor; [|done].
  right. repeat split; simpl. lia.
Qed.

Lemma expandFields_kinds (P : string -> Prop) (fields : list Field) :
  Forall (fun f => P (kind f)) fields -> Forall (fun f => P (kind f)) (expandFields fields).
Proof.
  intros H. apply Forall_forall. intros f Hf. unfold expandFields in Hf.
  apply list_elem_of_In, in_flat_map in Hf as (field & Hfield & Hf).
  apply list_elem_of_In in Hf, Hfield. unfold expandField in Hf.
  apply list_elem_of_omap in Hf as (seg & _ & Hseg).
  destruct (Z.leb_spec (seg_from seg - seg_to seg + 1) 0); [done|].
  injection Hseg as <-. simpl. rewrite Forall_forall in H. by apply H.
Qed.

(** X4: [standardizeBitfieldFields] neither drops nor alters a segment of
    positive width: without its gap entries the result is the sorted list
    of the expanded segments, which is what [expandBitfieldFields] returns;
    and every gap entry has an empty label and the width of its range. *)
Theorem standardizeBitfieldFields_keeps_segments (fields : list Field) (W : Z) :
  Forall (fun f => ~ isGap f) fields ->
  filter (fun f => ~ isGap f) (standardizeBitfieldFields fields W)
    = expandBitfieldFields fields W
  /\ Forall madeGap (filter isGap (standardizeBitfieldFields fields W)).
Proof.
  intros Hng.
  assert (Forall (fun f => ~ isGap f) (JS.sort cmpField (expandFields fields))) as Hexp.
  { rewrite sort_perm. by apply (expandFields_kinds (fun k => k <> "gap")). }
  unfold standardizeBitfieldFields, expandBitfieldFields.
  pose proof (fillStep_nongap _ [] (W - 1) Hexp) as Hfilter.
  pose proof (fillStep_entries (fun f => ~ isGap f) _ [] (W - 1) (List.Forall_nil _) Hexp) as Hent.
  destruct (fold_left fillStep _ _) as [filled nextBit]. simpl in Hfilter, Hent.
  set (filled' := if 0 <=? nextBit then _ else filled).
  assert (filter (fun f => ~ isGap f) filled' = JS.sort cmpField (expandFields fields)
          /\ Forall (fun f => ~ isGap f \/ madeGap f) filled') as [Hf' He'].
  { subst filled'. destruct (Z.leb_spec 0 nextBit); [|done]. split.
    - rewrite filter_app, filter_cons_False, filter_nil, app_nil_r; [done|].
      intros Hn. by apply Hn.
    - apply Forall_app. split; [done|]. constructor; [|done].
      right. repeat split; simpl. lia. }
  split.
  - rewrite filter_sort by (apply cmpField_total || apply cmpField_trans).
    rewrite Hf'. apply sort_sorted_id, sort_sorted; [apply cmpField_total|apply cmpField_trans].
  - apply Forall_forall. intros g Hg. apply list_elem_of_filter in Hg as [Hgap Hin].
    apply sort_elem_of in Hin. rewrite Forall_forall in He'.
    destruct (He' g Hin) as [Hn|Hm]; [done|done].
Qed.

Lemma standardizeBitfieldFields_keeps_segments_witness :
  Forall (fun f => ~ isGap f) (computeFields storeDoc)
  /\ label <$> filter (fun f => ~ isGap f) (filledFields storeDoc)
     = ["xs2"; "xs1"; "funct3=010"; "imm"; "opcode=0100011"]
  /\ label <$> filter isGap (filledFields storeDoc) = [""].
Proof.
  assert (Forall (fun f => ~ isGap f) (computeFields storeDoc)) as H.
  { vm_compute computeFields. repeat (constructor; [discriminate|]). constructor. }
  split; [exact H|]. split; [|vm_compute; reflexivity].
  unfold filledFields.
  rewrite (proj1 (standardizeBitfieldFields_keeps_segments _ (totalBitsOf storeDoc) H)).
  vm_compute. reflexivity.
Defined.

Lemma parseLocationSegments_ordered (loc : Location) :
  Forall (fun s => seg_to s <= seg_from s) (parseLocationSegments loc).
Proof.
  rewrite parseLocationSegments_pieces. apply Forall_forall. intros s Hs.
  apply sort_elem_of, list_elem_of_omap in Hs as (part & _ & Hp).
  by eapply parsePiece_ordered.
Qed.

Lemma omap_all {A B : Type} (f : A -> option B) (g : A -> B) (l : list A) :
  Forall (fun x => f x = Some (g x)) l -> omap f l = map g l.
Proof.
  induction 1 as [|x r Hx _ IH]; [done|]. csimpl. by rewrite Hx, IH.
Qed.

Lemma expandField_varField (v : VariableSpec) (f : Field) :
  varField v = Some f ->
  expandField f = map (segmentEntry v) (parseLocationSegments (location v)).
Proof.
  unfold varField. pose proof (parseLocationSegments_ordered (location v)) as Hord.
  destruct (parseLocationSegments (location v)) as [|s rest]; [done|].
  intros [= <-]. unfold expandField, fieldSegments. cbn [segments label kind].
  apply omap_all. eapply Forall_impl; [exact Hord|]. simpl. intros seg Hseg.
  by destruct (Z.leb_spec (seg_from seg - seg_to seg + 1) 0); [lia|].
Qed.

(** X5: Every parsed range of every variable becomes one layout entry of its
    own, named after the variable and of the width of the range: a field
    stored in several ranges is not merged into one span, and no parsed
    range is lost. *)
Theorem expandFields_variables (vars : list VariableSpec) :
  expandFields (omap varField vars)
    = flat_map (fun v => map (segmentEntry v) (parseLocationSegments (location v))) vars
  /\ (fun f => (label f, from f, to f, width f))
       <$> expandFields (omap varField [mkVariable "imm" (LString "31-25|11-7")])
     = [("imm", 31, 25, 7); ("imm", 11, 7, 5)].
Proof.
  split; [|by vm_compute].
  induction vars as [|v vars IH]; [done|]. csimpl.
  destruct (varField v) as [f|] eqn:Hv.
  - change (expandFields (f :: omap varField vars))
      with (expandField f ++ expandFields (omap varField vars))%list.
    rewrite IH. cbn [flat_map]. f_equal. by apply expandField_varField.
  - rewrite IH. cbn [flat_map]. unfold varField in Hv.
    by destruct (parseLocationSegments (location v)).
Qed.

(** ** From an instruction record to its layout *)

Lemma pairs_map {A B : Type} (R : B -> B -> Prop) (f : A -> B) (l : list A) :
  ForallOrdPairs R (map f l) -> ForallOrdPairs (fun a b => R (f a) (f b)) l.
Proof.
  induction l as [|x r IH]; intros H; [constructor|].
  inversion H as [|? ? Hx Hr]; subst. constructor; [|by apply IH].
  apply Forall_forall. intros y Hy. rewrite Forall_forall in Hx. apply Hx.
  apply list_elem_of_In, in_map, list_elem_of_In. done.
Qed.

Lemma coversDontCares_spec (m : list string) (s : Segment) :
  coversDontCares m s = true <-> onDontCares m s.
Proof.
  unfold coversDontCares, onDontCares. rewrite forallb_forall. split.
  - intros H b Hb. apply H, list_elem_of_In, elem_of_seqZ. lia.
  - intros H b Hb%list_elem_of_In%elem_of_seqZ. apply H. lia.
Qed.

Lemma isDontCare_in_range (m : list string) (b : Z) :
  isDontCare (symbolAt m b) = true -> 0 <= b < Z.of_nat (length m).
Proof.
  unfold symbolAt, JS.index.
  destruct (Z.ltb_spec (Z.of_nat (length m) - 1 - b) 0); [done|].
  destruct (m !! Z.to_nat _) as [x|] eqn:Hx; [|done].
  apply lookup_lt_Some in Hx. lia.
Qed.

Lemma expandFields_constRuns (m : list string) : expandFields (constRuns m) = constRuns m.
Proof.
  assert (Forall (fun f => expandField f = [f]) (constRuns m)) as H.
  { apply Forall_forall. intros f Hf.
    apply (proj1 (constRuns_spec m)) in Hf as (hi & lo & (Hlohi & _) & ->).
    unfold expandField, fieldSegments. simpl.
    by destruct (Z.leb_spec (hi - lo + 1) 0); [lia|]. }
  unfold expandFields. induction H as [|f r Hf _ IH]; [done|].
  cbn [flat_map]. by rewrite Hf, IH.
Qed.

Lemma variableEntries_ranges (vars : list VariableSpec) :
  map rangeOf (flat_map (fun v => map (segmentEntry v) (parseLocationSegments (location v))) vars)
  = variableSegments vars.
Proof.
  unfold variableSegments. induction vars as [|v vars IH]; [done|].
  cbn [flat_map]. rewrite map_app, IH. f_equal.
  rewrite map_map. rewrite <- (map_id (parseLocationSegments (location v))) at 2.
  apply map_ext. by intros [hi lo].
Qed.

(** The expanded fields of a record whose variables sit on distinct
    don't-care bits of its pattern are disjoint and lie in the word. *)
Lemma computeFields_disjoint (s : string) (vars : list VariableSpec) :
  (String.length s = 16 \/ String.length s = 32)%nat ->
  ForallOrdPairs disjointSegments (variableSegments vars) ->
  Forall (onDontCares (JS.explode s)) (variableSegments vars) ->
  nonOverlapping (expandFields (computeFields (patternDoc s (Some vars))))
  /\ Forall (withinWord (Z.of_nat (String.length s)))
       (expandFields (computeFields (patternDoc s (Some vars)))).
Proof.
  intros Hlen Hdisj Hdc. set (m := JS.explode s) in *.
  assert (parseMatchBits s = Some m) as Hm.
  { unfold parseMatchBits. destruct (String.eqb_spec s "") as [->|]; [simpl in Hlen; lia|].
    destruct Hlen as [-> | ->]; done. }
  set (V := flat_map (fun v => map (segmentEntry v) (parseLocationSegments (location v))) vars).
  assert (expandFields (computeFields (patternDoc s (Some vars))) ≡ₚ V ++ constRuns m) as Hperm.
  { rewrite (computeFields_parts (patternDoc s (Some vars))
               (Flat (mkEnc (Some s) (Some vars))) eq_refl).
    destruct (resolved_flat (mkEnc (Some s) (Some vars))) as [-> ->]. simpl. rewrite Hm. simpl.
    unfold expandFields at 1. rewrite (Permutation_flat_map _ (sort_perm _ _)).
    rewrite flat_map_app.
    change (flat_map expandField ?l) with (expandFields l).
    by rewrite (proj1 (expandFields_variables vars)), expandFields_constRuns. }
  assert (Forall (fun f => to f <= from f /\ onDontCares m (rangeOf f)) V) as HV.
  { apply Forall_forall. intros f Hf.
    assert (rangeOf f ∈ variableSegments vars) as Hr.
    { rewrite <- variableEntries_ranges. apply list_elem_of_In, in_map, list_elem_of_In, Hf. }
    split.
    - assert (Forall (fun s => seg_to s <= seg_from s) (variableSegments vars)) as Hord.
      { unfold variableSegments. apply Forall_forall. intros x Hx.
        apply list_elem_of_In, in_flat_map in Hx as (v & _ & Hx).
        pose proof (parseLocationSegments_ordered (location v)) as Ho.
        rewrite Forall_forall in Ho. by apply Ho, list_elem_of_In. }
      rewrite Forall_forall in Hord. apply (Hord _ Hr).
    - rewrite Forall_forall in Hdc. by apply Hdc. }
  destruct (constRuns_spec m) as [Hin Hsorted].
  split.
  - eapply pairs_perm; [apply disjointRange_sym|symmetry; exact Hperm|].
    apply pairs_app.
    + apply (pairs_map disjointSegments rangeOf). fold V.
      unfold V. by rewrite variableEntries_ranges.
    + by apply below_nonOverlapping.
    + intros a b Ha Hb. rewrite Forall_forall in HV. destruct (HV a Ha) as [Hord Hon].
      apply Hin in Hb as (hi & lo & ((Hlo & Hlohi) & Hhi & Hfix & _) & ->).
      unfold disjointRange. simpl.
      destruct (decide (from a < lo)) as [|Hn1]; [by left|].
      destruct (decide (hi < to a)) as [|Hn2]; [by right|].
      exfalso.
      specialize (Hon (Z.max (to a) lo)). specialize (Hfix (Z.max (to a) lo)).
      unfold rangeOf in Hon. simpl in Hon.
      rewrite Hon in Hfix by lia. discriminate Hfix. lia.
  - rewrite Hperm. apply Forall_app. split.
    + eapply Forall_impl; [exact HV|]. intros f [Hord Hon]. unfold withinWord.
      pose proof (isDontCare_in_range m (to f) (Hon (to f) ltac:(simpl; lia))) as H1.
      pose proof (isDontCare_in_range m (from f) (Hon (from f) ltac:(simpl; lia))) as H2.
      unfold m in H1, H2. rewrite explode_length in H1, H2. lia.
    + apply Forall_forall. intros f Hf.
      apply Hin in Hf as (hi & lo & ((Hlo & Hlohi) & Hhi & _) & ->).
      unfold withinWord. simpl. unfold m in Hhi. rewrite explode_length in Hhi. lia.
Qed.

(** X6: When the variables of a record sit on pairwise disjoint ranges that
    cover only don't-care positions of its 16- or 32-character pattern, the
    layout built for it partitions the word: it is computed for the width
    of the pattern, it tiles the bits from the top one down to 0, and its
    widths add up to the width of the pattern. *)
Theorem filledFields_partition (s : string) (vars : list VariableSpec) :
  (String.length s = 16 \/ String.length s = 32)%nat ->
  ForallOrdPairs disjointSegments (variableSegments vars) ->
  Forall (onDontCares (JS.explode s)) (variableSegments vars) ->
  totalBitsOf (patternDoc s (Some vars)) = Z.of_nat (String.length s)
  /\ partitions (Z.of_nat (String.length s)) (filledFields (patternDoc s (Some vars)))
  /\ sumZ (width <$> filledFields (patternDoc s (Some vars))) = Z.of_nat (String.length s).
Proof.
  intros Hlen Hdisj Hdc.
  destruct (computeFields_disjoint s vars Hlen Hdisj Hdc) as [Hno Hin].
  assert (totalBitsOf (patternDoc s (Some vars)) = Z.of_nat (String.length s)) as HW.
  { unfold totalBitsOf, patternDoc, docMatch. simpl.
    destruct (Nat.eqb_spec (String.length s) 16) as [->|]; [done|].
    destruct Hlen as [?| ->]; done. }
  split; [done|]. unfold filledFields. rewrite HW.
  assert (chain (Z.of_nat (String.length s) - 1)
            (standardizeBitfieldFields (computeFields (patternDoc s (Some vars)))
               (Z.of_nat (String.length s))) 0) as Hchain.
  { apply standardizeBitfieldFields_chain; [lia|done|done]. }
  split.
  - apply chain_partitions; [lia|done].
  - rewrite (chain_sum _ _ _ Hchain); [lia|]. apply standardizeBitfieldFields_wellSized.
Qed.

Lemma swVariables_on_dontCares :
  ForallOrdPairs disjointSegments (variableSegments swVariables)
  /\ Forall (onDontCares (JS.explode swPattern)) (variableSegments swVariables).
Proof.
  split.
  - vm_compute variableSegments.
    repeat (constructor; [repeat (constructor; [unfold disjointSegments; simpl; lia|]);
                           constructor|]).
    constructor.
  - vm_compute variableSegments.
    repeat (constructor; [apply coversDontCares_spec; vm_compute; reflexivity|]).
    constructor.
Defined.

Lemma filledFields_partition_witness :
  (String.length swPattern = 16 \/ String.length swPattern = 32)%nat
  /\ (fun f => (label f, from f, to f)) <$> filledFields (patternDoc swPattern (Some swVariables))
     = [("imm", 31, 25); ("xs2", 24, 20); ("xs1", 19, 15); ("funct3=010", 14, 12);
        ("imm", 11, 7); ("opcode=0100011", 6, 0)]
  /\ partitions 32 (filledFields (patternDoc swPattern (Some swVariables))).
Proof.
  split; [right; reflexivity|]. split; [vm_compute; reflexivity|].
  exact (proj1 (proj2 (filledFields_partition swPattern swVariables
                         (or_intror eq_refl)
                         (proj1 swVariables_on_dontCares)
                         (proj2 swVariables_on_dontCares)))).
Defined.

(** ** The description handed to the renderer *)

Lemma runBits_explode (s : string) (hi lo : Z) :
  0 <= lo <= hi -> hi < Z.of_nat (String.length s) ->
  runBits (JS.explode s) hi lo
    = substring (String.length s - 1 - Z.to_nat hi) (Z.to_nat (hi - lo + 1)) s.
Proof.
  intros Hlohi Hhi. unfold runBits, JS.slice. rewrite explode_length.
  destruct (Z.ltb_spec (Z.of_nat (String.length s) - 1 - hi) 0); [lia|].
  destruct (Z.ltb_spec (Z.of_nat (String.length s) - lo) 0); [lia|].
  rewrite !Z.min_l by lia. rewrite join_take_drop_explode. f_equal; lia.
Qed.

Lemma dropChars_append (p s : string) : dropChars (String.length p) (p ++ s) = s.
Proof. induction p as [|c p IH]; simpl; [by destruct s|done]. Qed.

Lemma stringIndexOf_append (c : ascii) (p s : string) :
  hasChar c p = false ->
  stringIndexOf c (p ++ String c s) = Z.of_nat (String.length p).
Proof.
  induction p as [|a p IH]; simpl.
  - by rewrite Ascii.eqb_refl.
  - destruct (Ascii.eqb a c); simpl; [done|]. intros H. rewrite (IH H).
    destruct (Z.eqb_spec (Z.of_nat (String.length p)) (-1)); lia.
Qed.

Lemma append_length (p s : string) :
  String.length (p ++ s) = (String.length p + String.length s)%nat.
Proof. induction p as [|c p IH]; simpl; [done|]. by rewrite IH. Qed.

Lemma append_char_assoc (r : string) (c : ascii) (s : string) :
  ((r ++ String c EmptyString) ++ s)%string = (r ++ String c s)%string.
Proof. induction r as [|a r IH]; [done|]. change (String a ((r ++ String c "") ++ s) = String a (r ++ String c s))%string. by rewrite IH. Qed.

Lemma role_no_equals (hi lo : Z) : hasChar "=" (role hi lo) = false.
Proof. unfold role. repeat case_decide; done. Qed.

(** X7: For the renderer the label of a constant run is cut back to its
    literal bits, whatever its role; the entries of other kinds keep their
    label; the bit count of an entry is the width of the field. *)
Theorem regOf_names (s : string) (hi lo : Z) :
  maximalRun (JS.explode s) hi lo ->
  regOf (constField (JS.explode s) hi lo)
    = mkReg (runBits (JS.explode s) hi lo) (hi - lo + 1)
  /\ String.length (runBits (JS.explode s) hi lo) = Z.to_nat (hi - lo + 1)
  /\ (forall f, kind f <> "const" -> regOf f = mkReg (label f) (width f)).
Proof.
  intros (Hlohi & Hhi & _). rewrite explode_length in Hhi.
  assert (String.length (runBits (JS.explode s) hi lo) = Z.to_nat (hi - lo + 1)) as Hlen.
  { rewrite runBits_explode by done. apply substring_length. lia. }
  split; [|split; [done|]].
  - unfold regOf, constField. cbn [label kind width]. rewrite constLabel_role.
    set (bits := runBits (JS.explode s) hi lo) in *.
    change (String.eqb "const" "const") with true. cbv iota.
    change (role hi lo ++ "=" ++ bits)%string with (role hi lo ++ String "=" bits)%string.
    rewrite stringIndexOf_append by apply role_no_equals.
    rewrite append_length. cbn [String.length].
    destruct (Z.eqb_spec (Z.of_nat (String.length (role hi lo))) (-1)); [lia|].
    destruct (Z.ltb_spec (Z.of_nat (String.length (role hi lo)) + 1)
                (Z.of_nat (String.length (role hi lo) + S (String.length bits))));
      [|lia].
    simpl. f_equal. unfold stringSliceFrom. rewrite append_length. cbn [String.length].
    destruct (Z.ltb_spec (Z.of_nat (String.length (role hi lo)) + 1) 0); [lia|].
    rewrite Z.min_l by lia.
    replace (Z.to_nat (Z.of_nat (String.length (role hi lo)) + 1))
      with (String.length (role hi lo ++ "=")) by (rewrite append_length; simpl; lia).
    replace (role hi lo ++ String "=" bits)%string with ((role hi lo ++ "=") ++ bits)%string.
    + apply dropChars_append.
    + apply append_char_assoc.
  - intros f Hk. unfold regOf. by destruct (String.eqb_spec (kind f) "const").
Qed.

Lemma regOf_names_witness :
  maximalRun (JS.explode swPattern) 14 12
  /\ regOf (constField (JS.explode swPattern) 14 12) = mkReg "010" 3
  /\ bitfieldJSON (patternDoc swPattern (Some swVariables))
     = [mkReg "imm" 7; mkReg "xs2" 5; mkReg "xs1" 5; mkReg "010" 3; mkReg "imm" 5;
        mkReg "0100011" 7].
Proof.
  assert (maximalRun (JS.explode swPattern) 14 12) as Hrun.
  { split; [lia|]. split; [simpl; lia|]. split; [|split; right; reflexivity].
    intros b Hb. assert (b = 12 \/ b = 13 \/ b = 14) as [->|[->| ->]] by lia; reflexivity. }
  split; [exact Hrun|]. split; [|vm_compute; reflexivity].
  exact (proj1 (regOf_names swPattern 14 12 Hrun)).
Defined.

(** X8: For a record with a 16-character pattern the literals are still
    sliced as if the pattern had 32 characters: [opcode] and [funct3] are
    reported as empty strings, and [funct7] is read from the first seven
    characters of the pattern, bits 15 to 9. *)
Theorem deriveLiterals_compressed (s : string) (vars : option (list VariableSpec)) :
  String.length s = 16%nat ->
  deriveLiterals (patternDoc s vars)
    = {| opcode := Some ""; funct3 := Some "";
         funct7 := if allBits (substring 0 7 s) then Some (substring 0 7 s) else None |}.
Proof.
  intros Hlen. unfold deriveLiterals, patternDoc, docMatch. simpl.
  destruct (String.eqb_spec s "") as [->|_]; [done|]. simpl.
  unfold parseMatchBits. destruct (String.eqb_spec s "") as [->|_]; [done|].
  rewrite Hlen. simpl.
  unfold sliceBits, JS.slice. rewrite explode_length, Hlen. simpl.
  change (Z.to_nat ((32 - 25) `min` Z.of_nat 16 - (31 - 31) `min` Z.of_nat 16)) with 7%nat.
  change (Z.to_nat ((31 - 31) `min` Z.of_nat 16)) with 0%nat.
  rewrite (join_take_drop_explode s 0 7).
  unfold isBinary7. by rewrite substring_length by (rewrite Hlen; lia).
Qed.

Lemma deriveLiterals_compressed_witness :
  String.length "011-----------01" = 16%nat
  /\ deriveLiterals (patternDoc "011-----------01" None)
     = mkLiterals (Some "") (Some "") None.
Proof.
  split; [reflexivity|].
  exact (deriveLiterals_compressed "011-----------01" None eq_refl).
Defined.

(** ** Further properties of the location parser *)

Lemma parseLocationSegments_joined (parts : list string) :
  Forall (fun p => hasChar "|" p = false) parts ->
  parseLocationSegments (LString (joinWith "|" parts))
    = JS.sort cmpSegment (omap (fun p => parsePiece (JS.trim p)) parts).
Proof.
  intros Hall. destruct parts as [|p parts]; [done|].
  unfold parseLocationSegments, locationPieces, locationToString.
  rewrite split_joinWith by done.
  by rewrite omap_parsePiece_nonempty.
Qed.

Lemma segmentOrder_antisym (a b : Segment) :
  segmentOrder a b -> segmentOrder b a -> a = b.
Proof.
  destruct a as [fa ta], b as [fb tb]. unfold segmentOrder. simpl.
  intros H1 H2. f_equal; lia.
Qed.

(** On the same entries, in whatever order, the sort by segments gives the
    same array. *)
Lemma sort_segments_perm (l1 l2 : list Segment) :
  l1 ≡ₚ l2 -> JS.sort cmpSegment l1 = JS.sort cmpSegment l2.
Proof.
  intros Hp.
  assert (forall l, StronglySorted segmentOrder (JS.sort cmpSegment l)) as Hs.
  { intros l. eapply StronglySorted_weaken; [|apply sort_sorted].
    - intros a b. apply cmpSegment_before.
    - apply cmpSegment_total.
    - apply cmpSegment_trans. }
  apply (StronglySorted_unique_strong segmentOrder); [|apply Hs|apply Hs|].
  - intros a b _ _. apply segmentOrder_antisym.
  - by rewrite !sort_perm.
Qed.

(** X10: The ranges of a location may be written in any order: the parsed
    sequence is the same, and so is the field made from it. *)
Theorem parseLocationSegments_order_independent (parts1 parts2 : list string) :
  Forall (fun p => hasChar "|" p = false) parts1 ->
  parts1 ≡ₚ parts2 ->
  parseLocationSegments (LString (joinWith "|" parts1))
    = parseLocationSegments (LString (joinWith "|" parts2))
  /\ forall n, varField (mkVariable n (LString (joinWith "|" parts1)))
             = varField (mkVariable n (LString (joinWith "|" parts2))).
Proof.
  intros Hall Hp.
  assert (parseLocationSegments (LString (joinWith "|" parts1))
          = parseLocationSegments (LString (joinWith "|" parts2))) as Heq.
  { rewrite !parseLocationSegments_joined by (by rewrite <- ?Hp).
    apply sort_segments_perm. by rewrite Hp. }
  split; [done|]. intros n. unfold varField. cbn [location]. by rewrite Heq.
Qed.

Lemma parseLocationSegments_order_independent_witness :
  Forall (fun p => hasChar "|" p = false) ["11-7"; "31-25"]
  /\ ["11-7"; "31-25"] ≡ₚ ["31-25"; "11-7"]
  /\ parseLocationSegments (LString "11-7|31-25") = parseLocationSegments (LString "31-25|11-7").
Proof.
  assert (Forall (fun p => hasChar "|" p = false) ["11-7"; "31-25"]) as H
    by (repeat constructor).
  assert (["11-7"; "31-25"] ≡ₚ ["31-25"; "11-7"]) as Hp by apply Permutation_swap.
  split; [exact H|]. split; [exact Hp|].
  exact (proj1 (parseLocationSegments_order_independent _ _ H Hp)).
Defined.

(** *** Numbers as locations *)

Lemma trimStart_plain (s : string) : noWhiteSpace s = true -> JS.trimStart s = s.
Proof. destruct s as [|c r]; simpl; [done|]. by destruct (JS.isWhiteSpace c). Qed.

Lemma trimEnd_plain (s : string) : noWhiteSpace s = true -> JS.trimEnd s = s.
Proof.
  induction s as [|c r IH]; simpl; [done|].
  destruct (JS.isWhiteSpace c) eqn:Hc; simpl; [done|]. intros Hr. rewrite (IH Hr).
  by destruct r.
Qed.

Lemma trim_plain (s : string) : noWhiteSpace s = true -> JS.trim s = s.
Proof. intros H. unfold JS.trim. by rewrite trimStart_plain, trimEnd_plain. Qed.

Lemma digit_facts (c : ascii) :
  is_Some (JS.digitValue c) ->
  JS.isWhiteSpace c = false /\ Ascii.eqb c "|" = false /\ Ascii.eqb c "-" = false
  /\ Ascii.eqb c "+" = false.
Proof.
  intros [d Hd]. unfold JS.digitValue in Hd.
  destruct (Nat.leb_spec 48 (nat_of_ascii c)); simpl in Hd; [|done].
  destruct (Nat.leb_spec (nat_of_ascii c) 57); [|done].
  split; [|split; [|split]].
  - unfold JS.isWhiteSpace.
    destruct (Nat.leb_spec 9 (nat_of_ascii c)), (Nat.leb_spec (nat_of_ascii c) 13),
      (Nat.eqb_spec (nat_of_ascii c) 32), (Nat.eqb_spec (nat_of_ascii c) 160);
      simpl; try done; lia.
  - destruct (Ascii.eqb_spec c "|") as [->|]; [|done]. exfalso. clear -H H0. vm_compute in H, H0. lia.
  - destruct (Ascii.eqb_spec c "-") as [->|]; [|done]. exfalso. clear -H H0. vm_compute in H, H0. lia.
  - destruct (Ascii.eqb_spec c "+") as [->|]; [|done]. exfalso. clear -H H0. vm_compute in H, H0. lia.
Qed.

Lemma allDigits_plain (s : string) :
  allDigits s = true ->
  noWhiteSpace s = true /\ hasChar "|" s = false /\ hasChar "-" s = false.
Proof.
  induction s as [|c r IH]; simpl; [done|].
  case_bool_decide as Hc; simpl; [|done]. intros Hr.
  destruct (digit_facts c Hc) as (-> & -> & -> & _). simpl. by apply IH.
Qed.

Lemma string_of_uint_digits (d : Decimal.uint) :
  allDigits (NilEmpty.string_of_uint d) = true.
Proof. induction d; simpl; done. Qed.

Ltac digit_values :=
  repeat match goal with
  | |- context [Z.of_nat (nat_of_ascii ?c) - 48] =>
      let v := eval vm_compute in (Z.of_nat (nat_of_ascii c) - 48) in
      change (Z.of_nat (nat_of_ascii c) - 48) with v
  end.

Lemma of_uint_acc_digits (d : Decimal.uint) (p : positive) :
  Z.pos (Pos.of_uint_acc d p)
  = fold_left (fun acc x => 10 * acc + x)
      (JS.digitPrefix (NilEmpty.string_of_uint d)) (Z.pos p).
Proof.
  revert p. induction d; intros p; simpl; [done|..]; rewrite IHd; digit_values; f_equal; lia.
Qed.

Lemma of_uint_digits (d : Decimal.uint) :
  Z.of_uint d = JS.decimalValue (JS.digitPrefix (NilEmpty.string_of_uint d)).
Proof.
  unfold JS.decimalValue, Z.of_uint.
  induction d; simpl; digit_values; [done|exact IHd|..]; apply of_uint_acc_digits.
Qed.

Lemma parseInt_digits (d : Decimal.uint) :
  d <> Decimal.Nil ->
  JS.parseInt (NilEmpty.string_of_uint d) = Some (Z.of_uint d).
Proof.
  intros Hd. rewrite of_uint_digits. unfold JS.parseInt.
  destruct (allDigits_plain _ (string_of_uint_digits d)) as (Hws & _ & _).
  rewrite trimStart_plain by done.
  destruct d; [done|..]; simpl;
    match goal with
    | |- Some (1 * ?v) = Some ?w => f_equal; destruct v; reflexivity
    end.
Qed.

(** The decimal string of a number that is not negative, and its value
    read back. *)
Lemma numberToString_digits (n : JS.Integer) :
  0 <= JS.int_value n ->
  allDigits (JS.numberToString n) = true
  /\ JS.numberToString n <> ""
  /\ JS.parseInt (JS.numberToString n) = Some (JS.int_value n).
Proof.
  intros Hn. unfold JS.numberToString. destruct n as [[|p|p] Hsafe]; simpl in Hn |- *;
    [done| |lia].
  simpl. pose proof (Unsigned.to_uint_nonnil p) as Hnil.
  assert (NilZero.string_of_uint (Pos.to_uint p) = NilEmpty.string_of_uint (Pos.to_uint p))
    as -> by (by destruct (Pos.to_uint p)).
  split; [apply string_of_uint_digits|]. split.
  - by destruct (Pos.to_uint p).
  - rewrite parseInt_digits by done. unfold Z.of_uint. by rewrite Unsigned.of_to.
Qed.

Lemma locationPieces_plain (s : string) :
  noWhiteSpace s = true -> hasChar "|" s = false -> s <> "" ->
  locationPieces s = [s].
Proof.
  intros Hws Hbar Hne. unfold locationPieces.
  rewrite split_no_separator by done. simpl. rewrite trim_plain by done.
  by rewrite filter_cons_True, filter_nil.
Qed.

(** X12: A location given as a number [n], an integer a Number holds
    exactly, is a one-bit field at bit [n]; a negative number gives no
    range. *)
Theorem parseLocationSegments_number (n : JS.Integer) :
  parseLocationSegments (LNumber n)
  = if 0 <=? JS.int_value n then [mkSegment (JS.int_value n) (JS.int_value n)] else [].
Proof.
  destruct (Z.leb_spec 0 (JS.int_value n)) as [Hn|Hn].
  - destruct (numberToString_digits n Hn) as (Hd & Hne & Hp).
    destruct (allDigits_plain _ Hd) as (Hws & Hbar & Hdash).
    unfold parseLocationSegments, locationToString.
    rewrite locationPieces_plain by done. csimpl.
    assert (parsePiece (JS.numberToString n)
            = Some (mkSegment (JS.int_value n) (JS.int_value n))) as ->.
    { unfold parsePiece, pieceEndpoints. rewrite split_no_separator by done. simpl.
      rewrite trim_plain by done. rewrite Hp. simpl. unfold normalize. simpl.
      f_equal. f_equal; lia. }
    done.
  - destruct n as [[|p|p] Hsafe]; simpl in Hn; [lia|lia|].
    unfold parseLocationSegments, locationToString.
    change (JS.numberToString (JS.mkInteger (Z.neg p) Hsafe))
      with (String "-" (NilZero.string_of_uint (Pos.to_uint p))).
    pose proof (Unsigned.to_uint_nonnil p) as Hnil.
    assert (NilZero.string_of_uint (Pos.to_uint p) = NilEmpty.string_of_uint (Pos.to_uint p))
      as -> by (by destruct (Pos.to_uint p)).
    set (ds := NilEmpty.string_of_uint (Pos.to_uint p)).
    destruct (allDigits_plain ds (string_of_uint_digits _)) as (Hws & Hbar & Hdash).
    rewrite locationPieces_plain; [| by simpl | by simpl | done]. by csimpl.
Qed.

Lemma hasChar_append (c : ascii) (p s : string) :
  hasChar c (p ++ s) = hasChar c p || hasChar c s.
Proof. induction p as [|a p IH]; simpl; [done|]. by rewrite IH, orb_assoc. Qed.

Lemma noWhiteSpace_append (p s : string) :
  noWhiteSpace (p ++ s) = noWhiteSpace p && noWhiteSpace s.
Proof. induction p as [|a p IH]; simpl; [done|]. by rewrite IH, andb_assoc. Qed.

(** X13: A pair of bit indices, integers a Number holds exactly, shown by
    [bitRange] reads back, through the location parser, as the range
    between them; a string is shown as it is. *)
Theorem bitRange_parse (hi lo : JS.Integer) :
  0 <= JS.int_value hi -> 0 <= JS.int_value lo ->
  parseLocationSegments (LString (bitRange (RArray [hi; lo])))
    = [mkSegment (Z.max (JS.int_value hi) (JS.int_value lo))
                 (Z.min (JS.int_value hi) (JS.int_value lo))]
  /\ forall s, bitRange (RString s) = s.
Proof.
  intros Hhi Hlo. split; [|done].
  destruct (numberToString_digits hi Hhi) as (Hd1 & Hne1 & Hp1).
  destruct (numberToString_digits lo Hlo) as (Hd2 & Hne2 & Hp2).
  destruct (allDigits_plain _ Hd1) as (Hws1 & Hbar1 & Hdash1).
  destruct (allDigits_plain _ Hd2) as (Hws2 & Hbar2 & Hdash2).
  unfold bitRange, elementToString. simpl.
  set (H := JS.numberToString hi) in *. set (L := JS.numberToString lo) in *.
  unfold parseLocationSegments, locationToString.
  rewrite locationPieces_plain.
  - csimpl.
    assert (parsePiece (H ++ "-" ++ L)
            = Some (mkSegment (Z.max (JS.int_value hi) (JS.int_value lo))
                              (Z.min (JS.int_value hi) (JS.int_value lo)))) as ->;
      [|done].
    unfold parsePiece, pieceEndpoints.
    change (H ++ "-" ++ L)%string with (H ++ String "-" L)%string.
    rewrite split_append by done. rewrite split_no_separator by done. simpl.
    rewrite !trim_plain by done. rewrite Hp1, Hp2.
    by destruct (String.eqb_spec L "").
  - rewrite !noWhiteSpace_append, Hws1, Hws2. done.
  - rewrite !hasChar_append, Hbar1, Hbar2. done.
  - destruct H; [done|]. done.
Qed.

Lemma bitRange_parse_witness :
  0 <= 7 /\ 0 <= 11
  /\ bitRange (RArray [num 7; num 11]) = "7-11"
  /\ parseLocationSegments (LString "7-11") = [mkSegment 11 7].
Proof.
  split; [lia|]. split; [lia|]. split; [reflexivity|].
  exact (proj1 (bitRange_parse (num 7) (num 11) ltac:(simpl; lia) ltac:(simpl; lia))).
Defined.

(** ** Further properties of the format classifier *)

Lemma classify_ext (vars1 vars2 : gmap string string) :
  (forall k, classifierName k -> vars1 !! k = vars2 !! k) ->
  classify vars1 = classify vars2.
Proof.
  intros H. unfold classify. cbv zeta.
  rewrite (H "xd"), (H "xs1"), (H "xs2"), (H "imm"); [done|unfold classifierName; auto..].
Qed.

Lemma varsOf_snoc (l : list VariableSpec) (v : VariableSpec) :
  varsOf (l ++ [v]) = <[name v := locationToString (location v)]> (varsOf l).
Proof. unfold varsOf, fromEntries. by rewrite map_app, fold_left_app. Qed.

Lemma varsOf_filter (P : VariableSpec -> Prop) `{!forall v, Decision (P v)}
    (l : list VariableSpec) (k : string) :
  (forall v, name v = k -> P v) ->
  varsOf (filter P l) !! k = varsOf l !! k.
Proof.
  intros HP. induction l as [|v l IH] using rev_ind; [done|].
  rewrite filter_app, filter_cons, filter_nil, varsOf_snoc.
  destruct (decide (name v = k)) as [Hk|Hk].
  - rewrite decide_True by auto. rewrite varsOf_snoc. subst k.
    by rewrite !lookup_insert_eq.
  - rewrite lookup_insert_ne by done. destruct (decide (P v)).
    + rewrite varsOf_snoc, lookup_insert_ne by done. apply IH.
    + rewrite app_nil_r. apply IH.
Qed.

(** X14: Only the variables named xd, xs1, xs2 and imm count for the format
    tag: dropping all the others leaves it unchanged; and a name declared
    again replaces its earlier declarations. *)
Theorem detectEncodingType_relevant_variables
    (m : option string) (variables : list VariableSpec) (v : VariableSpec) :
  detectEncodingType (variablesDoc m variables)
    = detectEncodingType (variablesDoc m (filter (fun v => classifierName (name v)) variables))
  /\ detectEncodingType (variablesDoc m (variables ++ [v]))
     = detectEncodingType
         (variablesDoc m (filter (fun w => name w <> name v) variables ++ [v])).
Proof.
  unfold detectEncodingType, variablesDoc, docVariables. simpl. split.
  - apply classify_ext. intros k Hk. symmetry. apply varsOf_filter. by intros w ->.
  - apply classify_ext. intros k _. rewrite !varsOf_snoc.
    destruct (decide (name v = k)) as [->|Hk].
    + by rewrite !lookup_insert_eq.
    + rewrite !lookup_insert_ne by done. symmetry. apply varsOf_filter.
      intros w ->. done.
Qed.

Lemma varsOf_list_to_map (l : list VariableSpec) :
  varsOf l
  = list_to_map (rev (map (fun v => (name v, locationToString (location v))) l)).
Proof.
  induction l as [|v l IH] using rev_ind; [done|].
  rewrite varsOf_snoc, IH, map_app, rev_app_distr. done.
Qed.

(** X15: When no name is declared twice, the order in which the variables are
    listed does not change the format tag. *)
Theorem detectEncodingType_order_independent
    (m : option string) (variables1 variables2 : list VariableSpec) :
  NoDup (name <$> variables1) ->
  variables1 ≡ₚ variables2 ->
  detectEncodingType (variablesDoc m variables1)
    = detectEncodingType (variablesDoc m variables2).
Proof.
  intros Hnd Hp. unfold detectEncodingType, variablesDoc, docVariables. simpl.
  f_equal. rewrite !varsOf_list_to_map. apply list_to_map_proper.
  - assert ((rev (map (fun v => (name v, locationToString (location v))) variables1)).*1
            ≡ₚ name <$> variables1) as ->; [|done].
    etrans; [apply fmap_Permutation; symmetry; apply Permutation_rev|].
    clear. induction variables1 as [|v l IH]; [done|].
    csimpl. by rewrite IH.
  - etrans; [symmetry; apply Permutation_rev|].
    etrans; [apply Permutation_map, Hp|apply Permutation_rev].
Qed.

Lemma detectEncodingType_order_independent_witness :
  NoDup (name <$> storeVariables)
  /\ storeVariables ≡ₚ rev storeVariables
  /\ detectEncodingType (variablesDoc None (rev storeVariables)) = Some "S".
Proof.
  assert (NoDup (name <$> storeVariables)) as Hnd.
  { apply (bool_decide_unpack (NoDup (name <$> storeVariables))). vm_compute. exact I. }
  assert (storeVariables ≡ₚ rev storeVariables) as Hp by apply Permutation_rev.
  split; [exact Hnd|]. split; [exact Hp|].
  rewrite <- (detectEncodingType_order_independent None _ _ Hnd Hp).
  vm_compute. reflexivity.
Defined.

(** ** [slugifyExtension] *)

Lemma slugChar_facts (c : ascii) :
  isSlugChar c = true ->
  isDash c = false /\ JS.isWhiteSpace c = false /\ toLowerChar c = c.
Proof.
  intros H. split; [|split].
  - unfold isDash. destruct (Ascii.eqb_spec c "-") as [->|]; [|done].
    vm_compute in H. done.
  - unfold isSlugChar in H. unfold JS.isWhiteSpace.
    destruct (Nat.leb_spec 97 (nat_of_ascii c)), (Nat.leb_spec (nat_of_ascii c) 122),
      (Nat.leb_spec 48 (nat_of_ascii c)), (Nat.leb_spec (nat_of_ascii c) 57);
      simpl in H; try done;
      destruct (Nat.leb_spec 9 (nat_of_ascii c)), (Nat.leb_spec (nat_of_ascii c) 13),
        (Nat.eqb_spec (nat_of_ascii c) 32), (Nat.eqb_spec (nat_of_ascii c) 160);
      simpl; try done; lia.
  - unfold isSlugChar in H. unfold toLowerChar.
    destruct (Nat.leb_spec 97 (nat_of_ascii c)), (Nat.leb_spec (nat_of_ascii c) 122),
      (Nat.leb_spec 48 (nat_of_ascii c)), (Nat.leb_spec (nat_of_ascii c) 57);
      simpl in H; try done;
      destruct (Nat.leb_spec 65 (nat_of_ascii c)), (Nat.leb_spec (nat_of_ascii c) 90),
        (Nat.leb_spec 192 (nat_of_ascii c)), (Nat.leb_spec (nat_of_ascii c) 214),
        (Nat.leb_spec 216 (nat_of_ascii c)), (Nat.leb_spec (nat_of_ascii c) 222);
      simpl; try done; lia.
Qed.

Lemma slugOrDash_facts (c : ascii) :
  isSlugChar c || isDash c = true ->
  JS.isWhiteSpace c = false /\ toLowerChar c = c.
Proof.
  destruct (isSlugChar c) eqn:Hs; simpl.
  - intros _. by destruct (slugChar_facts c Hs) as (_ & ? & ?).
  - unfold isDash. destruct (Ascii.eqb_spec c "-") as [->|]; done.
Qed.






Lemma valid_plain (s : string) :
  allSlugOrDash s = true -> noWhiteSpace s = true /\ toLowerCase s = s.
Proof.
  induction s as [|c r IH]; simpl; [done|].
  intros [Hc Hr]%andb_prop. destruct (slugOrDash_facts c Hc) as [-> ->].
  destruct (IH Hr) as [-> ->]. done.
Qed.

Lemma replaceRuns_fixed (b : bool) (s : string) :
  allSlugOrDash s = true -> noDoubleDash s = true ->
  (b = true -> startsWithDash s = false) ->
  replaceRuns b s = s.
Proof.
  revert b. induction s as [|c r IH]; intros b; simpl; [done|].
  intros [Hc Hr]%andb_prop [Hd Hn]%andb_prop Hb.
  destruct (isSlugChar c) eqn:Hs.
  - f_equal. apply IH; [done|done|done].
  - simpl in Hc. rewrite Hc in Hd. simpl in Hd. apply negb_true_iff in Hd.
    destruct b; [by rewrite Hb in Hc|].
    unfold isDash in Hc. apply Ascii.eqb_eq in Hc as ->. f_equal. by apply IH.
Qed.

Lemma dropLeadingDashes_fixed (s : string) :
  startsWithDash s = false -> dropLeadingDashes s = s.
Proof. destruct s as [|c r]; simpl; [done|]. by intros ->. Qed.

Lemma dropTrailingDashes_fixed (s : string) :
  endsWithDash s = false -> dropTrailingDashes s = s.
Proof.
  induction s as [|c r IH]; [done|].
  destruct r as [|c' r'].
  - simpl. by intros ->.
  - intros H. change (endsWithDash (String c (String c' r')))
      with (endsWithDash (String c' r')) in H.
    change (dropTrailingDashes (String c (String c' r')))
      with (match dropTrailingDashes (String c' r') with
            | EmptyString => if isDash c then EmptyString else String c EmptyString
            | r'' => String c r''
            end).
    by rewrite (IH H).
Qed.

Lemma slugifyExtension_fixed (s : string) :
  validSlug s = true -> slugifyExtension s = s.
Proof.
  unfold validSlug. intros H.
  apply andb_prop in H as [H He]. apply andb_prop in H as [H Hs].
  apply andb_prop in H as [H Hn]. apply andb_prop in H as [Hne Ha].
  apply negb_true_iff in Hs, He, Hne.
  destruct (valid_plain s Ha) as [Hws Hlow].
  unfold slugifyExtension.
  rewrite trim_plain, Hlow, replaceRuns_fixed, dropLeadingDashes_fixed,
    dropTrailingDashes_fixed by done.
  by rewrite Hne.
Qed.







(** X17: A well-formed slug is its own slug. *)
Theorem slugifyExtension_fixed_point (s : string) :
  validSlug s = true -> slugifyExtension s = s.
Proof. apply slugifyExtension_fixed. Qed.

Lemma slugifyExtension_fixed_point_witness :
  validSlug "zvfbfmin" = true /\ slugifyExtension "zvfbfmin" = "zvfbfmin".
Proof.
  split; [reflexivity|]. exact (slugifyExtension_fixed_point "zvfbfmin" eq_refl).
Defined.

(** ** The index of extensions *)

Lemma hasEntry_names (name : string) (m : list ExtensionEntry) :
  hasEntry name m = true <-> name ∈ ext_name <$> m.
Proof.
  unfold hasEntry. induction m as [|e r IH].
  - split; [done|by intros ?%elem_of_nil].
  - cbn [existsb]. rewrite orb_true_iff, IH, fmap_cons, elem_of_cons.
    destruct (String.eqb_spec (ext_name e) name) as [Heq|Hne].
    + split; intros _; by left.
    + split; [intros [?|?]; [done|by right]|intros [?|?]; [congruence|by right]].
Qed.

Lemma pushTo_names (name : string) (inst : Instruction) (m : list ExtensionEntry) :
  ext_name <$> pushTo name inst m = ext_name <$> m.
Proof.
  induction m as [|e r IH]; [done|]. cbn [pushTo].
  destruct (String.eqb (ext_name e) name); rewrite !fmap_cons; [done|]. by rewrite IH.
Qed.

Lemma pushTo_absent (name : string) (inst : Instruction) (m : list ExtensionEntry) :
  name ∉ ext_name <$> m -> pushTo name inst m = m.
Proof.
  induction m as [|e r IH]; [done|]. cbn [pushTo].
  rewrite fmap_cons, not_elem_of_cons. intros [Hne Hr].
  destruct (String.eqb_spec (ext_name e) name); [done|]. by rewrite IH.
Qed.

Lemma pushTo_present (name : string) (inst : Instruction) (m : list ExtensionEntry) :
  orUnknown (extension inst) = name ->
  name ∈ ext_name <$> m ->
  Forall (fun e => ext_instructions e <> []
                   /\ Forall (fun i => orUnknown (extension i) = ext_name e)
                             (ext_instructions e)) m ->
  Forall (fun e => ext_instructions e <> []
                   /\ Forall (fun i => orUnknown (extension i) = ext_name e)
                             (ext_instructions e)) (pushTo name inst m)
  /\ concat (ext_instructions <$> pushTo name inst m)
     ≡ₚ inst :: concat (ext_instructions <$> m).
Proof.
  intros <-. induction m as [|e r IH]; [by intros ?%elem_of_nil|]. cbn [pushTo].
  rewrite fmap_cons, elem_of_cons. intros Hin Hall.
  inversion Hall as [|? ? [Hne He] Hr]; subst.
  destruct (String.eqb_spec (ext_name e) (orUnknown (extension inst))) as [Heq|Hneq].
  - split.
    + constructor; [|done]. simpl. split; [by destruct (ext_instructions e)|].
      apply Forall_app. split; [done|]. by constructor.
    + rewrite !fmap_cons. cbn [concat ext_instructions].
      rewrite <- app_assoc. cbn [app]. by rewrite <- Permutation_middle.
  - destruct Hin as [Hin|Hin]; [done|]. destruct (IH Hin Hr) as [IH1 IH2]. split.
    + by constructor.
    + rewrite !fmap_cons. cbn [concat]. rewrite IH2. by rewrite <- Permutation_middle.
Qed.

Section ExtensionFacts.
Context (describe : string -> option string) (localeCompare : string -> string -> Z).

Lemma groupStep_grouped (m : list ExtensionEntry) (seen : list Instruction)
    (inst : Instruction) :
  grouped m seen -> grouped (groupStep describe m inst) (seen ++ [inst]).
Proof.
  intros (Hnd & Hall & Hperm). unfold groupStep.
  set (name := orUnknown (extension inst)).
  destruct (hasEntry name m) eqn:Hhas.
  - apply hasEntry_names in Hhas.
    destruct (pushTo_present name inst m eq_refl Hhas Hall) as [H1 H2].
    split; [by rewrite pushTo_names|]. split; [done|].
    rewrite H2, Hperm. apply Permutation_cons_append.
  - assert (name ∉ ext_name <$> m) as Hnot.
    { intros Hin. apply hasEntry_names in Hin. congruence. }
    set (new := mkEntry name (orUnknown (extensionSlug inst)) (describe name) [] None).
    assert (pushTo name inst (m ++ [new])
            = (m ++ [mkEntry name (orUnknown (extensionSlug inst)) (describe name)
                       [inst] None])%list) as ->.
    { subst new. clear -Hnot. induction m as [|e r IH].
      - simpl. by rewrite String.eqb_refl.
      - rewrite fmap_cons, not_elem_of_cons in Hnot. destruct Hnot as [Hne Hr].
        cbn [app pushTo].
        destruct (String.eqb_spec (ext_name e) name); [done|]. by rewrite IH. }
    split; [|split].
    + rewrite fmap_app. apply NoDup_app. split; [done|]. split.
      * intros x Hx [->|[]%elem_of_nil]%elem_of_cons. done.
      * repeat constructor. by intros ?%elem_of_nil.
    + apply Forall_app. split; [done|]. constructor; [|done]. simpl.
      split; [done|]. by constructor.
    + rewrite fmap_app, concat_app. simpl. by rewrite Hperm.
Qed.

Lemma fold_groupStep_grouped (l : list Instruction) (m : list ExtensionEntry)
    (seen : list Instruction) :
  grouped m seen -> grouped (fold_left (groupStep describe) l m) (seen ++ l).
Proof.
  revert m seen. induction l as [|inst l IH]; intros m seen H; simpl.
  - by rewrite app_nil_r.
  - replace (seen ++ inst :: l)%list with ((seen ++ [inst]) ++ l)%list by by rewrite <- app_assoc.
    by apply IH, groupStep_grouped.
Qed.

(** X18: In the index of extensions every instruction is listed once, under
    the entry of its extension ("unknown" when it has none): the names of
    the entries are distinct, no entry is empty, each entry holds only
    instructions of its extension and counts them, and the entries together
    hold the instructions given, none lost and none repeated. *)
Theorem extensionsList_partition (instructions : list Instruction) :
  let list := extensionsList describe localeCompare instructions in
  NoDup (ext_name <$> list)
  /\ Forall (fun e => ext_instructions e <> []
                      /\ Forall (fun i => orUnknown (extension i) = ext_name e)
                                (ext_instructions e)
                      /\ ext_count e = Some (Z.of_nat (length (ext_instructions e)))) list
  /\ concat (ext_instructions <$> list) ≡ₚ instructions.
Proof.
  intros list. subst list. unfold extensionsList.
  destruct (fold_groupStep_grouped instructions [] []) as (Hnd & Hall & Hperm).
  { split; [constructor|]. split; [constructor|done]. }
  simpl in Hperm.
  set (m := fold_left (groupStep describe) instructions []) in *.
  assert (ext_name <$> map (finishEntry localeCompare) m = ext_name <$> m) as Hnames.
  { clear. induction m as [|e r IH]; [done|]. csimpl. by rewrite IH. }
  split; [|split].
  - rewrite sort_perm, Hnames. done.
  - rewrite sort_perm. apply Forall_forall. intros e He.
    apply list_elem_of_In, in_map_iff in He as (e0 & <- & He0).
    apply list_elem_of_In in He0. rewrite Forall_forall in Hall.
    destruct (Hall e0 He0) as [Hne Hext]. simpl. split; [|split; [|done]].
    + intros Hnil. apply Hne. apply Permutation_nil.
      rewrite <- Hnil. apply sort_perm.
    + by rewrite sort_perm.
  - rewrite sort_perm. rewrite <- Hperm. clear.
    induction m as [|e r IH]; [done|]. csimpl. by rewrite sort_perm, IH.
Qed.
End ExtensionFacts.

(** ** Fields and literals of one record *)

Lemma explode_elem (s : string) (x : string) :
  x ∈ JS.explode s -> exists c, x = String c EmptyString /\ c ∈ list_ascii_of_string s.
Proof.
  induction s as [|a r IH]; simpl; [by intros ?%elem_of_nil|].
  intros [->|Hx]%elem_of_cons.
  - exists a. split; [done|apply list_elem_of_here].
  - destruct (IH Hx) as (c & -> & Hc). exists c. split; [done|by apply list_elem_of_further].
Qed.

Lemma patternChars_elem (s : string) (c : ascii) :
  patternChars s = true -> c ∈ list_ascii_of_string s ->
  isBit c = true \/ c = "-"%char.
Proof.
  induction s as [|a r IH]; simpl; [by intros _ ?%elem_of_nil|].
  intros [Ha Hr]%andb_prop [->|Hc]%elem_of_cons; [|by apply IH].
  apply orb_prop in Ha as [Ha|Ha]; [by left|]. right. by apply Ascii.eqb_eq.
Qed.

Lemma allBits_join (l : list string) :
  Forall (fun x => exists c, x = String c EmptyString /\ isBit c = true) l ->
  allBits (JS.join l) = true.
Proof.
  induction 1 as [|x r (c & -> & Hc) _ IH]; [done|].
  change (JS.join (String c EmptyString :: r)) with (String c (JS.join r)).
  cbn [allBits]. by rewrite Hc, IH.
Qed.

(** The symbols of a run of a pattern written with 0, 1 and "-" are bits. *)
Lemma runBits_binary (s : string) (hi lo : Z) :
  patternChars s = true ->
  0 <= lo <= hi -> hi < Z.of_nat (String.length s) ->
  (forall b, lo <= b <= hi -> isDontCare (symbolAt (JS.explode s) b) = false) ->
  allBits (runBits (JS.explode s) hi lo) = true.
Proof.
  intros Hpat Hlohi Hhi Hfix. rewrite <- explode_length in Hhi.
  destruct (runSymbols_lookup (JS.explode s) hi lo Hlohi Hhi) as [Hlen Hlook].
  apply allBits_join. apply Forall_forall. intros x Hx.
  apply list_elem_of_lookup in Hx as [i Hi].
  assert (Z.of_nat i <= hi - lo) as Hi'.
  { apply lookup_lt_Some in Hi. change (JS.slice _ _ _) with (runSymbols (JS.explode s) hi lo) in Hi.
    lia. }
  change (JS.slice _ _ _ !! i = Some x) with (runSymbols (JS.explode s) hi lo !! i = Some x) in Hi.
  rewrite (Hlook i Hi') in Hi.
  specialize (Hfix (hi - Z.of_nat i) ltac:(lia)). rewrite Hi in Hfix. simpl in Hfix.
  assert (x ∈ JS.explode s) as Hin.
  { unfold symbolAt, JS.index in Hi. destruct (_ <? 0); [done|].
    by eapply list_elem_of_lookup_2. }
  apply explode_elem in Hin as (c & -> & Hc). exists c. split; [done|].
  destruct (patternChars_elem s c Hpat Hc) as [Hb|Hd]; [done|]. by subst c.
Qed.

Lemma label_role (hi lo : Z) (bits b : string) :
  constLabel hi lo bits = ("opcode=" ++ b)%string
  \/ constLabel hi lo bits = ("funct3=" ++ b)%string
  \/ constLabel hi lo bits = ("funct7=" ++ b)%string ->
  bits = b
  /\ (constLabel hi lo bits = ("opcode=" ++ b)%string -> hi = 6 /\ lo = 0)
  /\ (constLabel hi lo bits = ("funct3=" ++ b)%string -> hi = 14 /\ lo = 12)
  /\ (constLabel hi lo bits = ("funct7=" ++ b)%string -> hi = 31 /\ lo = 25).
Proof.
  unfold constLabel.
  destruct (Z.eqb_spec hi 31), (Z.eqb_spec lo 25); cbn [andb];
    [intros [H|[H|H]]; cbn in H; simplify_eq; repeat split; intros; done || discriminate|..];
    (destruct (Z.eqb_spec hi 14), (Z.eqb_spec lo 12); cbn [andb];
     [intros [H|[H|H]]; cbn in H; simplify_eq; repeat split; intros; done || discriminate|..]);
    (destruct (Z.eqb_spec hi 6), (Z.eqb_spec lo 0); cbn [andb];
     intros [H|[H|H]]; cbn in H; simplify_eq; repeat split; intros; done || discriminate).
Qed.

(** X9: For a record with a 32-character pattern written with 0, 1 and "-":
    whenever [computeFields] lists a constant field labelled opcode=b,
    funct3=b or funct7=b, the derived literal of that name is b. *)
Theorem literals_agree_with_fields
    (s : string) (vars : option (list VariableSpec)) (f : Field) (b : string) :
  String.length s = 32%nat ->
  patternChars s = true ->
  f ∈ computeFields (patternDoc s vars) ->
  isConst f ->
  (label f = ("opcode=" ++ b)%string -> opcode (deriveLiterals (patternDoc s vars)) = Some b)
  /\ (label f = ("funct3=" ++ b)%string -> funct3 (deriveLiterals (patternDoc s vars)) = Some b)
  /\ (label f = ("funct7=" ++ b)%string -> funct7 (deriveLiterals (patternDoc s vars)) = Some b).
Proof.
  intros Hlen Hpat Hf Hconst.
  assert (parseMatchBits s = Some (JS.explode s)) as Hm.
  { unfold parseMatchBits. destruct (String.eqb_spec s "") as [->|]; [done|]. by rewrite Hlen. }
  assert (f ∈ constRuns (JS.explode s)) as Hrun.
  { assert (f ∈ filter isConst (computeFields (patternDoc s vars))) as Hin
      by (by apply list_elem_of_filter).
    rewrite (computeFields_consts (patternDoc s vars) (Flat (mkEnc (Some s) vars)) eq_refl)
      in Hin.
    destruct (resolved_flat (mkEnc (Some s) vars)) as [Hr _]. rewrite Hr in Hin.
    simpl in Hin. by rewrite Hm in Hin. }
  apply (proj1 (constRuns_spec _)) in Hrun as (hi & lo & (Hlohi & Hhi & Hfix & _) & ->).
  rewrite explode_length in Hhi.
  assert (deriveLiterals (patternDoc s vars)
          = {| opcode := Some (sliceBits (JS.explode s) 6 0);
               funct3 := Some (sliceBits (JS.explode s) 14 12);
               funct7 := if isBinary7 (sliceBits (JS.explode s) 31 25)
                         then Some (sliceBits (JS.explode s) 31 25) else None |}) as ->.
  { unfold deriveLiterals, patternDoc, docMatch. simpl.
    destruct (String.eqb_spec s "") as [->|]; [done|]. simpl. by rewrite Hm. }
  assert (forall h l, sliceBits (JS.explode s) h l = runBits (JS.explode s) h l) as Hslice.
  { intros h l. unfold sliceBits, runBits. rewrite explode_length, Hlen.
    by replace (Z.of_nat 32 - 1 - h) with (31 - h) by lia. }
  simpl. split; [|split]; intros Hlab.
  - destruct (label_role hi lo _ b (or_introl Hlab)) as (<- & Ho & _).
    destruct (Ho Hlab) as [-> ->]. by rewrite Hslice.
  - destruct (label_role hi lo _ b (or_intror (or_introl Hlab))) as (<- & _ & H3 & _).
    destruct (H3 Hlab) as [-> ->]. by rewrite Hslice.
  - destruct (label_role hi lo _ b (or_intror (or_intror Hlab))) as (<- & _ & _ & H7).
    destruct (H7 Hlab) as [-> ->]. rewrite Hslice.
    unfold isBinary7. rewrite runBits_binary by (done || lia).
    rewrite runBits_explode by lia. rewrite substring_length by (rewrite Hlen; simpl; lia).
    done.
Qed.

Lemma literals_agree_with_fields_witness :
  String.length "0000000----------000-----0110011" = 32%nat
  /\ funct7 (deriveLiterals addDoc) = Some "0000000".
Proof.
  split; [reflexivity|].
  refine (proj2 (proj2 (literals_agree_with_fields
            "0000000----------000-----0110011"
            (Some [mkVariable "xs2" (LString "24-20"); mkVariable "xs1" (LString "19-15");
                   mkVariable "xd" (LString "11-7")])
            (constField (JS.explode "0000000----------000-----0110011") 31 25)
            "0000000" eq_refl eq_refl _ eq_refl)) eq_refl).
  vm_compute. apply list_elem_of_here.
Defined.

(** ** White space around the pieces of a location *)

Lemma trimStart_white (w s : string) :
  allWhiteSpace w = true -> JS.trimStart (w ++ s) = JS.trimStart s.
Proof.
  induction w as [|c r IH]; [done|]. cbn [allWhiteSpace].
  intros [Hc Hr]%andb_prop. simpl. rewrite Hc. by apply IH.
Qed.

Lemma trimEnd_white (w : string) : allWhiteSpace w = true -> JS.trimEnd w = "".
Proof.
  induction w as [|c r IH]; [done|]. cbn [allWhiteSpace].
  intros [Hc Hr]%andb_prop. cbn [JS.trimEnd]. by rewrite (IH Hr), Hc.
Qed.

Lemma trimEnd_append_white (s w : string) :
  allWhiteSpace w = true -> JS.trimEnd (s ++ w) = JS.trimEnd s.
Proof.
  intros Hw. induction s as [|c r IH]; [by apply trimEnd_white|].
  simpl. by rewrite IH.
Qed.

Lemma trim_append_white (s w : string) :
  allWhiteSpace w = true -> JS.trim (s ++ w) = JS.trim s.
Proof.
  intros Hw. unfold JS.trim. induction s as [|c r IH].
  - change (EmptyString ++ w)%string with w.
    assert (JS.trimStart w = "") as ->; [|done].
    clear -Hw. induction w as [|a w IH]; [done|]. cbn [allWhiteSpace] in Hw.
    apply andb_prop in Hw as [Ha Hw]. simpl. rewrite Ha. by apply IH.
  - simpl. destruct (JS.isWhiteSpace c); [done|].
    by apply (trimEnd_append_white (String c r)).
Qed.

Lemma trim_padding (p q : string) : padding p q -> JS.trim q = JS.trim p.
Proof.
  intros (w1 & w2 & H1 & H2 & ->). unfold JS.trim at 1. rewrite trimStart_white by done.
  by apply trim_append_white.
Qed.

Lemma white_no_bar (w : string) : allWhiteSpace w = true -> hasChar "|" w = false.
Proof.
  induction w as [|c r IH]; [done|]. cbn [allWhiteSpace hasChar].
  intros [Hc Hr]%andb_prop. rewrite (IH Hr), orb_false_r.
  destruct (Ascii.eqb_spec c "|") as [->|]; [discriminate Hc|done].
Qed.

(** X11: White space around the pieces of a location does not change the
    segments [parseLocationSegments] answers. *)
Theorem parseLocationSegments_padding (parts padded : list string) :
  Forall (fun p => hasChar "|" p = false) parts ->
  Forall2 padding parts padded ->
  parseLocationSegments (LString (joinWith "|" padded))
  = parseLocationSegments (LString (joinWith "|" parts)).
Proof.
  intros Hbar Hpad.
  assert (Forall (fun p => hasChar "|" p = false) padded) as Hbar'.
  { clear -Hbar Hpad. induction Hpad as [|p q ps qs (w1 & w2 & H1 & H2 & ->) _ IH];
      [done|]. inversion Hbar as [|? ? Hp Hps]; subst. constructor; [|by apply IH].
    by rewrite !hasChar_append, Hp, !white_no_bar. }
  rewrite !parseLocationSegments_joined by done. f_equal.
  clear -Hpad. induction Hpad as [|p q ps qs Hpq _ IH]; [done|].
  csimpl. by rewrite (trim_padding p q Hpq), IH.
Qed.

Lemma parseLocationSegments_padding_witness :
  parseLocationSegments (LString " 31-25 |7  ")
  = parseLocationSegments (LString "31-25|7").
Proof.
  apply (parseLocationSegments_padding ["31-25"; "7"] [" 31-25 "; "7  "]).
  - by repeat constructor.
  - constructor; [by exists " ", " "|]. constructor; [by exists "", "  "|]. constructor.
Defined.

(** ** The parser against the reading of a location *)

(** *** Characters *)

Lemma blank_isWhiteSpace (c : ascii) : blank c <-> JS.isWhiteSpace c = true.
Proof.
  unfold blank, JS.isWhiteSpace. rewrite !elem_of_cons, elem_of_nil.
  destruct (Nat.leb_spec 9 (nat_of_ascii c)), (Nat.leb_spec (nat_of_ascii c) 13),
    (Nat.eqb_spec (nat_of_ascii c) 32), (Nat.eqb_spec (nat_of_ascii c) 160);
    simpl; split; try done; try lia; intros _; lia.
Qed.

Lemma blankText_allWhiteSpace (s : string) : blankText s <-> allWhiteSpace s = true.
Proof.
  unfold blankText. induction s as [|c r IH]; simpl.
  - split; [done|]. intros _. constructor.
  - rewrite Forall_cons, andb_true_iff, IH, blank_isWhiteSpace. done.
Qed.

Lemma digitOf_digitValue (c : ascii) : digitOf c = JS.digitValue c.
Proof. destruct c as [[|] [|] [|] [|] [|] [|] [|] [|]]; reflexivity. Qed.

(** *** Trimming *)

Lemma append_cons (c : ascii) (r s : string) :
  (String c r ++ s)%string = String c (r ++ s)%string.
Proof. reflexivity. Qed.

Lemma append_empty_r (s : string) : (s ++ "")%string = s.
Proof. induction s as [|c r IH]; [done|]. by rewrite append_cons, IH. Qed.

Lemma append_assoc_string (a b c : string) : ((a ++ b) ++ c = a ++ (b ++ c))%string.
Proof. induction a as [|x a IH]; [done|]. by rewrite !append_cons, IH. Qed.

Lemma allWhiteSpace_append (a b : string) :
  allWhiteSpace (a ++ b) = allWhiteSpace a && allWhiteSpace b.
Proof. induction a as [|x a IH]; simpl; [done|]. by rewrite IH, andb_assoc. Qed.

Lemma trimStart_split (s : string) :
  exists ws, allWhiteSpace ws = true /\ s = (ws ++ JS.trimStart s)%string.
Proof.
  induction s as [|c r (ws & Hws & Hr)]; [by exists ""|]. simpl.
  destruct (JS.isWhiteSpace c) eqn:Hc.
  - exists (String c ws). simpl. rewrite Hc, Hws. split; [done|].
    by rewrite append_cons, <- Hr.
  - by exists "".
Qed.

Lemma trimStart_head (s : string) :
  match JS.trimStart s with
  | EmptyString => True
  | String c _ => JS.isWhiteSpace c = false
  end.
Proof.
  induction s as [|c r IH]; simpl; [done|].
  destruct (JS.isWhiteSpace c) eqn:Hc; [done|]. done.
Qed.

Lemma trimEnd_cons (c : ascii) (r : string) :
  JS.trimEnd (String c r)
  = if String.eqb (JS.trimEnd r) "" && JS.isWhiteSpace c then ""
    else String c (JS.trimEnd r).
Proof. simpl. destruct (JS.trimEnd r); simpl; [|done]. by destruct (JS.isWhiteSpace c). Qed.

Lemma trimEnd_split (s : string) :
  exists ws, allWhiteSpace ws = true /\ s = (JS.trimEnd s ++ ws)%string.
Proof.
  induction s as [|c r (ws & Hws & Hr)]; [by exists ""|].
  rewrite trimEnd_cons.
  destruct (String.eqb_spec (JS.trimEnd r) "") as [He|He]; simpl.
  - destruct (JS.isWhiteSpace c) eqn:Hc.
    + exists (String c ws). simpl. rewrite Hc, Hws. split; [done|].
      rewrite He in Hr. change ("" ++ ws)%string with ws in Hr.
      change ("" ++ String c ws)%string with (String c ws). by rewrite <- Hr.
    + exists ws. split; [done|]. by rewrite append_cons, <- Hr.
  - exists ws. split; [done|]. by rewrite append_cons, <- Hr.
Qed.

Lemma trim_split (s : string) :
  exists w1 w2, allWhiteSpace w1 = true /\ allWhiteSpace w2 = true
                /\ s = (w1 ++ JS.trim s ++ w2)%string.
Proof.
  destruct (trimStart_split s) as (w1 & H1 & Hs).
  destruct (trimEnd_split (JS.trimStart s)) as (w2 & H2 & Ht).
  exists w1, w2. split; [done|]. split; [done|].
  unfold JS.trim. by rewrite <- Ht.
Qed.

Lemma trim_white (w : string) : allWhiteSpace w = true -> JS.trim w = "".
Proof. intros Hw. exact (trim_append_white "" w Hw). Qed.

Lemma trim_empty_white (s : string) : JS.trim s = "" -> allWhiteSpace s = true.
Proof.
  intros He. destruct (trim_split s) as (w1 & w2 & H1 & H2 & Hs).
  rewrite He in Hs. change ("" ++ w2)%string with w2 in Hs.
  by rewrite Hs, allWhiteSpace_append, H1, H2.
Qed.

Lemma white_no_char (c : ascii) (w : string) :
  JS.isWhiteSpace c = false -> allWhiteSpace w = true -> hasChar c w = false.
Proof.
  intros Hc. induction w as [|x r IH]; [done|]. cbn [allWhiteSpace hasChar].
  intros [Hx Hr]%andb_prop. rewrite (IH Hr), orb_false_r.
  destruct (Ascii.eqb_spec x c) as [->|]; [congruence|done].
Qed.

(** *** Splitting *)

Lemma split_nonempty (c : ascii) (s : string) : exists q qs, JS.split c s = q :: qs.
Proof.
  induction s as [|x r (q & qs & IH)]; simpl; [by eexists _, _|].
  destruct (Ascii.eqb x c); [by eexists _, _|]. rewrite IH. by eexists _, _.
Qed.

(** White space before a text is trimmed off its first part. *)
Lemma split_white_before (c : ascii) (w s : string) :
  JS.isWhiteSpace c = false -> allWhiteSpace w = true ->
  map JS.trim (JS.split c (w ++ s)) = map JS.trim (JS.split c s).
Proof.
  intros Hc. induction w as [|x r IH]; [done|]. cbn [allWhiteSpace].
  intros [Hx Hr]%andb_prop. simpl.
  destruct (Ascii.eqb_spec x c) as [->|_]; [congruence|].
  destruct (split_nonempty c (r ++ s)) as (q & qs & Hq). rewrite Hq.
  rewrite <- (IH Hr), Hq. simpl. f_equal. unfold JS.trim. simpl. by rewrite Hx.
Qed.

(** White space after a text is trimmed off its last part. *)
Lemma split_white_after (c : ascii) (s w : string) :
  JS.isWhiteSpace c = false -> allWhiteSpace w = true ->
  Forall2 (fun u v => u = v \/ u = (v ++ w)%string) (JS.split c (s ++ w)) (JS.split c s).
Proof.
  intros Hc Hw. induction s as [|x r IH]; simpl.
  - change ("" ++ w)%string with w.
    rewrite split_no_separator by (by apply white_no_char).
    constructor; [by right|constructor].
  - destruct (Ascii.eqb x c).
    + constructor; [by left|done].
    + destruct (split_nonempty c (r ++ w)) as (q' & qs' & Hq').
      destruct (split_nonempty c r) as (q & qs & Hq). rewrite Hq', Hq in *.
      inversion IH as [|? ? ? ? Hh Ht]; subst. constructor; [|done].
      destruct Hh as [Hh|Hh]; rewrite Hh; [by left|by right].
Qed.

Lemma split_trim (c : ascii) (p : string) :
  JS.isWhiteSpace c = false ->
  map JS.trim (JS.split c (JS.trim p)) = map JS.trim (JS.split c p).
Proof.
  intros Hc. destruct (trim_split p) as (w1 & w2 & H1 & H2 & Hp).
  rewrite Hp at 2. rewrite split_white_before by done.
  pose proof (split_white_after c (JS.trim p) w2 Hc H2) as Hall.
  symmetry. induction Hall as [|u v us vs Huv _ IH]; [done|].
  simpl. rewrite IH. f_equal. destruct Huv as [Huv|Huv]; rewrite Huv; [done|].
  by apply trim_append_white.
Qed.

Lemma pieceEndpoints_trim (p : string) :
  pieceEndpoints (JS.trim p) = pieceEndpoints p.
Proof. unfold pieceEndpoints. by rewrite split_trim. Qed.

Lemma split_first (c : ascii) (p : string) :
  hasChar c p = true ->
  exists a q, p = (a ++ String c q)%string /\ hasChar c a = false.
Proof.
  induction p as [|x r IH]; simpl; [done|].
  destruct (Ascii.eqb_spec x c) as [->|Hx]; simpl.
  - intros _. by exists "", r.
  - intros Hr. destruct (IH Hr) as (a & q & -> & Ha). exists (String x a), q.
    split; [done|]. simpl. rewrite Ha. by destruct (Ascii.eqb_spec x c).
Qed.

(** A piece has no dash, or a first part, a second part and a tail. *)
Lemma piece_shape (p : string) :
  hasChar "-" p = false
  \/ exists a b rest,
       hasChar "-" a = false /\ hasChar "-" b = false /\ dashTail rest
       /\ p = (a ++ "-" ++ b ++ rest)%string.
Proof.
  destruct (hasChar "-" p) eqn:Hp; [right|by left].
  destruct (split_first "-" p Hp) as (a & q & -> & Ha).
  destruct (hasChar "-" q) eqn:Hq.
  - destruct (split_first "-" q Hq) as (b & r & -> & Hb).
    exists a, b, (String "-" r).
    split; [done|]. split; [done|]. split; [right; by eexists|done].
  - exists a, q, "".
    split; [done|]. split; [done|]. split; [by left|]. by rewrite append_empty_r.
Qed.

Lemma split_piece (a b rest : string) :
  hasChar "-" a = false -> hasChar "-" b = false -> dashTail rest ->
  exists more, JS.split "-" (a ++ "-" ++ b ++ rest) = a :: b :: more.
Proof.
  intros Ha Hb Hrest.
  change (a ++ "-" ++ b ++ rest)%string with (a ++ String "-" (b ++ rest))%string.
  rewrite split_append by done. destruct Hrest as [->|[r ->]].
  - rewrite append_empty_r, split_no_separator by done. by exists [].
  - rewrite split_append by done. by eexists.
Qed.

(** *** [parseInt] *)

Lemma parseInt_unfold (s : string) :
  JS.parseInt s
  = match JS.trimStart s with
    | EmptyString => None
    | String c r =>
        if Ascii.eqb c "-" then readFrom (-1) r
        else if Ascii.eqb c "+" then readFrom 1 r
        else readFrom 1 (String c r)
    end.
Proof.
  unfold JS.parseInt. destruct (JS.trimStart s) as [|c r]; [done|].
  destruct c as [[|] [|] [|] [|] [|] [|] [|] [|]]; reflexivity.
Qed.

Lemma white_no_digit (c : ascii) : JS.isWhiteSpace c = true -> JS.digitValue c = None.
Proof.
  intros Hc. destruct (JS.digitValue c) eqn:Hd; [|done].
  destruct (digit_facts c (mk_is_Some _ _ Hd)) as [Hw _]. congruence.
Qed.

Lemma digitPrefix_trimEnd (s : string) : JS.digitPrefix (JS.trimEnd s) = JS.digitPrefix s.
Proof.
  induction s as [|c r IH]; [done|]. rewrite trimEnd_cons.
  destruct (String.eqb_spec (JS.trimEnd r) "") as [He|He]; simpl.
  - destruct (JS.isWhiteSpace c) eqn:Hc; simpl.
    + by rewrite (white_no_digit c Hc).
    + by rewrite <- IH, He.
  - by rewrite IH.
Qed.

Lemma readFrom_trimEnd (sign : Z) (s : string) :
  readFrom sign (JS.trimEnd s) = readFrom sign s.
Proof. unfold readFrom. by rewrite digitPrefix_trimEnd. Qed.

Lemma trimEnd_nonblank (c : ascii) (r : string) :
  JS.isWhiteSpace c = false -> JS.trimEnd (String c r) = String c (JS.trimEnd r).
Proof. intros Hc. by rewrite trimEnd_cons, Hc, andb_false_r. Qed.

(** The trimming done before [parseInt] changes nothing for it. *)
Lemma parseInt_trim (s : string) : JS.parseInt (JS.trim s) = JS.parseInt s.
Proof.
  rewrite !parseInt_unfold. unfold JS.trim.
  pose proof (trimStart_head s) as Hhead.
  destruct (JS.trimStart s) as [|c r]; [done|].
  rewrite trimEnd_nonblank by done. simpl. rewrite Hhead.
  rewrite !readFrom_trimEnd.
  replace (readFrom 1 (String c (JS.trimEnd r))) with (readFrom 1 (String c r)); [done|].
  by rewrite <- (readFrom_trimEnd 1 (String c r)), trimEnd_nonblank.
Qed.

Lemma digitPrefix_numeral (digits rest : string) (acc : Z) :
  Forall (fun c => is_Some (digitOf c)) (list_ascii_of_string digits) ->
  endsNumeral rest ->
  fold_left (fun acc d => 10 * acc + d) (JS.digitPrefix (digits ++ rest)) acc
  = acc * 10 ^ Z.of_nat (String.length digits) + numeralValue digits
  /\ (digits <> "" -> JS.digitPrefix (digits ++ rest) <> []).
Proof.
  intros Hd Hrest. revert acc. induction digits as [|c d IH]; intros acc.
  - change ("" ++ rest)%string with rest.
    assert (JS.digitPrefix rest = []) as ->.
    { destruct rest as [|x r]; [done|]. simpl in Hrest |- *.
      by rewrite <- digitOf_digitValue, Hrest. }
    split; [simpl; lia|done].
  - simpl in Hd. apply Forall_cons in Hd as [[v Hv] Hd].
    rewrite append_cons. cbn [JS.digitPrefix]. rewrite <- digitOf_digitValue, Hv.
    split; [|done]. cbn [fold_left]. rewrite (proj1 (IH Hd (10 * acc + v))).
    cbn [numeralValue String.length]. rewrite Hv. cbn [default]. unfold id.
    rewrite Nat2Z.inj_succ, Z.pow_succ_r by lia. ring.
Qed.

Lemma digitPrefix_split (r : string) :
  exists digits rest,
    r = (digits ++ rest)%string
    /\ Forall (fun c => is_Some (digitOf c)) (list_ascii_of_string digits)
    /\ endsNumeral rest.
Proof.
  induction r as [|c r (digits & rest & Hr & Hd & Hrest)].
  - exists "", "". split; [done|]. split; [constructor|done].
  - destruct (digitOf c) as [v|] eqn:Hv.
    + exists (String c digits), rest. rewrite append_cons, <- Hr.
      split; [done|]. split; [|done]. simpl. constructor; [by eexists|done].
    + exists "", (String c r). split; [done|]. split; [constructor|done].
Qed.

Lemma readFrom_numeral (sign : Z) (digits rest : string) :
  numeral digits -> endsNumeral rest ->
  readFrom sign (digits ++ rest) = Some (sign * numeralValue digits).
Proof.
  intros [Hne Hd] Hrest. unfold readFrom, JS.decimalValue.
  destruct (digitPrefix_numeral digits rest 0 Hd Hrest) as [Hv Hnil].
  destruct (JS.digitPrefix (digits ++ rest)) as [|x ds] eqn:He; [by destruct (Hnil Hne)|].
  rewrite Hv. f_equal; lia.
Qed.

Lemma readFrom_reads (sign : Z) (r : string) (n : Z) :
  readFrom sign r = Some n ->
  exists digits rest,
    r = (digits ++ rest)%string /\ numeral digits /\ endsNumeral rest
    /\ n = sign * numeralValue digits.
Proof.
  intros Hn. destruct (digitPrefix_split r) as (digits & rest & -> & Hd & Hrest).
  exists digits, rest. split; [done|].
  assert (numeral digits) as Hnum.
  { split; [|done]. intros ->. change ("" ++ rest)%string with rest in Hn.
    unfold readFrom in Hn. destruct rest as [|x r]; [done|]. simpl in Hrest, Hn.
    by rewrite <- digitOf_digitValue, Hrest in Hn. }
  split; [done|]. split; [done|].
  rewrite readFrom_numeral in Hn by done. by injection Hn as <-.
Qed.

(** [parseInt] reads a text without dash as the integer the text reads
    as, and gives [NaN] for a text that reads as none. *)
Lemma parseInt_reads (s : string) (n : Z) :
  hasChar "-" s = false ->
  JS.parseInt s = Some n <-> readsInteger s n.
Proof.
  intros Hdash. rewrite parseInt_unfold. split.
  - destruct (trimStart_split s) as (ws & Hws & Hs).
    destruct (JS.trimStart s) as [|c r]; [done|].
    destruct (Ascii.eqb_spec c "-") as [->|_].
    { rewrite Hs, hasChar_append in Hdash. simpl in Hdash.
      by rewrite orb_true_r in Hdash. }
    destruct (Ascii.eqb_spec c "+") as [->|_]; intros Hn;
      apply readFrom_reads in Hn as (digits & rest & Hr & Hnum & Hrest & ->).
    + exists ws, "+", digits, rest. rewrite Hs, Hr.
      split; [done|]. split; [by apply blankText_allWhiteSpace|].
      split; [by right|]. split; [done|]. split; [done|]. lia.
    + exists ws, "", digits, rest. rewrite Hs, Hr.
      split; [done|]. split; [by apply blankText_allWhiteSpace|].
      split; [by left|]. split; [done|]. split; [done|]. lia.
  - intros (ws & sign & digits & rest & -> & Hws & Hsign & Hnum & Hrest & ->).
    apply blankText_allWhiteSpace in Hws. rewrite trimStart_white by done.
    rewrite <- (Z.mul_1_l (numeralValue digits)).
    destruct Hsign as [->| ->].
    + change ("" ++ digits ++ rest)%string with (digits ++ rest)%string.
      rewrite <- (readFrom_numeral 1 digits rest Hnum Hrest).
      destruct Hnum as [Hne Hd]. destruct digits as [|c d]; [done|].
      simpl in Hd. apply Forall_cons in Hd as [Hc _].
      rewrite digitOf_digitValue in Hc.
      destruct (digit_facts c Hc) as (Hw & _ & Hm & Hp).
      rewrite append_cons. simpl. by rewrite Hw, Hm, Hp.
    + change ("+" ++ digits ++ rest)%string with (String "+" (digits ++ rest)).
      by rewrite <- (readFrom_numeral 1 digits rest Hnum Hrest).
Qed.

(** *** One piece *)

Lemma parseInt_white (b : string) : allWhiteSpace b = true -> JS.parseInt b = None.
Proof. intros Hb. by rewrite <- parseInt_trim, trim_white. Qed.

Lemma pieceEndpoints_plain (p : string) :
  hasChar "-" p = false ->
  pieceEndpoints p = (fun h => (h, h)) <$> JS.parseInt p.
Proof.
  intros Hp. unfold pieceEndpoints. rewrite split_no_separator by done. simpl.
  rewrite parseInt_trim. by destruct (JS.parseInt p).
Qed.

Lemma pieceEndpoints_range (a b rest : string) :
  hasChar "-" a = false -> hasChar "-" b = false -> dashTail rest ->
  pieceEndpoints (a ++ "-" ++ b ++ rest)
  = match JS.parseInt a, (if allWhiteSpace b then JS.parseInt a else JS.parseInt b) with
    | Some h, Some l => Some (h, l)
    | _, _ => None
    end.
Proof.
  intros Ha Hb Hrest. unfold pieceEndpoints.
  destruct (split_piece a b rest Ha Hb Hrest) as [more ->]. simpl.
  rewrite !parseInt_trim.
  destruct (String.eqb_spec (JS.trim b) "") as [He|He].
  - by rewrite (trim_empty_white b He).
  - destruct (allWhiteSpace b) eqn:Hw; [|done]. by destruct He; apply trim_white.
Qed.

(** [pieceEndpoints] finds in a piece the endpoints written in it, and
    none in a piece that does not parse to two integers. *)
Lemma pieceEndpoints_spec (p : string) (h l : Z) :
  pieceEndpoints p = Some (h, l) <-> endpoints p h l.
Proof.
  split.
  - destruct (piece_shape p) as [Hp|(a & b & rest & Ha & Hb & Hrest & ->)].
    + rewrite pieceEndpoints_plain by done.
      destruct (JS.parseInt p) as [n|] eqn:Hn; [|done]. intros [= <- <-].
      exists p. split; [done|]. split; [by apply parseInt_reads|by left].
    + rewrite pieceEndpoints_range by done.
      destruct (JS.parseInt a) as [n|] eqn:Hn; [|done].
      apply parseInt_reads in Hn; [|done].
      destruct (allWhiteSpace b) eqn:Hw.
      * intros [= <- <-]. exists a. split; [done|]. split; [done|]. right.
        exists b, rest. split; [done|]. split; [done|]. split; [done|]. left.
        split; [by apply blankText_allWhiteSpace|done].
      * destruct (JS.parseInt b) as [m|] eqn:Hm; [|done]. intros [= <- <-].
        apply parseInt_reads in Hm; [|done].
        exists a. split; [done|]. split; [done|]. right.
        exists b, rest. split; [done|]. split; [done|]. split; [done|]. by right.
  - intros (a & Ha & Hh & [[-> ->]|(b & rest & Hb & Hrest & -> & Hlo)]).
    + rewrite pieceEndpoints_plain by done.
      apply parseInt_reads in Hh; [|done]. by rewrite Hh.
    + rewrite pieceEndpoints_range by done.
      apply parseInt_reads in Hh; [|done]. rewrite Hh.
      destruct Hlo as [[Hw ->]|Hl].
      * apply blankText_allWhiteSpace in Hw. by rewrite Hw.
      * apply parseInt_reads in Hl; [|done].
        destruct (allWhiteSpace b) eqn:Hw; [|by rewrite Hl].
        by rewrite parseInt_white in Hl.
Qed.

Lemma unreadable_spec (p : string) : unreadable p <-> pieceEndpoints p = None.
Proof.
  split.
  - intros Hp. destruct (pieceEndpoints p) as [[h l]|] eqn:He; [|done].
    by destruct (Hp h l); apply pieceEndpoints_spec.
  - intros He h l Hr. apply pieceEndpoints_spec in Hr. congruence.
Qed.

Lemma parsePiece_endpoints (p : string) (h l : Z) :
  endpoints p h l -> parsePiece (JS.trim p) = Some (rangeBetween (h, l)).
Proof.
  intros Hp. apply pieceEndpoints_spec in Hp.
  unfold parsePiece. by rewrite pieceEndpoints_trim, Hp.
Qed.

Lemma parsePiece_unreadable (p : string) :
  unreadable p -> parsePiece (JS.trim p) = None.
Proof.
  intros Hp. apply unreadable_spec in Hp.
  unfold parsePiece. by rewrite pieceEndpoints_trim, Hp.
Qed.

(** *** A whole location *)

Lemma parsePiece_readings (parts : list string) (ends : list (Z * Z)) :
  readings parts ends ->
  omap (fun p => parsePiece (JS.trim p)) parts = rangeBetween <$> ends.
Proof.
  induction 1 as [|p hi lo ps es Hp _ IH|p ps es Hp _ IH]; [done|..]; csimpl.
  - by rewrite (parsePiece_endpoints p hi lo Hp), IH.
  - by rewrite (parsePiece_unreadable p Hp), IH.
Qed.

(** Every list of pieces has its reading. *)
Lemma readings_total (parts : list string) : exists ends, readings parts ends.
Proof.
  induction parts as [|p ps [es IH]]; [exists []; constructor|].
  destruct (pieceEndpoints p) as [[h l]|] eqn:He.
  - exists ((h, l) :: es). constructor; [by apply pieceEndpoints_spec|done].
  - exists es. apply readings_drop; [by apply unreadable_spec|done].
Qed.

Lemma joinWith_cons_char (sep : string) (x : ascii) (q : string) (qs : list string) :
  joinWith sep (String x q :: qs) = String x (joinWith sep (q :: qs)).
Proof. by destruct qs. Qed.

(** Every text is its parts between the bars, joined by bars. *)
Lemma joinWith_split (c : ascii) (s : string) :
  joinWith (String c "") (JS.split c s) = s
  /\ Forall (fun p => hasChar c p = false) (JS.split c s).
Proof.
  induction s as [|x r [IHj IHf]]; [by repeat constructor|]. simpl.
  destruct (split_nonempty c r) as (q & qs & Hq). rewrite Hq in *.
  apply Forall_cons in IHf as [Hh Ht].
  destruct (Ascii.eqb_spec x c) as [->|Hx].
  - split; [|by repeat constructor].
    change (joinWith (String c "") ("" :: q :: qs))
      with (String c (joinWith (String c "") (q :: qs))). by rewrite IHj.
  - split; [by rewrite joinWith_cons_char, IHj|].
    constructor; [|done]. simpl. rewrite Hh. by destruct (Ascii.eqb_spec x c).
Qed.

Lemma parseLocationSegments_text (loc : Location) :
  parseLocationSegments loc = parseLocationSegments (LString (locationToString loc)).
Proof. by destruct loc. Qed.

Lemma parseLocationSegments_readings
    (loc : Location) (parts : list string) (ends : list (Z * Z)) :
  locationToString loc = joinWith "|" parts ->
  Forall (fun p => hasChar "|" p = false) parts ->
  readings parts ends ->
  parseLocationSegments loc = JS.sort cmpSegment (rangeBetween <$> ends).
Proof.
  intros Hloc Hbar Hread.
  by rewrite parseLocationSegments_text, Hloc, parseLocationSegments_joined,
    (parsePiece_readings parts ends Hread).
Qed.

(** Every location has pieces and a reading of them. *)
Lemma location_readings (loc : Location) :
  exists parts ends,
    locationToString loc = joinWith "|" parts
    /\ Forall (fun p => hasChar "|" p = false) parts
    /\ readings parts ends.
Proof.
  destruct (joinWith_split "|" (locationToString loc)) as [Hj Hf].
  destruct (readings_total (JS.split "|" (locationToString loc))) as [ends He].
  by exists (JS.split "|" (locationToString loc)), ends.
Qed.

(** C4: for every location expression, [parseLocationSegments] answers
    exactly the pieces that parse: one range for each piece between the
    bars in which two endpoints are written, with [from] the larger and
    [to] the smaller of the two (so no range has its high end below its
    low end, whatever the order the endpoints were written in), and
    nothing for the other pieces; the ranges come in descending order of
    [from] and, at equal [from], of [to]. The endpoints are taken to be
    integers a Number holds exactly, and so are the bounds answered.
    "31-25|11-7" gives the ranges {31,25} and {11,7}, of widths 7 and
    5. *)
Theorem parseLocationSegments_normalized_sorted
    (loc : Location) (parts : list string) (ends : list (Z * Z)) :
  locationToString loc = joinWith "|" parts ->
  Forall (fun p => hasChar "|" p = false) parts ->
  readings parts ends ->
  Forall safeEndpoints ends ->
  let out := parseLocationSegments loc in
  out ≡ₚ (fun e => mkSegment (Z.max e.1 e.2) (Z.min e.1 e.2)) <$> ends
  /\ Forall (fun r => seg_to r <= seg_from r) out
  /\ StronglySorted segmentOrder out
  /\ Forall (fun r => JS.isSafeInteger (seg_from r) = true
                      /\ JS.isSafeInteger (seg_to r) = true) out
  /\ parseLocationSegments (LString "31-25|11-7") = [mkSegment 31 25; mkSegment 11 7]
  /\ segmentWidth <$> parseLocationSegments (LString "31-25|11-7") = [7; 5]
  /\ parseLocationSegments (LString "7-11") = [mkSegment 11 7].
Proof.
  intros Hloc Hbar Hread Hsafe out. subst out.
  rewrite (parseLocationSegments_readings loc parts ends Hloc Hbar Hread).
  split; [apply sort_perm|]. split; [|split; [|split; [|done]]].
  - apply Forall_forall. intros r Hr. apply sort_elem_of in Hr.
    apply list_elem_of_fmap in Hr as (e & -> & _). simpl. lia.
  - eapply StronglySorted_weaken; [|apply sort_sorted].
    + intros a b. apply cmpSegment_before.
    + apply cmpSegment_total.
    + apply cmpSegment_trans.
  - apply Forall_forall. intros r Hr. apply sort_elem_of in Hr.
    apply list_elem_of_fmap in Hr as (e & -> & He).
    destruct (proj1 (Forall_forall _ _) Hsafe e He) as [H1 H2]. simpl.
    destruct (Z.max_spec e.1 e.2) as [[_ ->]|[_ ->]],
      (Z.min_spec e.1 e.2) as [[_ ->]|[_ ->]]; done.
Qed.

Lemma parseLocationSegments_normalized_sorted_witness :
  readings [" 25-31 "; "x"; "7"] [(25, 31); (7, 7)]
  /\ parseLocationSegments (LString " 25-31 |x|7") ≡ₚ [mkSegment 31 25; mkSegment 7 7].
Proof.
  assert (readings [" 25-31 "; "x"; "7"] [(25, 31); (7, 7)]) as Hread.
  { apply readings_keep; [by apply pieceEndpoints_spec|].
    apply readings_drop; [by apply unreadable_spec|].
    apply readings_keep; [by apply pieceEndpoints_spec|]. apply readings_nil. }
  split; [exact Hread|].
  refine (proj1 (parseLocationSegments_normalized_sorted
                   (LString " 25-31 |x|7") [" 25-31 "; "x"; "7"] [(25, 31); (7, 7)]
                   eq_refl _ Hread _)).
  - repeat constructor.
  - repeat constructor.
Defined.

Lemma parseLocationSegments_single (p : string) :
  hasChar "|" p = false ->
  parseLocationSegments (LString p) = from_option (fun r => [r]) [] (parsePiece (JS.trim p)).
Proof.
  intros Hp. change p with (joinWith "|" [p]) at 1.
  rewrite (parseLocationSegments_joined [p]) by (by constructor).
  csimpl. by destruct (parsePiece (JS.trim p)).
Qed.

Lemma parseInt_unread (s : string) :
  hasChar "-" s = false -> (forall n, ~ readsInteger s n) -> JS.parseInt s = None.
Proof.
  intros Hs Hn. destruct (JS.parseInt s) as [n|] eqn:He; [|done].
  by destruct (Hn n); apply parseInt_reads.
Qed.

(** C5: a piece that does not parse to two integers leaves no trace in
    the result of [parseLocationSegments]: the result is that of the
    expression without the piece, so the other pieces are all answered,
    one range for each piece that parses, and nothing is raised. Such are
    every piece whose text before the first dash reads as no integer, and
    every piece whose text after the first dash is not blank and reads as
    no integer. An absent ([undefined] or [null]), empty or blank
    expression gives the empty sequence. *)
Theorem parseLocationSegments_lenient (before after : list string) (p : string) :
  Forall (fun q => hasChar "|" q = false) (before ++ p :: after) ->
  unreadable p ->
  let out := parseLocationSegments (LString (joinWith "|" (before ++ p :: after))) in
  out = parseLocationSegments (LString (joinWith "|" (before ++ after)))
  /\ (forall ends, readings (before ++ after) ends -> length out = length ends)
  /\ (forall a more,
        hasChar "|" (a ++ more) = false -> hasChar "-" a = false -> dashTail more ->
        (forall n, ~ readsInteger a n) ->
        parseLocationSegments (LString (a ++ more)) = [])
  /\ (forall a b rest,
        hasChar "|" (a ++ "-" ++ b ++ rest) = false ->
        hasChar "-" a = false -> hasChar "-" b = false -> dashTail rest ->
        ~ blankText b -> (forall n, ~ readsInteger b n) ->
        parseLocationSegments (LString (a ++ "-" ++ b ++ rest)) = [])
  /\ parseLocationSegments LUndefined = []
  /\ parseLocationSegments LNull = []
  /\ parseLocationSegments (LString "") = []
  /\ (forall w, blankText w -> parseLocationSegments (LString w) = []).
Proof.
  intros Hbar Hp out.
  assert (Forall (fun q => hasChar "|" q = false) (before ++ after)) as Hbar'.
  { apply Forall_app in Hbar as [Hb Ha]. apply Forall_cons in Ha as [_ Ha].
    by apply Forall_app. }
  assert (out = parseLocationSegments (LString (joinWith "|" (before ++ after)))) as Hout.
  { subst out. rewrite !parseLocationSegments_joined by done. f_equal.
    rewrite !omap_app. csimpl. by rewrite (parsePiece_unreadable p Hp). }
  split; [done|]. split; [|split; [|split; [|split; [|split; [|split]]]]]; try done.
  - intros ends Hread. rewrite Hout.
    rewrite (parseLocationSegments_readings (LString (joinWith "|" (before ++ after)))
               (before ++ after) ends eq_refl Hbar' Hread).
    by rewrite sort_length, length_fmap.
  - intros a more Hnobar Ha Hmore Hn.
    rewrite parseLocationSegments_single by done.
    unfold parsePiece. rewrite pieceEndpoints_trim.
    assert (pieceEndpoints (a ++ more) = None) as ->; [|done].
    destruct Hmore as [->|[r ->]].
    + rewrite append_empty_r, pieceEndpoints_plain by done.
      by rewrite parseInt_unread.
    + unfold pieceEndpoints. rewrite split_append by done. simpl.
      by rewrite parseInt_trim, parseInt_unread.
  - intros a b rest Hnobar Ha Hb Hrest Hblank Hn.
    rewrite parseLocationSegments_single by done.
    unfold parsePiece. rewrite pieceEndpoints_trim, pieceEndpoints_range by done.
    destruct (allWhiteSpace b) eqn:Hw; [by destruct Hblank; apply blankText_allWhiteSpace|].
    rewrite (parseInt_unread b) by done. by destruct (JS.parseInt a).
  - intros w Hw. apply blankText_allWhiteSpace in Hw.
    rewrite parseLocationSegments_single by (by apply white_no_bar).
    by rewrite trim_white.
Qed.

Lemma parseLocationSegments_lenient_witness :
  unreadable "5-abc"
  /\ parseLocationSegments (LString "31-25|5-abc| 11-7 |x-3|")
     = [mkSegment 31 25; mkSegment 11 7].
Proof.
  assert (unreadable "5-abc") as Hp by (by apply unreadable_spec).
  split; [exact Hp|].
  refine (eq_trans (proj1 (parseLocationSegments_lenient
                             ["31-25"] [" 11-7 "; "x-3"; ""] "5-abc" _ Hp)) eq_refl).
  repeat constructor.
Defined.

(** What reads as an integer: a numeral followed by other text, a missing
    low end, a third endpoint and a plus sign are accepted; a low end
    that reads as no integer and a leading dash are not. *)
Lemma parseLocationSegments_readable_texts :
  parseLocationSegments (LString "5abc") = [mkSegment 5 5]
  /\ parseLocationSegments (LString "5-") = [mkSegment 5 5]
  /\ parseLocationSegments (LString "5-3-1") = [mkSegment 5 3]
  /\ parseLocationSegments (LString "+5") = [mkSegment 5 5]
  /\ parseLocationSegments (LString "5-abc") = []
  /\ parseLocationSegments (LString "-5") = [].
Proof. done. Qed.
